(** * OpenAi-Balance: key pool, proxy pool, provider reload and streaming retry

    A shallow embedding of the dispatch substrate of the gateway:

    - [Key]      : [app/service/key/key_manager.py] and the failure branch of
                   [check_failed_keys] in [app/scheduler/scheduled_tasks.py];
    - [Proxy]    : [app/service/proxy/proxy_manager.py];
    - [Provider] : [app/service/provider/provider_key_manager.py] and the key
                   selection of [ProviderService.get_models];
    - [Singleton]: the shared [KeyManager] instance of [key_manager.py];
    - [Manager]  : [app/service/provider/provider_manager.py] and
                   [get_provider_service] of the provider router;
    - [Stream]   : [ProviderService._handle_stream_completion] and the same
                   loop of [OpenAICompatiableService];
    - [Router]   : [_handle_chat_completion] of [app/router/provider_routes.py]
                   (the stream branch of [chat_completion] in
                   [app/router/openai_routes.py] is the same code);
    - [KeyRoutes]: the pagination of [app/router/key_routes.py];
    - [Client]   : the proxy selection and the proxy bookkeeping of
                   [app/service/client/api_client.py].

    The definitions come first, one module per source file; the facts and the
    theorems follow, grouped in the same order.

    Python [dict]s are [gmap]s, [set]s are [gset]s, [int]s are [Z], lists are
    lists.  Every coroutine is modelled as one atomic state transformer: the
    [async with lock] sections are executed without interleaving. *)

From Stdlib Require Import ZArith Lia.
From stdpp Require Import base option list gmap strings fin_maps fin_sets.

#[local] Set Warnings "-clear-no-such-hyp".

Local Open Scope Z_scope.

(** ** Global settings ([app.config.config.settings])

    Only the fields read by the modelled code. *)
Record Settings := mkSettings {
  S_MAX_FAILURES : Z;
  S_MAX_RETRIES : Z;
  S_PROXY_MAX_FAILURES : Z;
  S_PROXIES_USE_CONSISTENCY_HASH_BY_API_KEY : bool
}.

(** Python truthiness of a [str]: [not s] holds exactly for the empty string. *)
Definition truthy (s : string) : bool := bool_decide (s ≠ ""%string).

(** The line feed character, as a one-character string. *)
Definition LF : string := String (Ascii.ascii_of_nat 10) EmptyString.

(** [str.startswith] *)
Definition startswith (pre s : string) : bool := bool_decide (String.prefix pre s = true).

(** Python values carried in [Exception.args] and in log records. *)
Inductive PyVal :=
| PInt (n : Z)
| PStr (s : string).

(** A raised exception: its [args] tuple and the text [str(e)]. *)
Record PyException := mkExc {
  exc_args : list PyVal;
  exc_str : string
}.

(** [Exception(code, msg)], as raised on a non-200 upstream response. *)
Definition http_error (code : Z) (msg : string) : PyException :=
  {| exc_args := [PInt code; PStr msg]; exc_str := ""%string |}.

(** [e.args[0] if e.args else 500] *)
Definition error_code_of (e : PyException) : PyVal :=
  match exc_args e with
  | a :: _ => a
  | [] => PInt 500
  end.

(** [e.args[1] if len(e.args) > 1 else str(e)] *)
Definition error_msg_of (e : PyException) : PyVal :=
  match exc_args e with
  | _ :: b :: _ => b
  | _ => PStr (exc_str e)
  end.

(** * KeyManager *)
Module Key.

(** [key_cycle] is the number of elements already drawn from
    [itertools.cycle(api_keys)]: the iterator yields
    [api_keys[key_cycle mod len]] next. *)
Record KeyManager := mkKeyManager {
  api_keys : list string;
  key_cycle : nat;
  key_failure_counts : gmap string Z;
  MAX_FAILURES : Z
}.

(** [{key: 0 for key in api_keys}] *)
Definition zero_counts (keys : list string) : gmap string Z :=
  foldl (λ m k, <[k := 0]> m) ∅ keys.

(** [KeyManager.__init__] *)
Definition init (st : Settings) (keys : list string) : KeyManager :=
  {| api_keys := keys;
     key_cycle := 0;
     key_failure_counts := zero_counts keys;
     MAX_FAILURES := S_MAX_FAILURES st |}.

Definition set_counts (km : KeyManager) (c : gmap string Z) : KeyManager :=
  {| api_keys := api_keys km; key_cycle := key_cycle km;
     key_failure_counts := c; MAX_FAILURES := MAX_FAILURES km |}.

Definition set_max_failures (km : KeyManager) (m : Z) : KeyManager :=
  {| api_keys := api_keys km; key_cycle := key_cycle km;
     key_failure_counts := key_failure_counts km; MAX_FAILURES := m |}.

(** [get_next_key]: [next(self.key_cycle)].  [None] is the [StopIteration]
    that [next] raises on [cycle([])]. *)
Definition get_next_key (km : KeyManager) : option (string * KeyManager) :=
  match api_keys km !! (key_cycle km mod length (api_keys km))%nat with
  | Some k =>
      Some (k, {| api_keys := api_keys km; key_cycle := S (key_cycle km);
                  key_failure_counts := key_failure_counts km;
                  MAX_FAILURES := MAX_FAILURES km |})
  | None => None
  end.

(** [get_fail_count]: [self.key_failure_counts.get(key, 0)] *)
Definition get_fail_count (km : KeyManager) (key : string) : Z :=
  default 0 (key_failure_counts km !! key).

(** [is_key_valid] *)
Definition is_key_valid (km : KeyManager) (key : string) : bool :=
  bool_decide (get_fail_count km key < MAX_FAILURES km).

(** [reset_failure_counts] *)
Definition reset_failure_counts (km : KeyManager) : KeyManager :=
  set_counts km ((λ _, 0) <$> key_failure_counts km).

(** [reset_key_failure_count] *)
Definition reset_key_failure_count (km : KeyManager) (key : string)
  : bool * KeyManager :=
  match key_failure_counts km !! key with
  | Some _ => (true, set_counts km (<[key := 0]> (key_failure_counts km)))
  | None => (false, km)
  end.

(** The [while True] loop of [get_next_working_key].  Each iteration that does
    not return draws one key from the cycle; [fuel] bounds the number of
    draws.  [None] is either [StopIteration] or exhausted fuel;
    [get_next_working_key_total] shows that neither happens. *)
Fixpoint working_key_loop (fuel : nat) (initial_key current_key : string)
    (km : KeyManager) : option (string * KeyManager) :=
  if is_key_valid km current_key then Some (current_key, km)
  else
    match fuel with
    | O => None
    | S fuel' =>
        match get_next_key km with
        | Some (next_key, km') =>
            if decide (next_key = initial_key) then Some (next_key, km')
            else working_key_loop fuel' initial_key next_key km'
        | None => None
        end
    end.

(** [get_next_working_key] *)
Definition get_next_working_key (km : KeyManager) : option (string * KeyManager) :=
  match api_keys km with
  | [] => Some (""%string, km)
  | _ :: _ =>
      match get_next_key km with
      | Some (initial_key, km') =>
          working_key_loop (length (api_keys km)) initial_key initial_key km'
      | None => None
      end
  end.

(** The locked section of [handle_api_failure]:
    [if api_key in counts: counts[api_key] += 1]. *)
Definition record_failure (km : KeyManager) (api_key : string) : KeyManager :=
  match key_failure_counts km !! api_key with
  | Some c => set_counts km (<[api_key := c + 1]> (key_failure_counts km))
  | None => km
  end.

(** [handle_api_failure] *)
Definition handle_api_failure (st : Settings) (km : KeyManager)
    (api_key : string) (retries : Z) : option (string * KeyManager) :=
  let km1 := record_failure km api_key in
  if bool_decide (retries < S_MAX_RETRIES st) then get_next_working_key km1
  else Some (""%string, km1).

(** [get_first_valid_key] *)
Definition get_first_valid_key (km : KeyManager) : string :=
  match List.find (is_key_valid km) (api_keys km) with
  | Some key => key
  | None =>
      match api_keys km with
      | key :: _ => key
      | [] => ""%string
      end
  end.

(** [get_random_valid_key]; [choice] is the index drawn by [random.choice]. *)
Definition get_random_valid_key (km : KeyManager) (choice : nat) : string :=
  match List.filter (is_key_valid km) (api_keys km) with
  | v :: vs => List.nth (choice mod length (v :: vs))%nat (v :: vs) v
  | [] =>
      match api_keys km with
      | key :: _ => key
      | [] => ""%string
      end
  end.

(** The [except] branch of [check_failed_keys] (scheduled_tasks.py): a failed
    probe increments the count only while it is below [MAX_FAILURES]. *)
Definition check_failed_key_failure (km : KeyManager) (key : string) : KeyManager :=
  match key_failure_counts km !! key with
  | Some c =>
      if bool_decide (c < MAX_FAILURES km)
      then set_counts km (<[key := c + 1]> (key_failure_counts km))
      else km
  | None => km
  end.

(** The operations that act on a [KeyManager], as one request type.
    [OpProbeFailed] is the failure branch of the scheduler's
    [check_failed_keys]; its success branch is [OpResetKey]. *)
Inductive op :=
| OpGetNextKey
| OpGetNextWorkingKey
| OpHandleApiFailure (api_key : string) (retries : Z)
| OpResetAll
| OpResetKey (key : string)
| OpProbeFailed (key : string).

Definition step (st : Settings) (km : KeyManager) (o : op) : KeyManager :=
  match o with
  | OpGetNextKey => from_option snd km (get_next_key km)
  | OpGetNextWorkingKey => from_option snd km (get_next_working_key km)
  | OpHandleApiFailure api_key retries =>
      from_option snd (record_failure km api_key)
                  (handle_api_failure st km api_key retries)
  | OpResetAll => reset_failure_counts km
  | OpResetKey key => (reset_key_failure_count km key).2
  | OpProbeFailed key => check_failed_key_failure km key
  end.

Definition run (st : Settings) (km : KeyManager) (os : list op) : KeyManager :=
  foldl (step st) km os.

(** Two managers over the same pool: same keys, counts and threshold; only
    the cursor may differ. *)
Definition same_pool (km km' : KeyManager) : Prop :=
  api_keys km' = api_keys km
  ∧ key_failure_counts km' = key_failure_counts km
  ∧ MAX_FAILURES km' = MAX_FAILURES km.

(** The key the cycle yields after [c] draws. *)
Definition key_at (km : KeyManager) (c : nat) : option string :=
  api_keys km !! (c mod length (api_keys km))%nat.

(** The failure-count dictionary has an entry for exactly the keys of the
    pool, as [__init__] sets it up. *)
Definition counts_cover (km : KeyManager) : Prop :=
  ∀ key, key ∈ api_keys km ↔ is_Some (key_failure_counts km !! key).

(** The two halves of the bound [0 <= fail_count <= MAX_FAILURES]. *)
Definition counts_nonneg (km : KeyManager) : Prop :=
  ∀ key c, key_failure_counts km !! key = Some c → 0 <= c.

Definition counts_capped (km : KeyManager) : Prop :=
  ∀ key c, key_failure_counts km !! key = Some c → c <= MAX_FAILURES km.

(** [n] consecutive calls of [get_next_key]: the keys drawn, in order.
    [None] as soon as one call raises. *)
Fixpoint get_next_keys (n : nat) (km : KeyManager) : option (list string * KeyManager) :=
  match n with
  | O => Some ([], km)
  | S n' =>
      match get_next_key km with
      | Some (k, km1) =>
          match get_next_keys n' km1 with
          | Some (ks, km2) => Some (k :: ks, km2)
          | None => None
          end
      | None => None
      end
  end.

(** The dictionaries returned by [get_all_keys_with_fail_count].  Their
    insertion order (pool order) is not modelled. *)
Record KeysStatus := mkKeysStatus {
  valid_keys : gmap string Z;
  invalid_keys : gmap string Z;
  all_keys : gmap string Z
}.

(** [get_all_keys_with_fail_count] *)
Definition get_all_keys_with_fail_count (km : KeyManager) : KeysStatus :=
  let all := foldl (λ m key, <[key := get_fail_count km key]> m) ∅ (api_keys km) in
  {| valid_keys := filter (λ kv, kv.2 < MAX_FAILURES km) all;
     invalid_keys := filter (λ kv, kv.2 >= MAX_FAILURES km) all;
     all_keys := all |}.

(** [get_keys_by_status]: the pair [(valid_keys, invalid_keys)]. *)
Definition get_keys_by_status (km : KeyManager) : gmap string Z * gmap string Z :=
  foldl (λ '(valid, invalid) key,
           let fail_count := get_fail_count km key in
           if bool_decide (fail_count < MAX_FAILURES km)
           then (<[key := fail_count]> valid, invalid)
           else (valid, <[key := fail_count]> invalid))
        (∅, ∅) (api_keys km).

(** The body of the verification loop of [check_failed_keys]: one probe of
    [key], followed by the reset or the guarded increment. *)
Definition probe_key (probe_ok : string → bool) (km : KeyManager) (key : string)
  : KeyManager :=
  if probe_ok key then (reset_key_failure_count km key).2
  else check_failed_key_failure km key.

(** [check_failed_keys] (scheduled_tasks.py) on an initialised manager.
    [probe_ok key] tells whether the test completion sent with [key]
    succeeds.  The keys to check are those of the count dictionary with a
    count above zero; each is probed once, and the probes act on distinct
    keys, so the order of the dictionary does not matter. *)
Definition check_failed_keys (probe_ok : string → bool) (km : KeyManager) : KeyManager :=
  let keys_to_check :=
    (map_to_list (filter (λ kv, kv.2 > 0) (key_failure_counts km))).*1 in
  foldl (probe_key probe_ok) km keys_to_check.

End Key.

(** * ProxyManager *)
Module Proxy.

Record ProxyManager := mkProxyManager {
  proxies : list string;
  proxy_failure_counts : gmap string Z;
  disabled_proxies : gset string;
  key_proxy_bindings : gmap string string;
  MAX_FAILURES : Z;
  _last_check_time : gmap string Z
}.

(** [{proxy: 0 for proxy in self.proxies}] *)
Definition zero_counts (ps : list string) : gmap string Z :=
  foldl (λ m p, <[p := 0]> m) ∅ ps.

(** [ProxyManager.__init__]; [proxies or []] is the list itself. *)
Definition init (st : Settings) (ps : list string) : ProxyManager :=
  {| proxies := ps;
     proxy_failure_counts := zero_counts ps;
     disabled_proxies := ∅;
     key_proxy_bindings := ∅;
     MAX_FAILURES := S_PROXY_MAX_FAILURES st;
     _last_check_time := ∅ |}.

(** [keys_to_unbind = [k for k, v in bindings.items() if v == proxy]]
    followed by [del bindings[key]] for each of them. *)
Definition unbind_proxy (proxy : string) (b : gmap string string) : gmap string string :=
  filter (λ kv, kv.2 ≠ proxy) b.

(** One iteration of the removal loop of [reload_proxies]. *)
Definition remove_proxy (pm : ProxyManager) (proxy : string) : ProxyManager :=
  {| proxies := proxies pm;
     proxy_failure_counts := delete proxy (proxy_failure_counts pm);
     disabled_proxies := disabled_proxies pm ∖ {[proxy]};
     key_proxy_bindings := unbind_proxy proxy (key_proxy_bindings pm);
     MAX_FAILURES := MAX_FAILURES pm;
     _last_check_time := delete proxy (_last_check_time pm) |}.

(** One iteration of the addition loop of [reload_proxies]. *)
Definition add_proxy (pm : ProxyManager) (proxy : string) : ProxyManager :=
  {| proxies := proxies pm;
     proxy_failure_counts := <[proxy := 0]> (proxy_failure_counts pm);
     disabled_proxies := disabled_proxies pm;
     key_proxy_bindings := key_proxy_bindings pm;
     MAX_FAILURES := MAX_FAILURES pm;
     _last_check_time := _last_check_time pm |}.

(** [reload_proxies].  The two loops run over the set differences
    [new - old] and [old - new]; the iterations act on distinct proxies and
    commute, so the sets are enumerated in list order. *)
Definition reload_proxies (pm : ProxyManager) (new_proxies : list string) : ProxyManager :=
  let added := List.filter (λ p, bool_decide (p ∉ proxies pm)) new_proxies in
  let removed := List.filter (λ p, bool_decide (p ∉ new_proxies)) (proxies pm) in
  let pm1 := foldl add_proxy pm added in
  let pm2 := foldl remove_proxy pm1 removed in
  {| proxies := new_proxies;
     proxy_failure_counts := proxy_failure_counts pm2;
     disabled_proxies := disabled_proxies pm2;
     key_proxy_bindings := key_proxy_bindings pm2;
     MAX_FAILURES := MAX_FAILURES pm2;
     _last_check_time := _last_check_time pm2 |}.

(** [get_available_proxies] *)
Definition get_available_proxies (pm : ProxyManager) : list string :=
  List.filter (λ p, bool_decide (p ∉ disabled_proxies pm)) (proxies pm).

Definition set_bindings (pm : ProxyManager) (b : gmap string string) : ProxyManager :=
  {| proxies := proxies pm;
     proxy_failure_counts := proxy_failure_counts pm;
     disabled_proxies := disabled_proxies pm;
     key_proxy_bindings := b;
     MAX_FAILURES := MAX_FAILURES pm;
     _last_check_time := _last_check_time pm |}.

Section WithHash.

(** Python's built-in [hash] on [str]: fixed within one process. *)
Variable hash : string → Z.

(** [available[hash(api_key) % len(available)]]; Python's [%] with a positive
    modulus is [Z.modulo]. *)
Definition hash_slot (api_key : string) (available : list string) : option string :=
  available !! Z.to_nat (hash api_key `mod` Z.of_nat (length available)).

(** [get_proxy_for_key].  [use_hash] is
    [settings.PROXIES_USE_CONSISTENCY_HASH_BY_API_KEY] read at the call;
    [choice] is the index drawn by [random.choice]. *)
Definition get_proxy_for_key (use_hash : bool) (choice : nat)
    (pm : ProxyManager) (api_key : string) : option string * ProxyManager :=
  match proxies pm with
  | [] => (None, pm)
  | first :: _ =>
      let available_proxies := get_available_proxies pm in
      match available_proxies with
      | [] => (Some first, pm)
      | _ :: _ =>
          if use_hash then
            let rebind (b : gmap string string) :=
              match hash_slot api_key available_proxies with
              | Some proxy => (Some proxy, set_bindings pm (<[api_key := proxy]> b))
              | None => (None, set_bindings pm b)
              end in
            match key_proxy_bindings pm !! api_key with
            | Some bound_proxy =>
                if bool_decide (bound_proxy ∈ available_proxies)
                then (Some bound_proxy, pm)
                else rebind (delete api_key (key_proxy_bindings pm))
            | None => rebind (key_proxy_bindings pm)
            end
          else
            (available_proxies !! (choice mod length available_proxies)%nat, pm)
      end
  end.

End WithHash.

(** [record_proxy_failure] *)
Definition record_proxy_failure (pm : ProxyManager) (proxy : string)
  : bool * ProxyManager :=
  if negb (truthy proxy) then (false, pm)
  else
    match proxy_failure_counts pm !! proxy with
    | None => (false, pm)
    | Some c =>
        let current_count := c + 1 in
        let counts := <[proxy := current_count]> (proxy_failure_counts pm) in
        if bool_decide (current_count >= MAX_FAILURES pm) then
          (true,
           {| proxies := proxies pm;
              proxy_failure_counts := counts;
              disabled_proxies := disabled_proxies pm ∪ {[proxy]};
              key_proxy_bindings := unbind_proxy proxy (key_proxy_bindings pm);
              MAX_FAILURES := MAX_FAILURES pm;
              _last_check_time := _last_check_time pm |})
        else
          (false,
           {| proxies := proxies pm;
              proxy_failure_counts := counts;
              disabled_proxies := disabled_proxies pm;
              key_proxy_bindings := key_proxy_bindings pm;
              MAX_FAILURES := MAX_FAILURES pm;
              _last_check_time := _last_check_time pm |})
    end.

Definition set_counts (pm : ProxyManager) (c : gmap string Z) : ProxyManager :=
  {| proxies := proxies pm;
     proxy_failure_counts := c;
     disabled_proxies := disabled_proxies pm;
     key_proxy_bindings := key_proxy_bindings pm;
     MAX_FAILURES := MAX_FAILURES pm;
     _last_check_time := _last_check_time pm |}.

Definition set_disabled (pm : ProxyManager) (d : gset string) : ProxyManager :=
  {| proxies := proxies pm;
     proxy_failure_counts := proxy_failure_counts pm;
     disabled_proxies := d;
     key_proxy_bindings := key_proxy_bindings pm;
     MAX_FAILURES := MAX_FAILURES pm;
     _last_check_time := _last_check_time pm |}.

(** [record_proxy_success] *)
Definition record_proxy_success (pm : ProxyManager) (proxy : string) : ProxyManager :=
  if negb (truthy proxy) then pm
  else
    match proxy_failure_counts pm !! proxy with
    | None => pm
    | Some c =>
        if bool_decide (c > 0) then set_counts pm (<[proxy := 0]> (proxy_failure_counts pm))
        else pm
    end.

(** [reset_proxy] *)
Definition reset_proxy (pm : ProxyManager) (proxy : string) : ProxyManager :=
  let pm1 :=
    match proxy_failure_counts pm !! proxy with
    | Some _ => set_counts pm (<[proxy := 0]> (proxy_failure_counts pm))
    | None => pm
    end in
  set_disabled pm1 (disabled_proxies pm1 ∖ {[proxy]}).

(** [reset_all_proxies] *)
Definition reset_all_proxies (pm : ProxyManager) : ProxyManager :=
  {| proxies := proxies pm;
     proxy_failure_counts :=
       foldl (λ m p, <[p := 0]> m) (proxy_failure_counts pm) (proxies pm);
     disabled_proxies := ∅;
     key_proxy_bindings := ∅;
     MAX_FAILURES := MAX_FAILURES pm;
     _last_check_time := _last_check_time pm |}.

(** [disable_proxy] *)
Definition disable_proxy (pm : ProxyManager) (proxy : string) : ProxyManager :=
  if bool_decide (proxy ∈ proxies pm) then
    {| proxies := proxies pm;
       proxy_failure_counts := proxy_failure_counts pm;
       disabled_proxies := disabled_proxies pm ∪ {[proxy]};
       key_proxy_bindings := unbind_proxy proxy (key_proxy_bindings pm);
       MAX_FAILURES := MAX_FAILURES pm;
       _last_check_time := _last_check_time pm |}
  else pm.

(** [enable_proxy] *)
Definition enable_proxy (pm : ProxyManager) (proxy : string) : ProxyManager :=
  if bool_decide (proxy ∈ proxies pm) then
    {| proxies := proxies pm;
       proxy_failure_counts := <[proxy := 0]> (proxy_failure_counts pm);
       disabled_proxies := disabled_proxies pm ∖ {[proxy]};
       key_proxy_bindings := key_proxy_bindings pm;
       MAX_FAILURES := MAX_FAILURES pm;
       _last_check_time := _last_check_time pm |}
  else pm.

(** [update_last_check_time]; [now] is the value of [time.time()]. *)
Definition update_last_check_time (pm : ProxyManager) (proxy : string) (now : Z)
  : ProxyManager :=
  {| proxies := proxies pm;
     proxy_failure_counts := proxy_failure_counts pm;
     disabled_proxies := disabled_proxies pm;
     key_proxy_bindings := key_proxy_bindings pm;
     MAX_FAILURES := MAX_FAILURES pm;
     _last_check_time := <[proxy := now]> (_last_check_time pm) |}.

(** [unbind_key_from_proxy] *)
Definition unbind_key_from_proxy (pm : ProxyManager) (api_key : string) : ProxyManager :=
  match key_proxy_bindings pm !! api_key with
  | Some _ => set_bindings pm (delete api_key (key_proxy_bindings pm))
  | None => pm
  end.

(** [reload_proxy_manager] on an existing instance: reload the list, then
    refresh [MAX_FAILURES] from the settings. *)
Definition reload_proxy_manager (st : Settings) (new_proxies : list string)
    (pm : ProxyManager) : ProxyManager :=
  let pm1 := reload_proxies pm new_proxies in
  {| proxies := proxies pm1;
     proxy_failure_counts := proxy_failure_counts pm1;
     disabled_proxies := disabled_proxies pm1;
     key_proxy_bindings := key_proxy_bindings pm1;
     MAX_FAILURES := S_PROXY_MAX_FAILURES st;
     _last_check_time := _last_check_time pm1 |}.

(** The public operations of a [ProxyManager], as one request type. *)
Inductive op :=
| OpReloadProxies (new_proxies : list string)
| OpReloadManager (st : Settings) (new_proxies : list string)
| OpGetProxyForKey (use_hash : bool) (choice : nat) (api_key : string)
| OpRecordFailure (proxy : string)
| OpRecordSuccess (proxy : string)
| OpResetProxy (proxy : string)
| OpResetAll
| OpDisable (proxy : string)
| OpEnable (proxy : string)
| OpUpdateLastCheck (proxy : string) (now : Z)
| OpUnbindKey (api_key : string).

Definition step (hash : string → Z) (pm : ProxyManager) (o : op) : ProxyManager :=
  match o with
  | OpReloadProxies new_proxies => reload_proxies pm new_proxies
  | OpReloadManager st new_proxies => reload_proxy_manager st new_proxies pm
  | OpGetProxyForKey use_hash choice api_key =>
      (get_proxy_for_key hash use_hash choice pm api_key).2
  | OpRecordFailure proxy => (record_proxy_failure pm proxy).2
  | OpRecordSuccess proxy => record_proxy_success pm proxy
  | OpResetProxy proxy => reset_proxy pm proxy
  | OpResetAll => reset_all_proxies pm
  | OpDisable proxy => disable_proxy pm proxy
  | OpEnable proxy => enable_proxy pm proxy
  | OpUpdateLastCheck proxy now => update_last_check_time pm proxy now
  | OpUnbindKey api_key => unbind_key_from_proxy pm api_key
  end.

Definition run (hash : string → Z) (pm : ProxyManager) (os : list op) : ProxyManager :=
  foldl (step hash) pm os.

(** A proxy is available iff it is listed and not disabled. *)
Definition available (pm : ProxyManager) (proxy : string) : Prop :=
  proxy ∈ proxies pm ∧ proxy ∉ disabled_proxies pm.

(** No binding points to a disabled proxy. *)
Definition no_binding_to_disabled (pm : ProxyManager) : Prop :=
  ∀ api_key proxy,
    key_proxy_bindings pm !! api_key = Some proxy → proxy ∉ disabled_proxies pm.

(** [n] consecutive calls of [record_proxy_failure] on one proxy: the
    results in call order and the final state. *)
Fixpoint record_failures (n : nat) (pm : ProxyManager) (proxy : string)
  : list bool * ProxyManager :=
  match n with
  | O => ([], pm)
  | S n' =>
      let '(disabled, pm1) := record_proxy_failure pm proxy in
      let '(rest, pm2) := record_failures n' pm1 proxy in
      (disabled :: rest, pm2)
  end.

(** A call that took [proxy] from enabled to disabled. *)
Definition caused_disable (pm pm' : ProxyManager) (proxy : string) : Prop :=
  (proxy ∉ disabled_proxies pm) ∧ (proxy ∈ disabled_proxies pm').

(** The operations that drop the binding of [api_key] whatever the state of
    its proxy. *)
Definition clears_binding (api_key : string) (o : op) : Prop :=
  o = OpResetAll ∨ o = OpUnbindKey api_key.

(** One entry of the [proxies] dictionary of [get_proxy_status]. *)
Record ProxyInfo := mkProxyInfo {
  failure_count : Z;
  is_disabled : bool;
  bound_keys_count : Z;
  last_check_time : option Z
}.

(** The dictionary returned by [get_proxy_status]; its keys [total],
    [available], [disabled] and [proxies] carry the prefix [status_]. *)
Record ProxyStatus := mkProxyStatus {
  status_total : Z;
  status_available : Z;
  status_disabled : Z;
  status_proxies : gmap string ProxyInfo
}.

(** [get_proxy_status] *)
Definition get_proxy_status (pm : ProxyManager) : ProxyStatus :=
  {| status_total := Z.of_nat (length (proxies pm));
     status_available :=
       Z.of_nat (length (proxies pm)) - Z.of_nat (size (disabled_proxies pm));
     status_disabled := Z.of_nat (size (disabled_proxies pm));
     status_proxies :=
       foldl (λ m proxy,
                <[proxy :=
                    {| failure_count := default 0 (proxy_failure_counts pm !! proxy);
                       is_disabled := bool_decide (proxy ∈ disabled_proxies pm);
                       bound_keys_count :=
                         Z.of_nat (size (filter (λ kv, kv.2 = proxy) (key_proxy_bindings pm)));
                       last_check_time := _last_check_time pm !! proxy |}]> m)
             ∅ (proxies pm) |}.

(** The result loop of [check_proxies] (scheduled_tasks.py).  A result is
    the pair [(result.proxy, result.is_available)]; [clock i] is the reading
    of [time.time()] while the [i]-th result is processed.  The two counters
    are [available_count] and [disabled_count]. *)
Fixpoint process_check_results (clock : nat → Z) (i : nat) (results : list (string * bool))
    (pm : ProxyManager) (available_count disabled_count : Z) : ProxyManager * Z * Z :=
  match results with
  | [] => (pm, available_count, disabled_count)
  | (proxy, is_available) :: rest =>
      let pm1 := update_last_check_time pm proxy (clock i) in
      if is_available then
        process_check_results clock (S i) rest (reset_proxy pm1 proxy)
          (available_count + 1) disabled_count
      else
        let '(was_disabled, pm2) := record_proxy_failure pm1 proxy in
        process_check_results clock (S i) rest pm2 available_count
          (if was_disabled then disabled_count + 1 else disabled_count)
  end.

(** [check_proxies]: nothing happens unless
    [settings.PROXY_AUTO_CHECK_ENABLED] is set and [settings.PROXIES] is not
    empty; [results] is what [check_multiple_proxies] returns for
    [settings.PROXIES]. *)
Definition check_proxies (auto_check_enabled : bool) (PROXIES : list string)
    (clock : nat → Z) (results : list (string * bool)) (pm : ProxyManager)
  : ProxyManager * Z * Z :=
  if negb auto_check_enabled then (pm, 0, 0)
  else
    match PROXIES with
    | [] => (pm, 0, 0)
    | _ :: _ => process_check_results clock 0 results pm 0 0
    end.

(** The bookkeeping of a manager agrees with its proxy list: only listed
    proxies are disabled, exactly the listed proxies have a failure count,
    and every binding points to a listed proxy. *)
Definition consistent (pm : ProxyManager) : Prop :=
  (∀ proxy, proxy ∈ disabled_proxies pm → proxy ∈ proxies pm)
  ∧ (∀ proxy, is_Some (proxy_failure_counts pm !! proxy) ↔ proxy ∈ proxies pm)
  ∧ (∀ api_key proxy, key_proxy_bindings pm !! api_key = Some proxy → proxy ∈ proxies pm).


End Proxy.

(** * ProviderKeyManager and the key selection of [get_models] *)
Module Provider.

Record ProviderConfig := mkProviderConfig {
  name : string;
  path : string;
  base_url : string;
  api_keys : list string;
  model_request_key : string;
  custom_headers : gmap string string;
  timeout : Z;
  max_failures : Z;
  max_retries : Z;
  test_model : string;
  enabled : bool
}.

(** The two dictionaries of a [ProviderKeyManager].  Their insertion order is
    only observed by [get_provider_by_path] and the listing functions, which
    are not modelled. *)
Record ProviderKeyManager := mkProviderKeyManager {
  _managers : gmap string Key.KeyManager;
  _configs : gmap string ProviderConfig
}.

Definition empty : ProviderKeyManager :=
  {| _managers := ∅; _configs := ∅ |}.

(** [manager = KeyManager(config.api_keys); manager.MAX_FAILURES = config.max_failures] *)
Definition new_manager (st : Settings) (config : ProviderConfig) : Key.KeyManager :=
  Key.set_max_failures (Key.init st (api_keys config)) (max_failures config).

(** [register_provider] *)
Definition register_provider (st : Settings) (pkm : ProviderKeyManager)
    (config : ProviderConfig) : bool * ProviderKeyManager :=
  if negb (enabled config) then (false, pkm)
  else
    match api_keys config with
    | [] => (false, pkm)
    | _ :: _ =>
        (true,
         {| _managers := <[name config := new_manager st config]> (_managers pkm);
            _configs := <[name config := config]> (_configs pkm) |})
    end.

(** [get_manager] *)
Definition get_manager (pkm : ProviderKeyManager) (n : string) : option Key.KeyManager :=
  _managers pkm !! n.

(** The restore loop of [reload_providers]:
    [for key in manager.api_keys: if key in old_counts: counts[key] = old_counts[key]]. *)
Definition restore_counts (old_counts : gmap string Z) (manager : Key.KeyManager)
  : Key.KeyManager :=
  Key.set_counts manager
    (foldl (λ c key,
              match old_counts !! key with
              | Some v => <[key := v]> c
              | None => c
              end)
           (Key.key_failure_counts manager) (Key.api_keys manager)).

(** The manager built for one configuration by [reload_providers]: a fresh
    one, with the counts of the provider's previous manager restored. *)
Definition reloaded_manager (st : Settings)
    (preserved_counts : gmap string (gmap string Z)) (config : ProviderConfig)
  : Key.KeyManager :=
  let manager := new_manager st config in
  match preserved_counts !! name config with
  | Some old_counts => restore_counts old_counts manager
  | None => manager
  end.

(** One iteration of the registration loop of [reload_providers]. *)
Definition reload_one (st : Settings) (preserved_counts : gmap string (gmap string Z))
    (pkm : ProviderKeyManager) (config : ProviderConfig) : ProviderKeyManager :=
  if negb (enabled config) then pkm
  else
    match api_keys config with
    | [] => pkm
    | _ :: _ =>
        {| _managers :=
             <[name config := reloaded_manager st preserved_counts config]> (_managers pkm);
           _configs := <[name config := config]> (_configs pkm) |}
    end.

(** A configuration that [register_provider] and [reload_providers] accept. *)
Definition registrable (config : ProviderConfig) : Prop :=
  enabled config = true ∧ api_keys config ≠ [].

(** The test of [registrable], as the code evaluates it. *)
Definition is_registrable (config : ProviderConfig) : bool :=
  enabled config && bool_decide (api_keys config ≠ []).

(** [reload_providers] *)
Definition reload_providers (st : Settings) (pkm : ProviderKeyManager)
    (configs : list ProviderConfig) : ProviderKeyManager :=
  let preserved_counts := Key.key_failure_counts <$> _managers pkm in
  foldl (reload_one st preserved_counts) empty configs.

(** [clear_all] *)
Definition clear_all (pkm : ProviderKeyManager) : ProviderKeyManager := empty.

(** [unregister_provider]: the state it leaves, and its result or the
    [KeyError] of [del self._configs[name]]. *)
Definition unregister_provider (pkm : ProviderKeyManager) (n : string)
  : ProviderKeyManager * (PyException + bool) :=
  match _managers pkm !! n with
  | Some _ =>
      let pkm1 := {| _managers := delete n (_managers pkm); _configs := _configs pkm |} in
      match _configs pkm !! n with
      | Some _ =>
          ({| _managers := _managers pkm1; _configs := delete n (_configs pkm1) |}, inr true)
      | None =>
          (pkm1, inl {| exc_args := [PStr n]; exc_str := ("'" +:+ n +:+ "'")%string |})
      end
  | None => (pkm, inr false)
  end.

(** [get_config] *)
Definition get_config (pkm : ProviderKeyManager) (n : string) : option ProviderConfig :=
  _configs pkm !! n.

(** The operations on a [ProviderKeyManager], as one request type;
    [OpManager n o] is a [KeyManager] operation on the manager that
    [get_manager(n)] returns, which changes that object in place. *)
Inductive op :=
| OpRegister (config : ProviderConfig)
| OpUnregister (n : string)
| OpReload (configs : list ProviderConfig)
| OpClearAll
| OpManager (n : string) (o : Key.op).

Definition step (st : Settings) (pkm : ProviderKeyManager) (o : op) : ProviderKeyManager :=
  match o with
  | OpRegister config => (register_provider st pkm config).2
  | OpUnregister n => (unregister_provider pkm n).1
  | OpReload configs => reload_providers st pkm configs
  | OpClearAll => clear_all pkm
  | OpManager n o =>
      match _managers pkm !! n with
      | Some km =>
          {| _managers := <[n := Key.step st km o]> (_managers pkm);
             _configs := _configs pkm |}
      | None => pkm
      end
  end.

Definition run (st : Settings) (pkm : ProviderKeyManager) (os : list op)
  : ProviderKeyManager :=
  foldl (step st) pkm os.

(** The two dictionaries agree: a provider has a manager exactly when it has
    a configuration, and then the configuration bears its name, is enabled
    and has keys, and the manager runs over these keys with the provider's
    threshold. *)
Definition well_formed (pkm : ProviderKeyManager) : Prop :=
  ∀ n,
    match _managers pkm !! n, _configs pkm !! n with
    | Some km, Some config =>
        name config = n ∧ registrable config
        ∧ Key.api_keys km = api_keys config
        ∧ Key.MAX_FAILURES km = max_failures config
    | None, None => True
    | _, _ => False
    end.

(** The inheritance step of [get_key_manager_instance] (key_manager.py), run
    on a fresh singleton when [_preserved_failure_counts] is a non-empty
    dictionary. *)
Definition inherit_failure_counts (preserved : gmap string Z) (km : Key.KeyManager)
  : Key.KeyManager :=
  if bool_decide (preserved = ∅) then km
  else
    Key.set_counts km
      (map_fold (λ key count cur,
                   match cur !! key with
                   | Some _ => <[key := count]> cur
                   | None => cur
                   end)
                (Key.zero_counts (Key.api_keys km)) preserved).

(** The key with which [ProviderService.get_models] calls the upstream, or
    the exception it raises before any request.  [api_key] is the optional
    argument ([None] by default). *)
Definition get_models_key (config : ProviderConfig) (km : Key.KeyManager)
    (api_key : option string) : PyException + string :=
  let api_key1 :=
    if truthy (default ""%string api_key) then default ""%string api_key
    else if truthy (model_request_key config) then model_request_key config
    else Key.get_first_valid_key km in
  if truthy api_key1 then inr api_key1
  else inl {| exc_args :=
                [PInt 500;
                 PStr ("No valid API key available for provider '"
                       +:+ name config +:+ "'")];
              exc_str := ""%string |}.

End Provider.

(** * The KeyManager singleton

    The module-level state of [key_manager.py] and the two functions that
    create and discard the shared instance. *)
Module Singleton.

Record State := mkState {
  _singleton_instance : option Key.KeyManager;
  _preserved_failure_counts : option (gmap string Z);
  _preserved_old_api_keys_for_reset : option (list string);
  _preserved_next_key_in_cycle : option string
}.

(** The state at import time: the four globals are [None]. *)
Definition initial : State :=
  {| _singleton_instance := None;
     _preserved_failure_counts := None;
     _preserved_old_api_keys_for_reset := None;
     _preserved_next_key_in_cycle := None |}.

(** [list.index]: the position of the first occurrence; [None] is the
    [ValueError] raised when there is none. *)
Fixpoint index (l : list string) (x : string) : option nat :=
  match l with
  | [] => None
  | y :: l' => if decide (y = x) then Some O else S <$> index l' x
  end.

(** [reset_key_manager_instance] *)
Definition reset_key_manager_instance (s : State) : State :=
  match _singleton_instance s with
  | Some km =>
      {| _singleton_instance := None;
         _preserved_failure_counts := Some (Key.key_failure_counts km);
         _preserved_old_api_keys_for_reset := Some (Key.api_keys km);
         _preserved_next_key_in_cycle :=
           match Key.api_keys km with
           | [] => None
           | _ :: _ => fst <$> Key.get_next_key km
           end |}
  | None => s
  end.

(** The search of [get_key_manager_instance] for the key at which the new
    cycle starts: the candidates are the keys of the old pool in ring order
    from the first occurrence of the preserved next key; the first one that
    the new pool has is taken.  [None] when the preserved key is not in the
    old pool ([ValueError]) or no candidate is in the new pool. *)
Definition start_key_for_new_cycle (old_keys : list string) (next_key : string)
    (new_keys : list string) : option string :=
  match index old_keys next_key with
  | Some start_idx_in_old =>
      List.find (λ key_candidate, bool_decide (key_candidate ∈ new_keys))
        (omap (λ i, old_keys !! ((start_idx_in_old + i) mod length old_keys)%nat)
              (seq 0 (length old_keys)))
  | None => None
  end.

(** [for _ in range(target_idx): next(key_cycle)]; a draw that raises ends
    the loop with the cycle as it is. *)
Definition advance (target_idx : nat) (km : Key.KeyManager) : Key.KeyManager :=
  Nat.iter target_idx (λ km, from_option snd km (Key.get_next_key km)) km.

(** [get_key_manager_instance(api_keys)]; the argument is [None] by
    default.  The result is the instance or the [ValueError] raised. *)
Definition get_key_manager_instance (st : Settings) (s : State)
    (api_keys : option (list string)) : State * (PyException + Key.KeyManager) :=
  match _singleton_instance s with
  | Some km => (s, inr km)
  | None =>
      match api_keys with
      | None =>
          let msg := "API keys are required to initialize the KeyManager instance."%string in
          (s, inl {| exc_args := [PStr msg]; exc_str := msg |})
      | Some keys =>
          let km0 := Key.init st keys in
          let km1 :=
            match _preserved_failure_counts s with
            | Some preserved => Provider.inherit_failure_counts preserved km0
            | None => km0
            end in
          let start_key :=
            match _preserved_old_api_keys_for_reset s, _preserved_next_key_in_cycle s with
            | Some (old_key :: old_keys), Some next_key =>
                if truthy next_key && bool_decide (keys ≠ [])
                then start_key_for_new_cycle (old_key :: old_keys) next_key keys
                else None
            | _, _ => None
            end in
          let km2 :=
            match start_key with
            | Some key =>
                if truthy key && bool_decide (keys ≠ [])
                then match index keys key with
                     | Some target_idx => advance target_idx km1
                     | None => km1
                     end
                else km1
            | None => km1
            end in
          ({| _singleton_instance := Some km2;
              _preserved_failure_counts := None;
              _preserved_old_api_keys_for_reset := None;
              _preserved_next_key_in_cycle := None |}, inr km2)
      end
  end.

End Singleton.

(** * ProviderManager and the resolution of a provider by the router

    [app/service/provider/provider_manager.py] and [get_provider_service] of
    [app/router/provider_routes.py]. *)
Module Manager.

(** The settings read by [provider_manager.py].  [providers_config] is the
    list that [_parse_providers_config] returns for
    [settings.PROVIDERS_CONFIG]; [MAX_FAILURES] and [MAX_RETRIES] are those of
    [settings]. *)
Record Env := mkEnv {
  settings : Settings;
  DEFAULT_PROVIDER : string;
  providers_config : list Provider.ProviderConfig;
  API_KEYS : list string;
  BASE_URL : string;
  CUSTOM_HEADERS : gmap string string;
  TIME_OUT : Z
}.

(** A [ProviderService].  Its [key_manager] is the object that the
    [ProviderKeyManager] holds under [config.name]: a service is only ever
    stored in [_services] right after that object was fetched with
    [get_manager(config.name)], and whenever the object is replaced
    ([register_provider], [reload_providers], [clear_all]) the service is
    replaced or dropped in the same call. *)
Record ProviderService := mkProviderService {
  config : Provider.ProviderConfig
}.

Record ProviderManager := mkProviderManager {
  _services : list (string * ProviderService);
  _key_manager : option Provider.ProviderKeyManager;
  _default_provider : string;
  _initialized : bool
}.

(** [ProviderManager.__init__] *)
Definition init : ProviderManager :=
  {| _services := []; _key_manager := None;
     _default_provider := "default"; _initialized := false |}.

(** A Python [dict] whose order matters, as the list of its items in
    insertion order: [d.get(k)] and [d[k] = v], which keeps the position of a
    key that is already there. *)
Definition dict_get {V} (d : list (string * V)) (k : string) : option V :=
  snd <$> List.find (λ kv, bool_decide (kv.1 = k)) d.

Definition dict_set {V} (d : list (string * V)) (k : string) (v : V) : list (string * V) :=
  if bool_decide (k ∈ d.*1)
  then (λ kv, if bool_decide (kv.1 = k) then (k, v) else kv) <$> d
  else d ++ [(k, v)].

Definition set_services (m : ProviderManager) (d : list (string * ProviderService))
  : ProviderManager :=
  {| _services := d; _key_manager := _key_manager m;
     _default_provider := _default_provider m; _initialized := _initialized m |}.

Definition set_key_manager (m : ProviderManager) (pkm : option Provider.ProviderKeyManager)
  : ProviderManager :=
  {| _services := _services m; _key_manager := pkm;
     _default_provider := _default_provider m; _initialized := _initialized m |}.

Definition set_default_provider (m : ProviderManager) (n : string) : ProviderManager :=
  {| _services := _services m; _key_manager := _key_manager m;
     _default_provider := n; _initialized := _initialized m |}.

Definition set_initialized (m : ProviderManager) (b : bool) : ProviderManager :=
  {| _services := _services m; _key_manager := _key_manager m;
     _default_provider := _default_provider m; _initialized := b |}.

(** The [AttributeError] of a method call on [None]. *)
Definition attribute_error (attr : string) : PyException :=
  let msg := ("'NoneType' object has no attribute '" +:+ attr +:+ "'")%string in
  {| exc_args := [PStr msg]; exc_str := msg |}.

Section WithEnv.

Variable env : Env.

(** [_register_provider]: the state it leaves, and its result or the
    exception it raises. *)
Definition _register_provider (m : ProviderManager) (cfg : Provider.ProviderConfig)
  : ProviderManager * (PyException + bool) :=
  if negb (Provider.enabled cfg) then (m, inr false)
  else
    match Provider.api_keys cfg with
    | [] => (m, inr false)
    | _ :: _ =>
        match _key_manager m with
        | None => (m, inl (attribute_error "register_provider"))
        | Some pkm =>
            let pkm1 := (Provider.register_provider (settings env) pkm cfg).2 in
            let m1 := set_key_manager m (Some pkm1) in
            match Provider.get_manager pkm1 (Provider.name cfg) with
            | None => (m1, inr false)
            | Some _ =>
                (set_services m1
                   (dict_set (_services m1) (Provider.name cfg) {| config := cfg |}),
                 inr true)
            end
        end
    end.

(** [for config in providers_config: await self._register_provider(config)] *)
Fixpoint register_all (m : ProviderManager) (configs : list Provider.ProviderConfig)
  : ProviderManager * option PyException :=
  match configs with
  | [] => (m, None)
  | cfg :: rest =>
      match _register_provider m cfg with
      | (m1, inl e) => (m1, Some e)
      | (m1, inr _) => register_all m1 rest
      end
  end.

(** The configuration built by [_create_default_provider]. *)
Definition default_config : Provider.ProviderConfig :=
  {| Provider.name := "default";
     Provider.path := "";
     Provider.base_url := BASE_URL env;
     Provider.api_keys := API_KEYS env;
     Provider.model_request_key := "";
     Provider.custom_headers := CUSTOM_HEADERS env;
     Provider.timeout := TIME_OUT env;
     Provider.max_failures := S_MAX_FAILURES (settings env);
     Provider.max_retries := S_MAX_RETRIES (settings env);
     Provider.test_model := "";
     Provider.enabled := true |}.

(** [_create_default_provider] *)
Definition _create_default_provider (m : ProviderManager)
  : ProviderManager * option PyException :=
  match API_KEYS env with
  | [] => (m, None)
  | _ :: _ =>
      match _register_provider m default_config with
      | (m1, inl e) => (m1, Some e)
      | (m1, inr _) => (set_default_provider m1 "default", None)
      end
  end.

(** [if self._default_provider == "default" and self._services: ...]: the
    first registered provider becomes the default one. *)
Definition pick_first_provider (m : ProviderManager) : ProviderManager :=
  if bool_decide (_default_provider m = "default"%string) then
    match _services m with
    | (first_provider, _) :: _ => set_default_provider m first_provider
    | [] => m
    end
  else m.

(** [initialize]; [pkm] is the instance that [get_provider_key_manager]
    returns. *)
Definition initialize (pkm : Provider.ProviderKeyManager) (m : ProviderManager)
  : ProviderManager * option PyException :=
  if _initialized m then (m, None)
  else
    let m1 := set_default_provider (set_key_manager m (Some pkm)) (DEFAULT_PROVIDER env) in
    let '(m2, raised) :=
      match providers_config env with
      | [] => _create_default_provider m1
      | _ :: _ =>
          match register_all m1 (providers_config env) with
          | (m', Some e) => (m', Some e)
          | (m', None) => (pick_first_provider m', None)
          end
      end in
    match raised with
    | Some e => (m2, Some e)
    | None => (set_initialized m2 true, None)
    end.

(** The service loop of [reload_config]. *)
Fixpoint recreate_services (m : ProviderManager) (configs : list Provider.ProviderConfig)
  : ProviderManager * option PyException :=
  match configs with
  | [] => (m, None)
  | cfg :: rest =>
      if negb (Provider.enabled cfg) then recreate_services m rest
      else
        match _key_manager m with
        | None => (m, Some (attribute_error "get_manager"))
        | Some pkm =>
            match Provider.get_manager pkm (Provider.name cfg) with
            | Some _ =>
                recreate_services
                  (set_services m
                     (dict_set (_services m) (Provider.name cfg) {| config := cfg |}))
                  rest
            | None => recreate_services m rest
            end
        end
  end.

(** [reload_config] *)
Definition reload_config (m : ProviderManager) : ProviderManager * option PyException :=
  let m1 := set_default_provider m (DEFAULT_PROVIDER env) in
  match providers_config env with
  | [] =>
      match dict_get (_services m1) "default" with
      | Some default_service =>
          if bool_decide (Provider.base_url (config default_service) ≠ BASE_URL env)
             || bool_decide (Provider.api_keys (config default_service) ≠ API_KEYS env)
          then
            _create_default_provider
              (set_key_manager (set_services m1 [])
                 (Provider.clear_all <$> _key_manager m1))
          else (m1, None)
      | None => _create_default_provider m1
      end
  | _ :: _ =>
      let m2 :=
        set_key_manager m1
          ((λ pkm, Provider.reload_providers (settings env) pkm (providers_config env))
             <$> _key_manager m1) in
      match recreate_services (set_services m2 []) (providers_config env) with
      | (m', Some e) => (m', Some e)
      | (m', None) => (pick_first_provider m', None)
      end
  end.

(** The items that registering [configs] one after another adds to an empty
    [_services], when no two of them bear the same name. *)
Definition services_of (configs : list Provider.ProviderConfig)
  : list (string * ProviderService) :=
  (λ cfg, (Provider.name cfg, {| config := cfg |}))
    <$> List.filter Provider.is_registrable configs.

(** [get_service] *)
Definition get_service (m : ProviderManager) (n : string) : option ProviderService :=
  dict_get (_services m) n.

(** [get_default_service] *)
Definition get_default_service (m : ProviderManager) : option ProviderService :=
  get_service m (_default_provider m).

(** [get_service_by_path] *)
Definition get_service_by_path (m : ProviderManager) (p : string) : option ProviderService :=
  snd <$> List.find (λ kv, bool_decide (Provider.path (config kv.2) = p)) (_services m).

(** What [get_provider_service] comes to: the service, an [HTTPException],
    or the exception that [initialize] raised. *)
Inductive Resolution :=
| Service (service : ProviderService)
| HTTPException (status_code : Z) (detail : string)
| InitializeRaised (e : PyException).

(** [get_provider_service] (provider_routes.py); [provider] is the optional
    path parameter. *)
Definition get_provider_service (pkm : Provider.ProviderKeyManager) (m : ProviderManager)
    (provider : option string) : ProviderManager * Resolution :=
  let '(m1, raised) := if _initialized m then (m, None) else initialize pkm m in
  match raised with
  | Some e => (m1, InitializeRaised e)
  | None =>
      if negb (truthy (default ""%string provider)) then
        match get_default_service m1 with
        | Some service => (m1, Service service)
        | None => (m1, HTTPException 503 "Default provider not available")
        end
      else
        let p := default ""%string provider in
        match get_service m1 p with
        | Some service => (m1, Service service)
        | None =>
            match get_service_by_path m1 p with
            | Some service => (m1, Service service)
            | None => (m1, HTTPException 404 ("Provider '" +:+ p +:+ "' not found"))
            end
        end
  end.

End WithEnv.

End Manager.

(** * The streaming retry loop of [ProviderService] *)
Module Stream.

(** What the upstream does with one POST: the connection fails, or a
    response with a status code arrives.  A 200 response delivers [lines]
    through [aiter_lines] and then either ends or breaks with an exception. *)
Inductive Upstream :=
| ConnectionFails (e : PyException)
| Responds (status_code : Z) (body : string) (lines : list string)
           (broken : option PyException).

(** What the generator and its collaborators can observe. *)
Inductive Event :=
| Request (retries : Z) (api_key : string)
| Yield (chunk : string)
| ErrorLog (api_key : string) (error_code : PyVal) (error_log : PyVal)
| RequestLog (api_key : string) (is_success : bool) (status_code : PyVal).

Inductive Outcome :=
| Completed
| Raised (e : PyException)
| Stuck.

Record Run := mkRun {
  events : list Event;
  outcome : Outcome;
  final_km : Key.KeyManager
}.

(** The chunks one attempt yields, [line + LF] for every non-empty line,
    and the exception that ends it, if any. *)
Definition attempt (u : Upstream) : list string * option PyException :=
  match u with
  | ConnectionFails e => ([], Some e)
  | Responds status_code body lines broken =>
      if bool_decide (status_code ≠ 200) then ([], Some (http_error status_code body))
      else ((λ line, line +:+ LF) <$> List.filter truthy lines, broken)
  end.

Definition prepend (evs : list Event) (r : Run) : Run :=
  {| events := evs ++ events r; outcome := outcome r; final_km := final_km r |}.

Section Loop.

Variable st : Settings.
Variable config : Provider.ProviderConfig.
(** The upstream's answer to the attempt made after [retries] failures with
    a given key. *)
Variable upstream : Z → string → Upstream.

(** [while retries < max_retries: ...] of [_handle_stream_completion].  Every
    iteration that does not leave the loop increments [retries], so
    [max_retries] iterations suffice; [fuel] counts them. *)
Fixpoint stream_loop (fuel : nat) (retries : Z) (final_api_key : string)
    (km : Key.KeyManager) : Run :=
  if bool_decide (retries < Provider.max_retries config) then
    match fuel with
    | O => {| events := []; outcome := Stuck; final_km := km |}
    | S fuel' =>
        let current_attempt_key := final_api_key in
        let '(chunks, failure) := attempt (upstream retries current_attempt_key) in
        let sent := Request retries current_attempt_key :: (Yield <$> chunks) in
        match failure with
        | None =>
            {| events := sent ++ [RequestLog current_attempt_key true (PInt 200)];
               outcome := Completed; final_km := km |}
        | Some e =>
            let retries' := retries + 1 in
            let status_code := error_code_of e in
            let logged :=
              sent ++ [ErrorLog current_attempt_key status_code (error_msg_of e)] in
            let request_log := RequestLog current_attempt_key false status_code in
            match Key.handle_api_failure st km current_attempt_key retries' with
            | None =>
                {| events := logged ++ [request_log]; outcome := Stuck; final_km := km |}
            | Some (new_api_key, km') =>
                if negb (truthy new_api_key) then
                  {| events := logged ++ [request_log];
                     outcome := Raised e; final_km := km' |}
                else
                  let final_api_key' :=
                    if bool_decide (new_api_key ≠ current_attempt_key)
                    then new_api_key else final_api_key in
                  if bool_decide (retries' >= Provider.max_retries config) then
                    {| events := logged ++ [request_log];
                       outcome := Raised e; final_km := km' |}
                  else
                    prepend (logged ++ [request_log])
                            (stream_loop fuel' retries' final_api_key' km')
            end
        end
    end
  else {| events := []; outcome := Completed; final_km := km |}.

(** [_handle_stream_completion], run to the end by a consumer that never
    closes the generator. *)
Definition _handle_stream_completion (km : Key.KeyManager) (api_key : string) : Run :=
  stream_loop (Z.to_nat (Provider.max_retries config)) 0 api_key km.

End Loop.

(** The chunks delivered to the consumer, in order. *)
Definition yielded (evs : list Event) : list string :=
  omap (λ ev, match ev with Yield c => Some c | _ => None end) evs.

(** The upstream requests issued, in order. *)
Definition requests (evs : list Event) : list (Z * string) :=
  omap (λ ev, match ev with Request r k => Some (r, k) | _ => None end) evs.

(** The chunks the attempt answering request [(retries, key)] contributes. *)
Definition chunks_of (upstream : Z → string → Upstream) (rq : Z * string) : list string :=
  (attempt (upstream rq.1 rq.2)).1.

(** The attempt answering request [(retries, key)] ended with an exception. *)
Definition failed (upstream : Z → string → Upstream) (rq : Z * string) : Prop :=
  is_Some (attempt (upstream rq.1 rq.2)).2.

(** What one pass through the loop body adds to the trace when the attempt
    fails: the request, its chunks, the error log and the request log. *)
Definition failed_attempt_events (retries : Z) (key : string) (cs : list string)
    (e : PyException) : list Event :=
  (Request retries key :: (Yield <$> cs))
    ++ [ErrorLog key (error_code_of e) (error_msg_of e)]
    ++ [RequestLog key false (error_code_of e)].

(** The request-log records written ([add_request_log]), in order: the key,
    the success flag and the status code of each. *)
Definition request_logs (evs : list Event) : list (string * bool * PyVal) :=
  omap (λ ev, match ev with
              | RequestLog k ok code => Some (k, ok, code)
              | _ => None
              end) evs.

(** The error-log records written ([add_error_log]), in order: the key, the
    error code and the message of each. *)
Definition error_logs (evs : list Event) : list (string * PyVal * PyVal) :=
  omap (λ ev, match ev with
              | ErrorLog k code msg => Some (k, code, msg)
              | _ => None
              end) evs.

(** The exception that ends the attempt answering request [(retries, key)],
    if any. *)
Definition failure_of (upstream : Z → string → Upstream) (rq : Z * string)
  : option PyException :=
  (attempt (upstream rq.1 rq.2)).2.

(** The keys of the requests whose attempt failed, in order. *)
Definition failed_keys (upstream : Z → string → Upstream) (rqs : list (Z * string))
  : list string :=
  (List.filter (λ rq, bool_decide (is_Some (failure_of upstream rq))) rqs).*2.

(** What the upstream does with the POST of a non-stream call: the
    connection fails, or a response arrives, whose body [response.json()]
    decodes or fails to decode. *)
Inductive NormalUpstream :=
| NormalConnectionFails (e : PyException)
| NormalResponds (status_code : Z) (text : string) (json : PyException + string).

(** The [try] block of [_handle_normal_completion]. *)
Definition normal_attempt (u : NormalUpstream) : PyException + string :=
  match u with
  | NormalConnectionFails e => inl e
  | NormalResponds status_code text json =>
      if bool_decide (status_code ≠ 200) then inl (http_error status_code text)
      else json
  end.

(** [_handle_normal_completion]: what it logs, and the value it returns or
    the exception it raises. *)
Definition _handle_normal_completion (u : NormalUpstream) (api_key : string)
  : list Event * (PyException + string) :=
  match normal_attempt u with
  | inr body =>
      ([Request 0 api_key; RequestLog api_key true (PInt 200)], inr body)
  | inl e =>
      ([Request 0 api_key;
        ErrorLog api_key (error_code_of e) (error_msg_of e);
        RequestLog api_key false (error_code_of e)], inl e)
  end.

(** What a call of [create_chat_completion] comes to. *)
Inductive Completion :=
| NoKey (e : PyException) (km : Key.KeyManager)
| StreamGenerator (r : Run)
| Normal (evs : list Event) (result : PyException + string) (km : Key.KeyManager)
| KeyCycleExhausted.

(** [ProviderService.create_chat_completion].  [api_key] is the optional
    argument; [stream] is [request.stream].  For a stream request the result
    is the generator, given by the run it makes once consumed. *)
Definition create_chat_completion (st : Settings) (config : Provider.ProviderConfig)
    (upstream : Z → string → Upstream) (normal_upstream : string → NormalUpstream)
    (km : Key.KeyManager) (api_key : option string) (stream : bool) : Completion :=
  let picked :=
    if truthy (default ""%string api_key) then Some (default ""%string api_key, km)
    else Key.get_next_working_key km in
  match picked with
  | None => KeyCycleExhausted
  | Some (key, km1) =>
      if negb (truthy key) then
        NoKey {| exc_args :=
                   [PInt 500;
                    PStr ("No valid API key available for provider '"
                          +:+ Provider.name config +:+ "'")];
                 exc_str := ""%string |} km1
      else if stream then
        StreamGenerator (_handle_stream_completion st config upstream km1 key)
      else
        let '(evs, result) := _handle_normal_completion (normal_upstream key) key in
        Normal evs result km1
  end.

(** ** The same loop in [OpenAICompatiableService]

    [openai_compatiable_service.py] runs the loop over the lines that
    [OpenaiApiClient.stream_generate_content] yields: it forwards the lines
    that start with [data:], followed by a blank line; its budget is
    [settings.MAX_RETRIES]; it may have no key manager, in which case a
    failure ends the loop; and its request log names [final_api_key]. *)

Definition compat_attempt (u : Upstream) : list string * option PyException :=
  match u with
  | ConnectionFails e => ([], Some e)
  | Responds status_code body lines broken =>
      if bool_decide (status_code ≠ 200) then ([], Some (http_error status_code body))
      else ((λ line, line +:+ LF +:+ LF) <$> List.filter (startswith "data:") lines,
            broken)
  end.

Record CompatRun := mkCompatRun {
  compat_events : list Event;
  compat_outcome : Outcome;
  compat_key_manager : option Key.KeyManager
}.

Definition compat_prepend (evs : list Event) (r : CompatRun) : CompatRun :=
  {| compat_events := evs ++ compat_events r;
     compat_outcome := compat_outcome r;
     compat_key_manager := compat_key_manager r |}.

Section CompatLoop.

Variable st : Settings.
Variable upstream : Z → string → Upstream.

Fixpoint compat_stream_loop (fuel : nat) (retries : Z) (final_api_key : string)
    (key_manager : option Key.KeyManager) : CompatRun :=
  if bool_decide (retries < S_MAX_RETRIES st) then
    match fuel with
    | O => {| compat_events := []; compat_outcome := Stuck;
              compat_key_manager := key_manager |}
    | S fuel' =>
        let current_attempt_key := final_api_key in
        let '(chunks, failure) :=
          compat_attempt (upstream retries current_attempt_key) in
        let sent := Request retries current_attempt_key :: (Yield <$> chunks) in
        match failure with
        | None =>
            {| compat_events := sent ++ [RequestLog final_api_key true (PInt 200)];
               compat_outcome := Completed; compat_key_manager := key_manager |}
        | Some e =>
            let retries' := retries + 1 in
            let status_code := error_code_of e in
            let logged :=
              sent ++ [ErrorLog current_attempt_key status_code (error_msg_of e)] in
            match key_manager with
            | None =>
                (* break *)
                {| compat_events := logged ++ [RequestLog final_api_key false status_code];
                   compat_outcome := Completed; compat_key_manager := None |}
            | Some km =>
                match Key.handle_api_failure st km current_attempt_key retries' with
                | None =>
                    {| compat_events :=
                         logged ++ [RequestLog final_api_key false status_code];
                       compat_outcome := Stuck; compat_key_manager := Some km |}
                | Some (new_api_key, km') =>
                    if truthy new_api_key then
                      let request_log := RequestLog new_api_key false status_code in
                      if bool_decide (retries' >= S_MAX_RETRIES st) then
                        {| compat_events := logged ++ [request_log];
                           compat_outcome := Raised e; compat_key_manager := Some km' |}
                      else
                        compat_prepend (logged ++ [request_log])
                          (compat_stream_loop fuel' retries' new_api_key (Some km'))
                    else
                      {| compat_events :=
                           logged ++ [RequestLog final_api_key false status_code];
                         compat_outcome := Raised e; compat_key_manager := Some km' |}
                end
            end
        end
    end
  else {| compat_events := []; compat_outcome := Completed;
          compat_key_manager := key_manager |}.

(** [OpenAICompatiableService._handle_stream_completion] *)
Definition compat_handle_stream_completion (key_manager : option Key.KeyManager)
    (api_key : string) : CompatRun :=
  compat_stream_loop (Z.to_nat (S_MAX_RETRIES st)) 0 api_key key_manager.

End CompatLoop.

Definition compat_chunks_of (upstream : Z → string → Upstream) (rq : Z * string)
  : list string :=
  (compat_attempt (upstream rq.1 rq.2)).1.

End Stream.

(** * The common stream handler of the router *)
Module Router.

(** An async generator as its consumer sees it: the chunks it yields, then
    how it ends. *)
Record Generator := mkGenerator {
  chunks : list string;
  ending : Stream.Outcome
}.

(** What the body of [_handle_chat_completion] comes to: a response object,
    [None] when the function falls off its end, or the [TypeError] with which
    the construction of a [JSONResponse] fails when the [status_code] it is
    given is not an [int] (the response compares its status code with [200]
    when it sets its headers).
    [JSONResponse code msg status] stands for
    [JSONResponse(content={"error": {"code": code, "message": msg}}, status_code=status)]. *)
Inductive Response :=
| StreamingResponse (body : Generator) (media_type : string)
| JSONResponse (error_code error_msg : PyVal) (status_code : Z)
| Passthrough (body : string)
| ReturnsNone
| RaisesTypeError.

(** What [create_chat_completion] returns: an async generator when
    [request.stream] is set, the decoded JSON body otherwise. *)
Inductive RawResponse :=
| Streaming (g : Generator)
| Json (body : string).

(** The [if request.stream:] branch of [_handle_chat_completion].  The
    exception caught while the first chunk is pulled supplies the HTTP status
    of the error response: [error_code = e.args[0] if e.args else 500] is an
    [int] for the exception that the service raises on a response other than
    200, and the message string for an exception of the HTTP client. *)
Definition handle_stream (raw_response : Generator) : Response :=
  match chunks raw_response with
  | [] =>
      match ending raw_response with
      | Stream.Raised e =>
          let error_code := error_code_of e in
          let error_msg := error_msg_of e in
          match error_code with
          | PInt status_code => JSONResponse error_code error_msg status_code
          | PStr _ => RaisesTypeError
          end
      | _ =>
          (* StopAsyncIteration *)
          StreamingResponse raw_response "text/event-stream"
      end
  | first_chunk :: rest =>
      if startswith "data:" first_chunk then
        StreamingResponse
          {| chunks := first_chunk :: rest; ending := ending raw_response |}
          "text/event-stream"
      else ReturnsNone
  end.

(** [_handle_chat_completion], after [create_chat_completion] has returned. *)
Definition _handle_chat_completion (raw_response : RawResponse) : Response :=
  match raw_response with
  | Streaming g => handle_stream g
  | Json body => Passthrough body
  end.

Definition of_run (r : Stream.Run) : Generator :=
  {| chunks := Stream.yielded (Stream.events r); ending := Stream.outcome r |}.

End Router.

(** * The pagination of the key listing

    The last block of [get_keys_paginated] in [app/router/key_routes.py]:
    the page cut out of the filtered key list, and the page count. *)
Module KeyRoutes.

(** A slice bound as Python resolves it against a sequence of length [n]: a
    negative bound counts from the end, and the result is clamped to
    [0 .. n]. *)
Definition slice_bound (n i : Z) : Z :=
  if bool_decide (i < 0) then Z.max (i + n) 0 else Z.min i n.

(** [l[start:stop]] *)
Definition slice {A} (l : list A) (start stop : Z) : list A :=
  let n := Z.of_nat (length l) in
  let lo := slice_bound n start in
  let hi := slice_bound n stop in
  take (Z.to_nat (hi - lo)) (drop (Z.to_nat lo) l).

(** [keys_list[start_index:end_index]] with
    [start_index = (page - 1) * limit] and [end_index = start_index + limit]. *)
Definition paginated_keys_list {A} (keys_list : list A) (page limit : Z) : list A :=
  let start_index := (page - 1) * limit in
  let end_index := start_index + limit in
  slice keys_list start_index end_index.

(** [(total_items + limit - 1) // limit if total_items > 0 else 1]; [None] is
    the [ZeroDivisionError] of [limit = 0].  Python's [//] rounds towards
    minus infinity, as [Z.div] does. *)
Definition total_pages (total_items limit : Z) : option Z :=
  if bool_decide (total_items > 0) then
    if bool_decide (limit = 0) then None
    else Some ((total_items + limit - 1) `div` limit)
  else Some 1.

End KeyRoutes.

(** * The API client and the proxy manager

    [_get_proxy], [_record_proxy_result] and [generate_content] of
    [OpenaiApiClient] in [app/service/client/api_client.py].  The state is
    the [ProxyManager] singleton, [None] until [get_proxy_manager] creates
    it. *)
Module Client.

(** The settings read by the client. *)
Record Env := mkEnv {
  settings : Settings;
  PROXIES : list string;
  PROXY_AUTO_CHECK_ENABLED : bool
}.

Section WithEnv.

Variable env : Env.
Variable hash : string → Z.

(** [get_proxy_manager] (proxy_manager.py): the instance, created over
    [settings.PROXIES] when there is none. *)
Definition get_proxy_manager (instance : option Proxy.ProxyManager) : Proxy.ProxyManager :=
  match instance with
  | Some pm => pm
  | None => Proxy.init (settings env) (PROXIES env)
  end.

(** The choice made without the manager:
    [PROXIES[hash(api_key) % len(PROXIES)]] or [random.choice(PROXIES)];
    [choice] is the index drawn. *)
Definition static_proxy (choice : nat) (api_key : string) : option string :=
  if S_PROXIES_USE_CONSISTENCY_HASH_BY_API_KEY (settings env)
  then Proxy.hash_slot hash api_key (PROXIES env)
  else PROXIES env !! (choice mod length (PROXIES env))%nat.

(** [_get_proxy]; [manager_choice] and [choice] are the indices drawn by the
    two calls of [random.choice]. *)
Definition _get_proxy (manager_choice choice : nat) (instance : option Proxy.ProxyManager)
    (api_key : string) : option string * option Proxy.ProxyManager :=
  match PROXIES env with
  | [] => (None, instance)
  | _ :: _ =>
      if PROXY_AUTO_CHECK_ENABLED env then
        let '(proxy, pm) :=
          Proxy.get_proxy_for_key hash
            (S_PROXIES_USE_CONSISTENCY_HASH_BY_API_KEY (settings env))
            manager_choice (get_proxy_manager instance) api_key in
        if truthy (default ""%string proxy) then (proxy, Some pm)
        else (static_proxy choice api_key, Some pm)
      else (static_proxy choice api_key, instance)
  end.

(** [_record_proxy_result] *)
Definition _record_proxy_result (instance : option Proxy.ProxyManager)
    (proxy : option string) (success : bool) : option Proxy.ProxyManager :=
  if negb (truthy (default ""%string proxy)) || negb (PROXY_AUTO_CHECK_ENABLED env)
  then instance
  else
    let pm := get_proxy_manager instance in
    let p := default ""%string proxy in
    if success then Some (Proxy.record_proxy_success pm p)
    else Some (Proxy.record_proxy_failure pm p).2.

(** [generate_content]: the value returned or the exception raised, and the
    proxy manager it leaves.  An exception raised inside the [try] block
    passes through the [except] clause, which reports a failure and raises it
    again. *)
Definition generate_content (manager_choice choice : nat)
    (instance : option Proxy.ProxyManager) (u : Stream.NormalUpstream) (api_key : string)
  : (PyException + string) * option Proxy.ProxyManager :=
  let '(proxy_to_use, instance1) := _get_proxy manager_choice choice instance api_key in
  match u with
  | Stream.NormalConnectionFails e =>
      (inl e, _record_proxy_result instance1 proxy_to_use false)
  | Stream.NormalResponds status_code text json =>
      if bool_decide (status_code ≠ 200) then
        let instance2 := _record_proxy_result instance1 proxy_to_use false in
        (inl (http_error status_code text),
         _record_proxy_result instance2 proxy_to_use false)
      else
        let instance2 := _record_proxy_result instance1 proxy_to_use true in
        match json with
        | inr body => (inr body, instance2)
        | inl e => (inl e, _record_proxy_result instance2 proxy_to_use false)
        end
  end.

End WithEnv.

End Client.

(** A decidable proposition about concrete data, settled by evaluating its
    decision procedure. *)
Ltac by_compute :=
  match goal with
  | |- ?P => apply (proj1 (bool_decide_eq_true P)); vm_compute; reflexivity
  end.

(** * Facts about the key pool *)

Section KeyFacts.

Implicit Types (km : Key.KeyManager) (key : string).

Lemma zero_counts_from (m : gmap string Z) (keys : list string) key :
  foldl (λ m k, <[k := 0]> m) m keys !! key
  = if decide (key ∈ keys) then Some 0 else m !! key.
Proof.
  revert m. induction keys as [|k keys IH]; intros m.
  - rewrite decide_False by set_solver. done.
  - cbn [foldl]. rewrite IH. destruct (decide (key = k)) as [->|Hne].
    + rewrite lookup_insert_eq, (decide_True (P := k ∈ k :: keys)) by set_solver.
      by case_decide.
    + rewrite lookup_insert_ne by done.
      destruct (decide (key ∈ keys)), (decide (key ∈ k :: keys)); try done; set_solver.
Qed.

Lemma zero_counts_lookup (keys : list string) key :
  Key.zero_counts keys !! key = if decide (key ∈ keys) then Some 0 else None.
Proof. unfold Key.zero_counts. by rewrite zero_counts_from, lookup_empty. Qed.

Lemma is_key_valid_true km key :
  Key.is_key_valid km key = true ↔ Key.get_fail_count km key < Key.MAX_FAILURES km.
Proof. unfold Key.is_key_valid. by rewrite bool_decide_eq_true. Qed.

Lemma is_key_valid_false km key :
  Key.is_key_valid km key = false ↔ Key.MAX_FAILURES km <= Key.get_fail_count km key.
Proof. unfold Key.is_key_valid. rewrite bool_decide_eq_false. lia. Qed.

(** [List.find] returns the element at the first index that satisfies the test. *)
Lemma find_first {A} (f : A → bool) (l : list A) (i : nat) (x : A) :
  l !! i = Some x → f x = true →
  (∀ (j : nat) y, (j < i)%nat → l !! j = Some y → f y = false) →
  List.find f l = Some x.
Proof.
  revert i. induction l as [|a l IH]; intros i Hi Hx Hbefore; [done|].
  destruct i as [|i]; simpl in *.
  - injection Hi as ->. by rewrite Hx.
  - rewrite (Hbefore 0%nat a) by (done || lia).
    apply (IH i); [done..|]. intros j y Hj Hy. apply (Hbefore (S j)); [lia | done].
Qed.

Lemma find_none_all {A} (f : A → bool) (l : list A) :
  (∀ x, x ∈ l → f x = false) → List.find f l = None.
Proof.
  induction l as [|a l IH]; intros Hall; [done|]. simpl.
  rewrite (Hall a) by set_solver. apply IH. intros x Hx. apply Hall. set_solver.
Qed.

Lemma find_elem_of {A} (f : A → bool) (l : list A) (x : A) :
  List.find f l = Some x → x ∈ l ∧ f x = true.
Proof.
  induction l as [|a l IH]; [done|]. simpl. destruct (f a) eqn:Hfa.
  - intros [= ->]. split; [set_solver | done].
  - intros Hfind. destruct (IH Hfind). split; [set_solver | done].
Qed.

Lemma get_first_valid_key_elem_of km :
  Key.api_keys km ≠ [] → Key.get_first_valid_key km ∈ Key.api_keys km.
Proof.
  intros Hne. unfold Key.get_first_valid_key.
  destruct (List.find _ _) as [key|] eqn:Hfind.
  - by apply find_elem_of in Hfind as [? _].
  - destruct (Key.api_keys km); [done | set_solver].
Qed.

(** ** The rotation *)

Lemma same_pool_refl km : Key.same_pool km km.
Proof. by repeat split. Qed.

Lemma same_pool_trans km1 km2 km3 :
  Key.same_pool km1 km2 → Key.same_pool km2 km3 → Key.same_pool km1 km3.
Proof. unfold Key.same_pool. intros (? & ? & ?) (? & ? & ?). split_and!; congruence. Qed.

Lemma same_pool_valid km km' key :
  Key.same_pool km km' → Key.is_key_valid km' key = Key.is_key_valid km key.
Proof.
  intros (_ & Hc & Hm). unfold Key.is_key_valid, Key.get_fail_count. by rewrite Hc, Hm.
Qed.

Lemma key_at_is_Some km (c : nat) : Key.api_keys km ≠ [] → is_Some (Key.key_at km c).
Proof.
  intros Hne. apply lookup_lt_is_Some_2, Nat.mod_upper_bound.
  destruct (Key.api_keys km); [done | simpl; lia].
Qed.

Lemma key_at_ring km (c : nat) :
  Key.key_at km (c + length (Key.api_keys km)) = Key.key_at km c.
Proof.
  unfold Key.key_at. f_equal.
  replace (c + length (Key.api_keys km))%nat
    with (c + 1 * length (Key.api_keys km))%nat by lia.
  apply Nat.Div0.mod_add.
Qed.

Lemma get_next_key_Some km key km' :
  Key.get_next_key km = Some (key, km') →
  Key.key_at km (Key.key_cycle km) = Some key
  ∧ Key.same_pool km km' ∧ Key.key_cycle km' = S (Key.key_cycle km).
Proof.
  unfold Key.get_next_key, Key.key_at. destruct (_ !! _) as [k|]; [|done].
  intros [= <- <-]. split; [done|]. by repeat split.
Qed.

Lemma get_next_key_nonempty km :
  Key.api_keys km ≠ [] → ∃ key km', Key.get_next_key km = Some (key, km').
Proof.
  intros Hne. destruct (key_at_is_Some km (Key.key_cycle km) Hne) as [key Hkey].
  unfold Key.get_next_key. unfold Key.key_at in Hkey. rewrite Hkey. eauto.
Qed.

(** The loop returns as soon as the initial key comes round again: when that
    happens on the draw after [d] further ones, [d + 1] units of fuel are
    enough.  The key returned is the current one, found valid, or a key drawn
    from the pool; it is valid unless it is the initial key. *)
Lemma working_key_loop_returns (fuel d : nat) initial current km :
  Key.api_keys km ≠ [] →
  Key.key_at km (Key.key_cycle km + d) = Some initial →
  (d < fuel)%nat →
  ∃ key km',
    Key.working_key_loop fuel initial current km = Some (key, km')
    ∧ Key.same_pool km km'
    ∧ (Key.key_cycle km ≤ Key.key_cycle km' ≤ Key.key_cycle km + d + 1)%nat
    ∧ (key = current ∨ key ∈ Key.api_keys km)
    ∧ (Key.is_key_valid km key = true ∨ key = initial).
Proof.
  revert d current km. induction fuel as [|fuel IH]; intros d current km Hne Hd Hfuel;
    [lia|].
  simpl. destruct (Key.is_key_valid km current) eqn:Hvalid.
  { exists current, km. split_and!; auto using same_pool_refl; lia. }
  destruct (get_next_key_nonempty km Hne) as (next & km1 & Hnext).
  rewrite Hnext. apply get_next_key_Some in Hnext as (Hat & Hsame & Hcur).
  assert (Hnext_in : next ∈ Key.api_keys km) by by eapply list_elem_of_lookup_2.
  destruct (decide (next = initial)) as [->|Hne_init].
  { exists initial, km1. split_and!; auto; lia. }
  destruct d as [|d].
  { rewrite Nat.add_0_r in Hd. congruence. }
  destruct Hsame as (Hkeys & Hcounts & Hmax).
  destruct (IH d next km1) as (key & km' & Hloop & Hsame' & Hrange & Hin & Hres).
  - by rewrite Hkeys.
  - unfold Key.key_at in *. rewrite Hkeys, Hcur.
    by replace (S (Key.key_cycle km) + d)%nat with (Key.key_cycle km + S d)%nat by lia.
  - lia.
  - exists key, km'. split; [done|]. split_and!.
    + eapply same_pool_trans; [|done]. by repeat split.
    + lia.
    + lia.
    + right. destruct Hin as [->|Hin]; [done | by rewrite <- Hkeys].
    + destruct Hres as [Hres|Hres]; [left | by right].
      by rewrite <- (same_pool_valid km km1) by by repeat split.
Qed.

(** [get_next_working_key] always returns: the empty string on an empty pool,
    a key of the pool otherwise, after the initial draw and at most one
    further draw per key.  The key is valid, or it is the key that was under the cursor. *)
Lemma get_next_working_key_total km :
  ∃ key km',
    Key.get_next_working_key km = Some (key, km')
    ∧ Key.same_pool km km'
    ∧ (Key.key_cycle km' ≤ Key.key_cycle km + length (Key.api_keys km) + 1)%nat
    ∧ (Key.api_keys km = [] → key = ""%string)
    ∧ (Key.api_keys km ≠ [] →
       key ∈ Key.api_keys km
       ∧ (Key.is_key_valid km key = true ∨ Key.key_at km (Key.key_cycle km) = Some key)).
Proof.
  unfold Key.get_next_working_key.
  destruct (Key.api_keys km) as [|k0 keys] eqn:Hkeys.
  { exists ""%string, km. split_and!; auto using same_pool_refl; [lia | done]. }
  assert (Hne : Key.api_keys km ≠ []) by by rewrite Hkeys.
  destruct (get_next_key_nonempty km Hne) as (initial & km1 & Hnext).
  rewrite Hnext. apply get_next_key_Some in Hnext as (Hat & Hsame & Hcur).
  pose proof Hsame as (Hkeys1 & _ & _).
  destruct (working_key_loop_returns (length (k0 :: keys)) (length keys)
              initial initial km1) as (key & km' & Hloop & Hsame' & Hrange & Hin & Hres).
  - by rewrite Hkeys1.
  - rewrite Hcur. unfold Key.key_at in *. rewrite Hkeys1.
    replace (S (Key.key_cycle km) + length keys)%nat
      with (Key.key_cycle km + 1 * length (Key.api_keys km))%nat
      by (rewrite Hkeys; simpl; lia).
    by rewrite Nat.Div0.mod_add.
  - simpl. lia.
  - exists key, km'. split; [done|]. split_and!.
    + by eapply same_pool_trans.
    + simpl. lia.
    + done.
    + intros _. rewrite <- Hkeys.
      assert (Hinit : initial ∈ Key.api_keys km) by by eapply list_elem_of_lookup_2.
      split.
      * destruct Hin as [->|Hin]; [done | by rewrite <- Hkeys1].
      * destruct Hres as [Hres|Hres]; [left | right; by rewrite Hres].
        by rewrite <- (same_pool_valid km km1).
Qed.

(** When every key of the pool is invalid, the fallback is the key under the
    cursor, wherever the cursor stands. *)
Lemma get_next_working_key_all_invalid km :
  Key.api_keys km ≠ [] →
  (∀ key, key ∈ Key.api_keys km → Key.is_key_valid km key = false) →
  ∃ km', Key.get_next_working_key km = Some (default ""%string (Key.key_at km (Key.key_cycle km)), km').
Proof.
  intros Hne Hall.
  destruct (get_next_working_key_total km) as (key & km' & Hret & _ & _ & _ & Hpool).
  destruct (Hpool Hne) as (Hin & [Hvalid|Hat]).
  - rewrite (Hall key Hin) in Hvalid. done.
  - exists km'. by rewrite Hat.
Qed.

Lemma mod_shift_ne (c d n : nat) :
  (0 < d < n)%nat → ((c + d) mod n ≠ c mod n)%nat.
Proof.
  intros Hd. rewrite <- Nat.Div0.add_mod_idemp_l.
  pose proof (Nat.mod_upper_bound c n ltac:(lia)) as Hr.
  set (r := (c mod n)%nat) in *.
  destruct (decide (r + d < n)%nat) as [Hlt|Hge].
  - rewrite Nat.mod_small by done. lia.
  - replace (r + d)%nat with ((r + d - n) + 1 * n)%nat by lia.
    rewrite Nat.Div0.mod_add, Nat.mod_small by lia. lia.
Qed.

(** Starting anywhere, one turn of the ring meets every key of the pool. *)
Lemma key_at_cover km (c : nat) key :
  key ∈ Key.api_keys km →
  ∃ i : nat, (i < length (Key.api_keys km))%nat ∧ Key.key_at km (c + i) = Some key.
Proof.
  intros Hin. apply list_elem_of_lookup in Hin as [p Hp].
  pose proof (lookup_lt_Some _ _ _ Hp) as Hlt.
  set (n := length (Key.api_keys km)) in *.
  pose proof (Nat.mod_upper_bound c n ltac:(lia)) as Hr.
  pose proof (Nat.div_mod_eq c n) as Hc.
  unfold Key.key_at. fold n.
  destruct (decide (c mod n ≤ p)%nat) as [Hle|Hgt].
  - exists (p - c mod n)%nat. split; [lia|].
    replace (c + (p - c mod n))%nat with (p + (c / n) * n)%nat by lia.
    by rewrite Nat.Div0.mod_add, Nat.mod_small.
  - exists (n + p - c mod n)%nat. split; [lia|].
    replace (c + (n + p - c mod n))%nat with (p + (c / n + 1) * n)%nat by lia.
    by rewrite Nat.Div0.mod_add, Nat.mod_small.
Qed.

(** Over a pool without repeated keys, the loop finds a valid key as long as
    one lies between the cursor and the return of the initial key. *)
Lemma working_key_loop_finds_valid (fuel d : nat) initial current km :
  NoDup (Key.api_keys km) →
  Key.key_at km (Key.key_cycle km + d) = Some initial →
  (d < fuel)%nat → (d < length (Key.api_keys km))%nat →
  (∃ v, Key.is_key_valid km v = true
        ∧ (v = current
           ∨ ∃ i : nat, (i < d)%nat ∧ Key.key_at km (Key.key_cycle km + i) = Some v)) →
  ∃ key km',
    Key.working_key_loop fuel initial current km = Some (key, km')
    ∧ Key.is_key_valid km key = true.
Proof.
  revert d current km.
  induction fuel as [|fuel IH]; intros d current km Hnodup Hd Hfuel Hlen Hv; [lia|].
  simpl. destruct (Key.is_key_valid km current) eqn:Hvalid; [by eauto|].
  destruct Hv as (v & Hv & [->|(i & Hi & Hat_i)]); [congruence|].
  assert (Hne : Key.api_keys km ≠ []).
  { intros Hnil. rewrite Hnil in Hlen. simpl in Hlen. lia. }
  destruct (get_next_key_nonempty km Hne) as (next & km1 & Hnext).
  rewrite Hnext. apply get_next_key_Some in Hnext as (Hat & Hsame & Hcur).
  destruct (decide (next = initial)) as [->|Hne_init].
  { exfalso. unfold Key.key_at in Hat, Hd.
    pose proof (NoDup_lookup _ _ _ _ Hnodup Hat Hd) as Heq.
    symmetry in Heq. revert Heq. apply mod_shift_ne. lia. }
  pose proof Hsame as (Hkeys & Hcounts & Hmax).
  destruct d as [|d]; [lia|].
  destruct (IH d next km1) as (key & km' & Hloop & Hkey).
  - by rewrite Hkeys.
  - unfold Key.key_at in *. rewrite Hkeys, Hcur.
    by replace (S (Key.key_cycle km) + d)%nat with (Key.key_cycle km + S d)%nat by lia.
  - lia.
  - rewrite Hkeys. lia.
  - exists v. split; [by rewrite (same_pool_valid km km1)|].
    destruct i as [|i].
    + left. rewrite Nat.add_0_r in Hat_i. congruence.
    + right. exists i. split; [lia|]. unfold Key.key_at in *. rewrite Hkeys, Hcur.
      by replace (S (Key.key_cycle km) + i)%nat with (Key.key_cycle km + S i)%nat by lia.
  - exists key, km'. split; [done|]. by rewrite <- (same_pool_valid km km1).
Qed.

Lemma get_next_working_key_unfold km :
  Key.api_keys km ≠ [] →
  Key.get_next_working_key km
  = match Key.get_next_key km with
    | Some (initial_key, km') =>
        Key.working_key_loop (length (Key.api_keys km)) initial_key initial_key km'
    | None => None
    end.
Proof. intros Hne. unfold Key.get_next_working_key. by destruct (Key.api_keys km). Qed.

(** Over a pool without repeated keys that holds a valid key,
    [get_next_working_key] returns a valid key of the pool within one turn of
    the ring. *)
Lemma get_next_working_key_valid km :
  NoDup (Key.api_keys km) →
  (∃ v, v ∈ Key.api_keys km ∧ Key.get_fail_count km v < Key.MAX_FAILURES km) →
  ∃ key km',
    Key.get_next_working_key km = Some (key, km')
    ∧ key ∈ Key.api_keys km
    ∧ Key.get_fail_count km key < Key.MAX_FAILURES km
    ∧ Key.same_pool km km'
    ∧ (Key.key_cycle km' ≤ Key.key_cycle km + length (Key.api_keys km) + 1)%nat.
Proof.
  intros Hnodup (v & Hv_in & Hv).
  assert (Hne : Key.api_keys km ≠ []) by (intros Hnil; rewrite Hnil in Hv_in; set_solver).
  destruct (get_next_working_key_total km)
    as (key & km' & Hret & Hsame & Hrange & _ & Hpool).
  destruct (Hpool Hne) as (Hin & _).
  exists key, km'. split_and!; try done.
  apply is_key_valid_true.
  assert (Hlen : (0 < length (Key.api_keys km))%nat).
  { destruct (Key.api_keys km); [done | simpl; lia]. }
  revert Hret. rewrite get_next_working_key_unfold by done.
  destruct (get_next_key_nonempty km Hne) as (initial & km1 & Hnext).
  rewrite Hnext. apply get_next_key_Some in Hnext as (Hat & Hsame1 & Hcur).
  pose proof Hsame1 as (Hkeys1 & _ & _).
  destruct (working_key_loop_finds_valid (length (Key.api_keys km))
              (length (Key.api_keys km) - 1) initial initial km1)
    as (key' & km'' & Hloop & Hkey').
  - by rewrite Hkeys1.
  - rewrite Hcur. unfold Key.key_at in *. rewrite Hkeys1.
    replace (S (Key.key_cycle km) + (length (Key.api_keys km) - 1))%nat
      with (Key.key_cycle km + 1 * length (Key.api_keys km))%nat by lia.
    by rewrite Nat.Div0.mod_add.
  - lia.
  - rewrite Hkeys1. lia.
  - exists v. split; [by rewrite (same_pool_valid km km1); [apply is_key_valid_true|]|].
    destruct (key_at_cover km (Key.key_cycle km) v) as (i & Hi & Hat_i); [done|].
    destruct i as [|i].
    + left. rewrite Nat.add_0_r in Hat_i. congruence.
    + right. exists i. split; [lia|].
      unfold Key.key_at in *. rewrite Hkeys1, Hcur.
      by replace (S (Key.key_cycle km) + i)%nat with (Key.key_cycle km + S i)%nat by lia.
  - rewrite Hloop. intros [= -> ->]. by rewrite <- (same_pool_valid km km1).
Qed.

(** ** Bounds on the failure counts *)

Lemma init_counts_nonneg st keys : Key.counts_nonneg (Key.init st keys).
Proof.
  intros key c. simpl. rewrite zero_counts_lookup. case_decide; [|done].
  intros [= <-]. done.
Qed.

Lemma same_pool_counts_nonneg km km' :
  Key.same_pool km km' → Key.counts_nonneg km → Key.counts_nonneg km'.
Proof. intros (_ & Hc & _) Hnn key c. rewrite Hc. apply Hnn. Qed.

Lemma same_pool_counts_capped km km' :
  Key.same_pool km km' → Key.counts_capped km → Key.counts_capped km'.
Proof. intros (_ & Hc & Hm) Hcap key c. rewrite Hc, Hm. apply Hcap. Qed.

Lemma record_failure_counts_nonneg km key :
  Key.counts_nonneg km → Key.counts_nonneg (Key.record_failure km key).
Proof.
  intros Hnn k c. unfold Key.record_failure.
  destruct (Key.key_failure_counts km !! key) as [c0|] eqn:Hkey; [|apply Hnn].
  simpl. destruct (decide (key = k)) as [->|Hne].
  - rewrite lookup_insert_eq. intros [= <-]. specialize (Hnn _ _ Hkey). lia.
  - rewrite lookup_insert_ne by done. apply Hnn.
Qed.

(** No operation makes a failure count negative. *)
Lemma step_counts_nonneg st km o :
  Key.counts_nonneg km → Key.counts_nonneg (Key.step st km o).
Proof.
  intros Hnn. destruct o as [| |api_key retries| |key|key]; simpl.
  - destruct (Key.get_next_key km) as [[k km']|] eqn:Hnext; [|done].
    apply get_next_key_Some in Hnext as (_ & Hsame & _).
    by eapply same_pool_counts_nonneg.
  - destruct (get_next_working_key_total km) as (k & km' & -> & Hsame & _).
    by eapply same_pool_counts_nonneg.
  - unfold Key.handle_api_failure. case_bool_decide; simpl.
    + destruct (get_next_working_key_total (Key.record_failure km api_key))
        as (k & km' & -> & Hsame & _).
      eapply same_pool_counts_nonneg; [done|]. by apply record_failure_counts_nonneg.
    + by apply record_failure_counts_nonneg.
  - intros k c. simpl. rewrite lookup_fmap.
    destruct (Key.key_failure_counts km !! k); [|done]. by intros [= <-].
  - unfold Key.reset_key_failure_count.
    destruct (Key.key_failure_counts km !! key) eqn:Hkey; [|done].
    intros k c. simpl. destruct (decide (key = k)) as [->|Hne].
    + rewrite lookup_insert_eq. by intros [= <-].
    + rewrite lookup_insert_ne by done. apply Hnn.
  - unfold Key.check_failed_key_failure.
    destruct (Key.key_failure_counts km !! key) as [c0|] eqn:Hkey; [|done].
    case_bool_decide; [|done].
    intros k c. simpl. destruct (decide (key = k)) as [->|Hne].
    + rewrite lookup_insert_eq. intros [= <-]. specialize (Hnn _ _ Hkey). lia.
    + rewrite lookup_insert_ne by done. apply Hnn.
Qed.

Lemma run_counts_nonneg st keys os :
  Key.counts_nonneg (Key.run st (Key.init st keys) os).
Proof.
  unfold Key.run. induction os as [|o os IH] using rev_ind.
  - apply init_counts_nonneg.
  - rewrite foldl_app. simpl. by apply step_counts_nonneg.
Qed.

(** Every operation other than [handle_api_failure] keeps the counts at or
    below [MAX_FAILURES]; the scheduler's probe in particular stops
    incrementing there. *)
Lemma step_counts_capped st km o :
  0 <= Key.MAX_FAILURES km →
  (∀ api_key retries, o ≠ Key.OpHandleApiFailure api_key retries) →
  Key.counts_capped km → Key.counts_capped (Key.step st km o).
Proof.
  intros Hmax Hop Hcap. destruct o as [| |api_key retries| |key|key]; simpl.
  - destruct (Key.get_next_key km) as [[k km']|] eqn:Hnext; [|done].
    apply get_next_key_Some in Hnext as (_ & Hsame & _).
    by eapply same_pool_counts_capped.
  - destruct (get_next_working_key_total km) as (k & km' & -> & Hsame & _).
    by eapply same_pool_counts_capped.
  - by destruct (Hop api_key retries).
  - intros k c. simpl. rewrite lookup_fmap.
    destruct (Key.key_failure_counts km !! k); [|done]. by intros [= <-].
  - unfold Key.reset_key_failure_count.
    destruct (Key.key_failure_counts km !! key) eqn:Hkey; [|done].
    intros k c. simpl. destruct (decide (key = k)) as [->|Hne].
    + rewrite lookup_insert_eq. by intros [= <-].
    + rewrite lookup_insert_ne by done. apply Hcap.
  - unfold Key.check_failed_key_failure.
    destruct (Key.key_failure_counts km !! key) as [c0|] eqn:Hkey; [|done].
    case_bool_decide; [|done].
    intros k c. simpl. destruct (decide (key = k)) as [->|Hne].
    + rewrite lookup_insert_eq. intros [= <-]. lia.
    + rewrite lookup_insert_ne by done. apply Hcap.
Qed.

(** No operation adds or removes an entry of the failure-count dictionary. *)
Lemma step_counts_cover st km o :
  Key.counts_cover km → Key.counts_cover (Key.step st km o).
Proof.
  assert (Hsame : ∀ km', Key.same_pool km km' → Key.counts_cover km →
                         Key.counts_cover km').
  { intros km' (Hk & Hc & _) Hcov key. rewrite Hk, Hc. apply Hcov. }
  assert (Hinsert : ∀ key (v : Z), is_Some (Key.key_failure_counts km !! key) →
            Key.counts_cover km →
            Key.counts_cover (Key.set_counts km (<[key := v]> (Key.key_failure_counts km)))).
  { intros key v Hkey Hcov k. simpl. rewrite (Hcov k).
    destruct (decide (key = k)) as [->|Hne].
    - rewrite lookup_insert_eq. split; [by eauto | done].
    - by rewrite lookup_insert_ne. }
  assert (Hrecord : ∀ key, Key.counts_cover km →
                           Key.counts_cover (Key.record_failure km key)).
  { intros key Hcov. unfold Key.record_failure.
    destruct (Key.key_failure_counts km !! key) eqn:Hkey; [|done].
    apply Hinsert; [by rewrite Hkey | done]. }
  intros Hcov. destruct o as [| |api_key retries| |key|key]; simpl.
  - destruct (Key.get_next_key km) as [[k km']|] eqn:Hnext; [|done].
    apply get_next_key_Some in Hnext as (_ & Hpool & _). by apply Hsame.
  - destruct (get_next_working_key_total km) as (k & km' & -> & Hpool & _).
    by apply Hsame.
  - unfold Key.handle_api_failure. case_bool_decide; simpl; [|by apply Hrecord].
    destruct (get_next_working_key_total (Key.record_failure km api_key))
      as (k & km' & -> & (Hk & Hc & _) & _).
    intros key'. simpl. rewrite Hk, Hc. by apply Hrecord.
  - intros k. simpl. rewrite lookup_fmap, fmap_is_Some. apply Hcov.
  - unfold Key.reset_key_failure_count.
    destruct (Key.key_failure_counts km !! key) eqn:Hkey; [|done].
    apply Hinsert; [by rewrite Hkey | done].
  - unfold Key.check_failed_key_failure.
    destruct (Key.key_failure_counts km !! key) eqn:Hkey; [|done].
    case_bool_decide; [|done]. apply Hinsert; [by rewrite Hkey | done].
Qed.

End KeyFacts.

(** C2.  The claimed bound [0 <= fail_count <= max_failures] does not survive
    [handle_api_failure]: the method adds one to the count of a known key
    whatever its value.  With one key and [MAX_FAILURES = 1], two failures
    of that key leave its count at 2.  (The lower bound holds for every
    operation, [run_counts_nonneg]; the upper bound is kept by every other
    operation, among them the scheduler's probe, [step_counts_capped].) *)
Theorem handle_api_failure_exceeds_max_failures :
  let st := mkSettings 1 3 3 true in
  let km := Key.run st (Key.init st ["k1"%string])
                    [Key.OpHandleApiFailure "k1"%string 1;
                     Key.OpHandleApiFailure "k1"%string 2] in
  Key.MAX_FAILURES km = 1
  ∧ Key.get_fail_count km "k1"%string = 2
  ∧ ¬ (Key.get_fail_count km "k1"%string <= Key.MAX_FAILURES km).
Proof. vm_compute. split_and!; [done | done | by intros H]. Qed.

(** C3.  On a pool whose keys are all invalid, [get_next_working_key] falls
    back to the key under the rotation cursor, not to the first key of the
    pool: with keys [k1; k2], both at [MAX_FAILURES], and one key already
    drawn from the cycle, it returns [k2]. *)
Theorem get_next_working_key_fallback_not_first :
  let st := mkSettings 1 3 3 true in
  let km := Key.run st (Key.init st ["k1"; "k2"]%string)
                    [Key.OpHandleApiFailure "k1"%string 3;
                     Key.OpHandleApiFailure "k2"%string 3;
                     Key.OpGetNextKey] in
  Key.api_keys km = ["k1"; "k2"]%string
  ∧ Key.is_key_valid km "k1"%string = false
  ∧ Key.is_key_valid km "k2"%string = false
  ∧ fst <$> Key.get_next_working_key km = Some "k2"%string.
Proof. vm_compute. done. Qed.

(** The loop recognises the end of the ring by the value of the key, not by
    its position: in a pool that lists a key twice the scan can stop early,
    on an invalid key, with a valid key left unvisited. *)
Example get_next_working_key_repeated_key :
  let st := mkSettings 1 3 3 true in
  let km := Key.run st (Key.init st ["k1"; "k1"; "k2"]%string)
                    [Key.OpHandleApiFailure "k1"%string 3] in
  Key.is_key_valid km "k1"%string = false
  ∧ Key.is_key_valid km "k2"%string = true
  ∧ fst <$> Key.get_next_working_key km = Some "k1"%string.
Proof. by vm_compute. Qed.

(** C10, as claimed, fails: a non-empty pool can list the empty string as a
    key, and [get_first_valid_key] then returns it like any other key.  With
    the pool [""; "k2"] the first valid key is the empty string, although
    ["k2"] is valid too, and [get_models], called without a key for a
    provider without [model_request_key], raises instead of sending a
    request. *)
Lemma get_first_valid_key_returns_empty_key :
  let st := mkSettings 3 3 3 true in
  let config :=
    Provider.mkProviderConfig "openai" "openai" "https://api.openai.com/v1"
      [""; "k2"]%string "" ∅ 300 3 3 "gpt-4o-mini" true in
  let km := Provider.new_manager st config in
  Key.api_keys km ≠ []
  ∧ Key.is_key_valid km "k2"%string = true
  ∧ Key.get_first_valid_key km = ""%string
  ∧ Provider.get_models_key config km None
    = inl (mkExc [PInt 500; PStr "No valid API key available for provider 'openai'"] "").
Proof. split_and!; by vm_compute. Qed.

(** C10, amended.  On a non-empty pool [get_first_valid_key] returns a key of
    the pool: the first key in config order whose failure count is below
    [MAX_FAILURES] when there is one, the first key of the pool when every
    key is invalid.  When no key of the pool is the empty string, the result
    is therefore not the empty string, and [get_models], called without a
    key for a provider without [model_request_key], sends its request with
    exactly the key returned. *)
Theorem get_first_valid_key_never_empty (km : Key.KeyManager)
    (config : Provider.ProviderConfig) :
  Key.api_keys km ≠ [] →
  let first_valid := Key.get_first_valid_key km in
  first_valid ∈ Key.api_keys km
  ∧ (∀ (i : nat) key,
       Key.api_keys km !! i = Some key →
       Key.get_fail_count km key < Key.MAX_FAILURES km →
       (∀ (j : nat) key', (j < i)%nat → Key.api_keys km !! j = Some key' →
                          Key.MAX_FAILURES km <= Key.get_fail_count km key') →
       first_valid = key)
  ∧ ((∀ key, key ∈ Key.api_keys km →
             Key.MAX_FAILURES km <= Key.get_fail_count km key) →
     head (Key.api_keys km) = Some first_valid)
  ∧ ((∀ key, key ∈ Key.api_keys km → key ≠ ""%string) →
     first_valid ≠ ""%string
     ∧ (Provider.model_request_key config = ""%string →
        Provider.get_models_key config km None = inr first_valid)).
Proof.
  intros Hne first_valid.
  assert (Hin : first_valid ∈ Key.api_keys km) by by apply get_first_valid_key_elem_of.
  split_and!; [done | | |].
  - intros i key Hi Hvalid Hbefore. subst first_valid. unfold Key.get_first_valid_key.
    rewrite (find_first _ _ i key); [done | done | by apply is_key_valid_true |].
    intros j key' Hj Hkey'. apply is_key_valid_false. by eapply Hbefore.
  - intros Hall. subst first_valid. unfold Key.get_first_valid_key.
    rewrite find_none_all by (intros; by apply is_key_valid_false, Hall).
    by destruct (Key.api_keys km).
  - intros Hkeys.
    assert (Hnonempty : first_valid ≠ ""%string) by by apply Hkeys.
    split; [done|].
    intros Hmrk. unfold Provider.get_models_key. rewrite Hmrk. simpl.
    fold first_valid. unfold truthy. by rewrite bool_decide_eq_true_2.
Qed.

Lemma get_first_valid_key_never_empty_witness :
  let st := mkSettings 2 3 3 true in
  let km := Key.run st (Key.init st ["k1"; "k2"; "k3"]%string)
                    [Key.OpHandleApiFailure "k1"%string 1;
                     Key.OpHandleApiFailure "k1"%string 2] in
  let config :=
    Provider.mkProviderConfig "openai" "openai" "https://api.openai.com/v1"
      ["k1"; "k2"; "k3"]%string "" ∅ 300 2 3 "gpt-4o-mini" true in
  Key.get_first_valid_key km = "k2"%string
  ∧ Provider.get_models_key config km None = inr "k2"%string.
Proof.
  intros st km config.
  assert (Hne : Key.api_keys km ≠ []) by (vm_compute; done).
  assert (Hkeys : ∀ key, key ∈ Key.api_keys km → key ≠ ""%string).
  { intros key Hkey. vm_compute in Hkey.
    repeat (apply elem_of_cons in Hkey as [->|Hkey]; [done|]).
    by apply elem_of_nil in Hkey. }
  destruct (get_first_valid_key_never_empty km config Hne)
    as (_ & Hfirst & _ & Hnonempty).
  destruct (Hnonempty Hkeys) as [_ Hmodels].
  assert (Hk2 : Key.get_first_valid_key km = "k2"%string).
  { apply (Hfirst 1%nat); [by vm_compute | by vm_compute |].
    intros [|j] key' Hj; [|lia]. vm_compute. intros [= <-]. vm_compute. done. }
  split; [done|]. rewrite <- Hk2. by apply Hmodels.
Defined.

(** * Facts about the proxy pool *)

Section ProxyFacts.

Variable hash : string → Z.

Implicit Types (pm : Proxy.ProxyManager) (proxy api_key : string).

Lemma unbind_proxy_lookup (b : gmap string string) proxy api_key p :
  Proxy.unbind_proxy proxy b !! api_key = Some p ↔ b !! api_key = Some p ∧ p ≠ proxy.
Proof. unfold Proxy.unbind_proxy. by rewrite map_lookup_filter_Some. Qed.

Lemma unbind_proxy_lookup_other (b : gmap string string) proxy api_key p :
  b !! api_key = Some p → p ≠ proxy → Proxy.unbind_proxy proxy b !! api_key = Some p.
Proof. intros. by apply unbind_proxy_lookup. Qed.

Lemma unbind_proxy_gone (b : gmap string string) proxy api_key :
  Proxy.unbind_proxy proxy b !! api_key ≠ Some proxy.
Proof. intros Hb. apply unbind_proxy_lookup in Hb as [_ Hne]. done. Qed.

Lemma get_available_proxies_elem_of pm proxy :
  proxy ∈ Proxy.get_available_proxies pm ↔ Proxy.available pm proxy.
Proof.
  unfold Proxy.get_available_proxies, Proxy.available.
  rewrite list_elem_of_In, filter_In, <- list_elem_of_In, bool_decide_eq_true. done.
Qed.

Lemma hash_slot_elem_of api_key (l : list string) proxy :
  Proxy.hash_slot hash api_key l = Some proxy → proxy ∈ l.
Proof. unfold Proxy.hash_slot. apply list_elem_of_lookup_2. Qed.

(** On a non-empty list the slot always exists (Python's [%] by a positive
    length stays within the list). *)
Lemma hash_slot_is_Some api_key (l : list string) :
  l ≠ [] → is_Some (Proxy.hash_slot hash api_key l).
Proof.
  intros Hne. unfold Proxy.hash_slot. apply lookup_lt_is_Some_2.
  assert (0 < Z.of_nat (length l)) by (destruct l; [done | simpl; lia]).
  pose proof (Z.mod_pos_bound (hash api_key) (Z.of_nat (length l))). lia.
Qed.

(** ** Reloading *)

Lemma foldl_add_proxy_fields pm (added : list string) :
  let pm' := foldl Proxy.add_proxy pm added in
  Proxy.disabled_proxies pm' = Proxy.disabled_proxies pm
  ∧ Proxy.key_proxy_bindings pm' = Proxy.key_proxy_bindings pm
  ∧ Proxy.MAX_FAILURES pm' = Proxy.MAX_FAILURES pm.
Proof.
  revert pm. induction added as [|p added IH]; intros pm; simpl; [done|].
  destruct (IH (Proxy.add_proxy pm p)) as (-> & -> & ->). done.
Qed.

Lemma foldl_remove_proxy_bindings pm (removed : list string) api_key p :
  Proxy.key_proxy_bindings (foldl Proxy.remove_proxy pm removed) !! api_key = Some p
  ↔ Proxy.key_proxy_bindings pm !! api_key = Some p ∧ p ∉ removed.
Proof.
  revert pm. induction removed as [|r removed IH]; intros pm; simpl.
  - set_solver.
  - rewrite IH. simpl. rewrite unbind_proxy_lookup. set_solver.
Qed.

Lemma foldl_remove_proxy_disabled pm (removed : list string) proxy :
  proxy ∈ Proxy.disabled_proxies (foldl Proxy.remove_proxy pm removed)
  ↔ proxy ∈ Proxy.disabled_proxies pm ∧ proxy ∉ removed.
Proof.
  revert pm. induction removed as [|r removed IH]; intros pm; simpl.
  - set_solver.
  - rewrite IH. simpl. set_solver.
Qed.

Lemma reload_proxies_bindings pm (new_proxies : list string) api_key p :
  Proxy.key_proxy_bindings (Proxy.reload_proxies pm new_proxies) !! api_key = Some p
  ↔ Proxy.key_proxy_bindings pm !! api_key = Some p
    ∧ (p ∈ Proxy.proxies pm → p ∈ new_proxies).
Proof.
  unfold Proxy.reload_proxies. simpl. rewrite foldl_remove_proxy_bindings.
  destruct (foldl_add_proxy_fields pm
              (List.filter (λ p, bool_decide (p ∉ Proxy.proxies pm)) new_proxies))
    as (_ & -> & _).
  rewrite list_elem_of_In, filter_In, <- list_elem_of_In, bool_decide_eq_true.
  split; intros [Hb Hin]; (split; [done|]).
  - intros Hold. destruct (decide (p ∈ new_proxies)); [done|]. by destruct Hin.
  - intros [Hold Hnew]. auto.
Qed.

Lemma reload_proxies_disabled pm (new_proxies : list string) proxy :
  proxy ∈ Proxy.disabled_proxies (Proxy.reload_proxies pm new_proxies)
  ↔ proxy ∈ Proxy.disabled_proxies pm
    ∧ (proxy ∈ Proxy.proxies pm → proxy ∈ new_proxies).
Proof.
  unfold Proxy.reload_proxies. simpl. rewrite foldl_remove_proxy_disabled.
  destruct (foldl_add_proxy_fields pm
              (List.filter (λ p, bool_decide (p ∉ Proxy.proxies pm)) new_proxies))
    as (-> & _ & _).
  rewrite list_elem_of_In, filter_In, <- list_elem_of_In, bool_decide_eq_true.
  split; intros [Hb Hin]; (split; [done|]).
  - intros Hold. destruct (decide (proxy ∈ new_proxies)); [done|]. by destruct Hin.
  - intros [Hold Hnew]. auto.
Qed.

(** ** Bindings never point to a disabled proxy *)

Lemma init_no_binding_to_disabled st ps :
  Proxy.no_binding_to_disabled (Proxy.init st ps).
Proof. intros api_key p. simpl. by rewrite lookup_empty. Qed.

Lemma get_proxy_for_key_no_binding_to_disabled use_hash choice pm api_key :
  Proxy.no_binding_to_disabled pm →
  Proxy.no_binding_to_disabled (Proxy.get_proxy_for_key hash use_hash choice pm api_key).2.
Proof.
  intros Hinv. unfold Proxy.get_proxy_for_key.
  destruct (Proxy.proxies pm) as [|first ps] eqn:Hps; [done|].
  destruct (Proxy.get_available_proxies pm) as [|a avail] eqn:Havail; [done|].
  destruct use_hash; [|done].
  assert (Hrebind : ∀ b : gmap string string,
    (∀ k p, b !! k = Some p → p ∉ Proxy.disabled_proxies pm) →
    Proxy.no_binding_to_disabled
      (match Proxy.hash_slot hash api_key (a :: avail) with
       | Some proxy => (Some proxy, Proxy.set_bindings pm (<[api_key := proxy]> b))
       | None => (None, Proxy.set_bindings pm b)
       end).2).
  { intros b Hb. destruct (Proxy.hash_slot hash api_key (a :: avail)) as [proxy|] eqn:Hslot.
    - intros k p. simpl. destruct (decide (api_key = k)) as [->|Hne].
      + rewrite lookup_insert_eq. intros [= <-].
        apply hash_slot_elem_of in Hslot. rewrite <- Havail in Hslot.
        by apply get_available_proxies_elem_of in Hslot as [_ ?].
      + rewrite lookup_insert_ne by done. apply Hb.
    - intros k p. simpl. apply Hb. }
  destruct (Proxy.key_proxy_bindings pm !! api_key) as [bound|] eqn:Hbound.
  - case_bool_decide; [done|]. apply Hrebind. intros k p Hk.
    apply lookup_delete_Some in Hk as [_ Hk]. by eapply Hinv.
  - by apply Hrebind.
Qed.

Lemma step_no_binding_to_disabled pm (o : Proxy.op) :
  Proxy.no_binding_to_disabled pm → Proxy.no_binding_to_disabled (Proxy.step hash pm o).
Proof.
  intros Hinv.
  destruct o as [new_proxies|st new_proxies|use_hash choice api_key|proxy|proxy|proxy|
                 |proxy|proxy|proxy now|api_key]; cbn [Proxy.step].
  - intros k p Hk. apply reload_proxies_bindings in Hk as [Hk _].
    rewrite reload_proxies_disabled. intros [Hd _]. by eapply Hinv.
  - intros k p Hk.
    change (Proxy.key_proxy_bindings (Proxy.reload_proxies pm new_proxies) !! k = Some p)
      in Hk.
    change (p ∉ Proxy.disabled_proxies (Proxy.reload_proxies pm new_proxies)).
    apply reload_proxies_bindings in Hk as [Hk _].
    rewrite reload_proxies_disabled. intros [Hd _]. by eapply Hinv.
  - by apply get_proxy_for_key_no_binding_to_disabled.
  - unfold Proxy.record_proxy_failure. destruct (negb (truthy proxy)); [done|].
    destruct (Proxy.proxy_failure_counts pm !! proxy) as [c|]; [|done].
    case_bool_decide; [|done].
    intros k p. simpl. intros Hk. apply unbind_proxy_lookup in Hk as [Hk Hne].
    specialize (Hinv _ _ Hk). set_solver.
  - unfold Proxy.record_proxy_success. destruct (negb (truthy proxy)); [done|].
    destruct (Proxy.proxy_failure_counts pm !! proxy) as [c|]; [|done].
    by case_bool_decide.
  - unfold Proxy.reset_proxy.
    destruct (Proxy.proxy_failure_counts pm !! proxy) as [c|];
      intros k p; simpl; intros Hk; specialize (Hinv _ _ Hk); set_solver.
  - intros k p. simpl. by rewrite lookup_empty.
  - unfold Proxy.disable_proxy. case_bool_decide; [|done].
    intros k p. simpl. intros Hk. apply unbind_proxy_lookup in Hk as [Hk Hne].
    specialize (Hinv _ _ Hk). set_solver.
  - unfold Proxy.enable_proxy. case_bool_decide; [|done].
    intros k p. simpl. intros Hk. specialize (Hinv _ _ Hk). set_solver.
  - done.
  - unfold Proxy.unbind_key_from_proxy.
    destruct (Proxy.key_proxy_bindings pm !! api_key) as [p0|]; [|done].
    intros k p. simpl. intros Hk. apply lookup_delete_Some in Hk as [_ Hk].
    by eapply Hinv.
Qed.

(** ** Recording failures *)

(** One call on a known proxy: the count goes up by one; the call answers
    whether the new count has reached the threshold, and in that case the
    proxy is in the disabled set and every binding to it is gone. *)
Lemma record_proxy_failure_known pm proxy (c : Z) :
  proxy ≠ ""%string →
  Proxy.proxy_failure_counts pm !! proxy = Some c →
  ∃ pm',
    Proxy.record_proxy_failure pm proxy
      = (bool_decide (Proxy.MAX_FAILURES pm <= c + 1), pm')
    ∧ Proxy.proxies pm' = Proxy.proxies pm
    ∧ Proxy.MAX_FAILURES pm' = Proxy.MAX_FAILURES pm
    ∧ Proxy.proxy_failure_counts pm' = <[proxy := c + 1]> (Proxy.proxy_failure_counts pm)
    ∧ (Proxy.MAX_FAILURES pm <= c + 1 →
       Proxy.disabled_proxies pm' = Proxy.disabled_proxies pm ∪ {[proxy]}
       ∧ Proxy.key_proxy_bindings pm' = Proxy.unbind_proxy proxy (Proxy.key_proxy_bindings pm))
    ∧ (c + 1 < Proxy.MAX_FAILURES pm →
       Proxy.disabled_proxies pm' = Proxy.disabled_proxies pm
       ∧ Proxy.key_proxy_bindings pm' = Proxy.key_proxy_bindings pm).
Proof.
  intros Hne Hc. unfold Proxy.record_proxy_failure, truthy.
  rewrite bool_decide_eq_true_2 by done. simpl. rewrite Hc.
  destruct (decide (Proxy.MAX_FAILURES pm <= c + 1)) as [Hge|Hlt].
  - rewrite !bool_decide_eq_true_2 by lia.
    eexists. split; [done|]. simpl. split_and!; try done; try lia.
  - rewrite !bool_decide_eq_false_2 by lia.
    eexists. split; [done|]. simpl. split_and!; try done; try lia.
Qed.

(** [n] consecutive calls on a known proxy with count [c]: call number [i]
    (from 0) answers whether [c + i + 1] has reached the threshold. *)
Lemma record_failures_results (n : nat) pm proxy (c : Z) :
  proxy ≠ ""%string →
  Proxy.proxy_failure_counts pm !! proxy = Some c →
  (Proxy.record_failures n pm proxy).1
  = (λ i : nat, bool_decide (Proxy.MAX_FAILURES pm <= c + Z.of_nat i + 1)) <$> seq 0 n.
Proof.
  intros Hne. revert pm c. induction n as [|n IH]; intros pm c Hc; [done|].
  cbn [Proxy.record_failures].
  destruct (record_proxy_failure_known pm proxy c Hne Hc)
    as (pm' & -> & _ & Hmax & Hcounts & _).
  specialize (IH pm' (c + 1)). rewrite Hcounts, lookup_insert_eq in IH.
  specialize (IH eq_refl).
  destruct (Proxy.record_failures n pm' proxy) as [rest pm2]. simpl in *.
  rewrite IH, Hmax. cbn [seq fmap list_fmap]. f_equal.
  - apply bool_decide_ext. lia.
  - rewrite <- fmap_S_seq, <- list_fmap_compose. apply list_fmap_ext.
    intros j i _. simpl. apply bool_decide_ext. lia.
Qed.

(** ** Sticky bindings *)

(** A hash-mode call that answers with an available proxy leaves the key
    bound to it. *)
Lemma get_proxy_for_key_binds choice pm api_key p pm1 :
  Proxy.get_proxy_for_key hash true choice pm api_key = (Some p, pm1) →
  Proxy.available pm1 p →
  Proxy.key_proxy_bindings pm1 !! api_key = Some p.
Proof.
  unfold Proxy.get_proxy_for_key.
  destruct (Proxy.proxies pm) as [|first ps] eqn:Hps; [done|].
  destruct (Proxy.get_available_proxies pm) as [|a avail] eqn:Havail.
  { intros [= <- <-] Hav. apply get_available_proxies_elem_of in Hav.
    rewrite Havail in Hav. by apply elem_of_nil in Hav. }
  destruct (Proxy.key_proxy_bindings pm !! api_key) as [bound|] eqn:Hbound.
  - case_bool_decide.
    + by intros [= <- <-] _.
    + destruct (Proxy.hash_slot hash api_key (a :: avail)); [|done].
      intros [= <- <-] _. simpl. by rewrite lookup_insert_eq.
  - destruct (Proxy.hash_slot hash api_key (a :: avail)); [|done].
    intros [= <- <-] _. simpl. by rewrite lookup_insert_eq.
Qed.

(** A hash-mode call for a key bound to an available proxy answers with that
    proxy and changes nothing. *)
Lemma get_proxy_for_key_bound choice pm api_key p :
  Proxy.key_proxy_bindings pm !! api_key = Some p →
  Proxy.available pm p →
  Proxy.get_proxy_for_key hash true choice pm api_key = (Some p, pm).
Proof.
  intros Hbound Hav. unfold Proxy.get_proxy_for_key.
  pose proof Hav as [Hin _]. apply get_available_proxies_elem_of in Hav.
  destruct (Proxy.proxies pm) as [|first ps] eqn:Hps; [by apply elem_of_nil in Hin|].
  destruct (Proxy.get_available_proxies pm) as [|a avail] eqn:Havail;
    [by apply elem_of_nil in Hav|].
  rewrite Hbound. by rewrite bool_decide_eq_true_2.
Qed.

Lemma get_proxy_for_key_fields use_hash choice pm api_key :
  let pm' := (Proxy.get_proxy_for_key hash use_hash choice pm api_key).2 in
  Proxy.proxies pm' = Proxy.proxies pm
  ∧ Proxy.disabled_proxies pm' = Proxy.disabled_proxies pm.
Proof.
  intros pm'. subst pm'. unfold Proxy.get_proxy_for_key.
  destruct (Proxy.proxies pm) as [|first ps] eqn:Hps; rewrite <- Hps; [done|].
  destruct (Proxy.get_available_proxies pm) as [|a avail]; [done|].
  destruct use_hash; [|done].
  destruct (Proxy.key_proxy_bindings pm !! api_key) as [bound|].
  - case_bool_decide; [done|]. by destruct (Proxy.hash_slot hash api_key (a :: avail)).
  - by destruct (Proxy.hash_slot hash api_key (a :: avail)).
Qed.

Lemma get_proxy_for_key_other_binding use_hash choice pm api_key k :
  k ≠ api_key →
  Proxy.key_proxy_bindings (Proxy.get_proxy_for_key hash use_hash choice pm api_key).2 !! k
  = Proxy.key_proxy_bindings pm !! k.
Proof.
  intros Hne. unfold Proxy.get_proxy_for_key.
  destruct (Proxy.proxies pm) as [|first ps]; [done|].
  destruct (Proxy.get_available_proxies pm) as [|a avail]; [done|].
  destruct use_hash; [|done].
  destruct (Proxy.key_proxy_bindings pm !! api_key) as [bound|].
  - case_bool_decide; [done|].
    destruct (Proxy.hash_slot hash api_key (a :: avail)); simpl.
    + by rewrite lookup_insert_ne, lookup_delete_ne.
    + by rewrite lookup_delete_ne.
  - destruct (Proxy.hash_slot hash api_key (a :: avail)); simpl; [|done].
    by rewrite lookup_insert_ne.
Qed.

(** A binding survives every operation that neither clears it explicitly nor
    leaves its proxy unavailable. *)
Lemma step_keeps_binding pm (o : Proxy.op) k p :
  Proxy.key_proxy_bindings pm !! k = Some p →
  ¬ Proxy.clears_binding k o →
  Proxy.available (Proxy.step hash pm o) p →
  Proxy.key_proxy_bindings (Proxy.step hash pm o) !! k = Some p.
Proof.
  intros Hbound Hclear.
  destruct o as [new_proxies|st new_proxies|use_hash choice api_key|proxy|proxy|proxy|
                 |proxy|proxy|proxy now|api_key]; cbn [Proxy.step].
  - intros [Hin _]. apply reload_proxies_bindings. split; [done|]. intros _. apply Hin.
  - intros [Hin _].
    change (Proxy.key_proxy_bindings (Proxy.reload_proxies pm new_proxies) !! k = Some p).
    apply reload_proxies_bindings. split; [done|]. intros _. apply Hin.
  - destruct (decide (k = api_key)) as [->|Hne];
      [|by rewrite get_proxy_for_key_other_binding].
    destruct (get_proxy_for_key_fields use_hash choice pm api_key) as [Hps Hdis].
    intros [Hin Hnd]. rewrite Hps in Hin. rewrite Hdis in Hnd.
    destruct use_hash.
    + by rewrite (get_proxy_for_key_bound choice pm api_key p).
    + unfold Proxy.get_proxy_for_key.
      destruct (Proxy.proxies pm); [done|].
      by destruct (Proxy.get_available_proxies pm).
  - unfold Proxy.record_proxy_failure. destruct (negb (truthy proxy)); [done|].
    destruct (Proxy.proxy_failure_counts pm !! proxy) as [c|]; [|done].
    case_bool_decide; [|done]. simpl. intros [_ Hnd].
    apply unbind_proxy_lookup_other; [done | set_solver].
  - unfold Proxy.record_proxy_success. destruct (negb (truthy proxy)); [done|].
    destruct (Proxy.proxy_failure_counts pm !! proxy) as [c|]; [|done].
    by case_bool_decide.
  - unfold Proxy.reset_proxy. by destruct (Proxy.proxy_failure_counts pm !! proxy).
  - destruct Hclear. by left.
  - unfold Proxy.disable_proxy. case_bool_decide; [|done]. simpl. intros [_ Hnd].
    apply unbind_proxy_lookup_other; [done | set_solver].
  - unfold Proxy.enable_proxy. by case_bool_decide.
  - done.
  - unfold Proxy.unbind_key_from_proxy.
    destruct (Proxy.key_proxy_bindings pm !! api_key) as [p0|]; [|done].
    intros _. simpl. rewrite lookup_delete_ne; [done|].
    intros ->. destruct Hclear. by right.
Qed.

Lemma run_keeps_binding pm (os : list Proxy.op) k p :
  Proxy.key_proxy_bindings pm !! k = Some p →
  Forall (λ o, ¬ Proxy.clears_binding k o) os →
  (∀ n : nat, Proxy.available (Proxy.run hash pm (take n os)) p) →
  Proxy.key_proxy_bindings (Proxy.run hash pm os) !! k = Some p.
Proof.
  revert pm. induction os as [|o os IH]; intros pm Hbound Hclear Hav; [done|].
  apply Forall_cons in Hclear as [Ho Hos].
  unfold Proxy.run. cbn [foldl]. apply IH; [|done|].
  - apply step_keeps_binding; [done..|]. apply (Hav 1%nat).
  - intros n. apply (Hav (S n)).
Qed.

End ProxyFacts.

(** C9.  Every [ProxyManager] operation preserves the invariant that no key
    binding points to a disabled proxy; a manager starts with no binding, so
    the invariant holds after any sequence of operations. *)
Theorem proxy_operations_keep_bindings_off_disabled (hash : string → Z)
    (pm : Proxy.ProxyManager) (o : Proxy.op) :
  Proxy.no_binding_to_disabled pm →
  Proxy.no_binding_to_disabled (Proxy.step hash pm o)
  ∧ ∀ st ps os, Proxy.no_binding_to_disabled (Proxy.run hash (Proxy.init st ps) os).
Proof.
  intros Hinv. split; [by apply step_no_binding_to_disabled|].
  intros st ps os. unfold Proxy.run. induction os as [|o' os IH] using rev_ind.
  - apply init_no_binding_to_disabled.
  - rewrite foldl_app. simpl. by apply step_no_binding_to_disabled.
Qed.

Lemma proxy_operations_keep_bindings_off_disabled_witness :
  let pm :=
    Proxy.mkProxyManager ["p1"; "p2"]%string
      (<["p1"%string := 1]> (<["p2"%string := 0]> ∅)) ∅
      {["k"%string := "p1"%string]} 2 ∅ in
  Proxy.no_binding_to_disabled (Proxy.step (λ _, 1) pm (Proxy.OpRecordFailure "p1"%string)).
Proof.
  intros pm.
  apply (proxy_operations_keep_bindings_off_disabled (λ _, 1) pm
           (Proxy.OpRecordFailure "p1"%string)).
  intros api_key proxy. simpl. intros _. set_solver.
Defined.

(** C4, as claimed, fails: the result of [record_proxy_failure] is not tied
    to the transition.  With [MAX_FAILURES = 1] the first failure of [p1]
    disables it, and the second call, on the already disabled proxy, answers
    [True] again. *)
Lemma record_proxy_failure_true_without_transition :
  let st := mkSettings 3 3 1 true in
  let pm0 := Proxy.init st ["p1"; "p2"]%string in
  let pm1 := (Proxy.record_proxy_failure pm0 "p1"%string).2 in
  let second := Proxy.record_proxy_failure pm1 "p1"%string in
  second.1 = true
  ∧ ¬ Proxy.caused_disable pm1 second.2 "p1"%string
  ∧ (Proxy.record_failures 2 pm0 "p1"%string).1 = [true; true].
Proof.
  intros st pm0 pm1 second. split_and!.
  - by vm_compute.
  - intros [Hnot _]. apply Hnot. by_compute.
  - by vm_compute.
Qed.

(** C4, amended.  For a proxy known to the manager, [record_proxy_failure]
    adds one to its failure count and answers [True] exactly when the new
    count has reached [MAX_FAILURES].  When it has, the proxy is in the
    disabled set after the call, no binding points to it and the other
    bindings are kept; when it has not, disabled set and bindings are
    unchanged, so a proxy disabled by [disable_proxy] stays disabled while
    the call answers [False].  The call takes the proxy from enabled to
    disabled exactly when the new count has reached [MAX_FAILURES] and the
    proxy was not disabled before: the answer [True] follows from that
    transition but does not single it out.  Over consecutive calls the answer
    is [False] up to the call that reaches the threshold and [True] for that
    call and every later one.  For the empty string or a proxy without a
    count the call answers [False] and changes nothing. *)
Theorem record_proxy_failure_reports_threshold (pm : Proxy.ProxyManager)
    (proxy : string) :
  (proxy = ""%string ∨ Proxy.proxy_failure_counts pm !! proxy = None →
   Proxy.record_proxy_failure pm proxy = (false, pm))
  ∧ ∀ c : Z,
      proxy ≠ ""%string →
      Proxy.proxy_failure_counts pm !! proxy = Some c →
      (∃ pm',
         Proxy.record_proxy_failure pm proxy
           = (bool_decide (Proxy.MAX_FAILURES pm <= c + 1), pm')
         ∧ Proxy.proxy_failure_counts pm' !! proxy = Some (c + 1)
         ∧ (Proxy.MAX_FAILURES pm <= c + 1 →
            proxy ∈ Proxy.disabled_proxies pm'
            ∧ (∀ api_key, Proxy.key_proxy_bindings pm' !! api_key ≠ Some proxy)
            ∧ (∀ api_key p, p ≠ proxy →
                 Proxy.key_proxy_bindings pm !! api_key = Some p →
                 Proxy.key_proxy_bindings pm' !! api_key = Some p))
         ∧ (c + 1 < Proxy.MAX_FAILURES pm →
            Proxy.disabled_proxies pm' = Proxy.disabled_proxies pm
            ∧ Proxy.key_proxy_bindings pm' = Proxy.key_proxy_bindings pm)
         ∧ (Proxy.caused_disable pm pm' proxy
            ↔ Proxy.MAX_FAILURES pm <= c + 1 ∧ proxy ∉ Proxy.disabled_proxies pm))
      ∧ ∀ n : nat,
          (Proxy.record_failures n pm proxy).1
          = (λ i : nat, bool_decide (Proxy.MAX_FAILURES pm <= c + Z.of_nat i + 1))
              <$> seq 0 n.
Proof.
  split.
  { intros Hunknown. unfold Proxy.record_proxy_failure, truthy.
    destruct Hunknown as [->|Hnone]; [done|].
    case_bool_decide; [|done]. simpl. by rewrite Hnone. }
  intros c Hne Hc. split; [|intros n; by apply record_failures_results].
  destruct (record_proxy_failure_known pm proxy c Hne Hc)
    as (pm' & Hcall & _ & _ & Hcounts & Hdis & Hkeep).
  exists pm'. split; [done|]. split_and!.
  - by rewrite Hcounts, lookup_insert_eq.
  - intros Hge. destruct (Hdis Hge) as [-> ->]. split_and!.
    + set_solver.
    + intros api_key. apply unbind_proxy_gone.
    + intros api_key p Hp Hb. by apply unbind_proxy_lookup_other.
  - done.
  - unfold Proxy.caused_disable.
    destruct (decide (Proxy.MAX_FAILURES pm <= c + 1)) as [Hge|Hlt].
    + destruct (Hdis Hge) as [-> _]. set_solver.
    + destruct (Hkeep ltac:(lia)) as [-> _]. tauto.
Qed.

Lemma record_proxy_failure_reports_threshold_witness :
  let st := mkSettings 3 3 2 true in
  let pm := Proxy.init st ["p1"; "p2"]%string in
  let switched_off := Proxy.disable_proxy pm "p2"%string in
  (Proxy.record_failures 4 pm "p1"%string).1 = [false; true; true; true]
  ∧ Proxy.record_proxy_failure pm "p9"%string = (false, pm)
  ∧ (Proxy.record_proxy_failure switched_off "p2"%string).1 = false
  ∧ "p2"%string ∈ Proxy.disabled_proxies
                     (Proxy.record_proxy_failure switched_off "p2"%string).2.
Proof.
  intros st pm switched_off.
  assert (Hne : "p1"%string ≠ ""%string) by done.
  assert (Hne2 : "p2"%string ≠ ""%string) by done.
  assert (Hc : Proxy.proxy_failure_counts pm !! "p1"%string = Some 0) by by vm_compute.
  assert (Hc2 : Proxy.proxy_failure_counts switched_off !! "p2"%string = Some 0)
    by by vm_compute.
  assert (Hnone : Proxy.proxy_failure_counts pm !! "p9"%string = None) by by vm_compute.
  assert (Hoff : Proxy.record_proxy_failure switched_off "p2"%string
                 = (false, (Proxy.record_proxy_failure switched_off "p2"%string).2)
                 ∧ "p2"%string ∈ Proxy.disabled_proxies
                                    (Proxy.record_proxy_failure switched_off "p2"%string).2).
  { destruct (record_proxy_failure_reports_threshold switched_off "p2"%string)
      as [_ Hknown].
    destruct (Hknown 0 Hne2 Hc2) as [(pm' & Hcall & _ & _ & Hbelow & _) _].
    rewrite Hcall. cbn [snd]. destruct Hbelow as [-> _]; [by vm_compute|].
    split; [by vm_compute | by_compute]. }
  split_and!.
  - destruct (record_proxy_failure_reports_threshold pm "p1"%string) as [_ Hknown].
    destruct (Hknown 0 Hne Hc) as [_ Hcalls].
    rewrite Hcalls. by vm_compute.
  - destruct (record_proxy_failure_reports_threshold pm "p9"%string) as [Hunknown _].
    apply Hunknown. by right.
  - destruct Hoff as [-> _]. done.
  - by destruct Hoff as [_ Hin].
Defined.

(** C8, as claimed, fails: a binding can be dropped while its proxy stays
    available.  With [p1] disabled the key [k] (hash 1) is bound to [p3], the
    second of the two available proxies; [reset_all_proxies] clears every
    binding, [p3] is still available, and the next call binds [k] to [p2],
    the second of the three proxies now available. *)
Lemma proxy_for_key_changes_while_proxy_available :
  let hash := λ _ : string, 1 in
  let st := mkSettings 3 3 3 true in
  let pm0 := Proxy.disable_proxy (Proxy.init st ["p1"; "p2"; "p3"]%string) "p1"%string in
  let first := Proxy.get_proxy_for_key hash true 0 pm0 "k"%string in
  let pm2 := Proxy.run hash first.2 [Proxy.OpResetAll] in
  first.1 = Some "p3"%string
  ∧ Proxy.key_proxy_bindings first.2 !! "k"%string = Some "p3"%string
  ∧ Proxy.available first.2 "p3"%string
  ∧ Proxy.available pm2 "p3"%string
  ∧ (Proxy.get_proxy_for_key hash true 0 pm2 "k"%string).1 = Some "p2"%string.
Proof.
  intros hash st pm0 first pm2.
  split_and!; [by vm_compute | by vm_compute | by_compute | by_compute | by vm_compute].
Qed.

(** C8, amended.  In consistency-hash mode, once a call of
    [get_proxy_for_key] has answered [k] with an available proxy, every later
    call for [k] answers with the same proxy and leaves the state unchanged,
    as long as that proxy stays listed and enabled and the binding is not
    cleared explicitly ([reset_all_proxies], [unbind_key_from_proxy(k)]). *)
Theorem proxy_for_key_sticky (hash : string → Z) (pm pm1 : Proxy.ProxyManager)
    (k p : string) (choice choice' : nat) (os : list Proxy.op) :
  Proxy.get_proxy_for_key hash true choice pm k = (Some p, pm1) →
  Proxy.available pm1 p →
  Forall (λ o, ¬ Proxy.clears_binding k o) os →
  (∀ n : nat, Proxy.available (Proxy.run hash pm1 (take n os)) p) →
  Proxy.get_proxy_for_key hash true choice' (Proxy.run hash pm1 os) k
  = (Some p, Proxy.run hash pm1 os).
Proof.
  intros Hfirst Hav Hclear Hkeeps.
  apply get_proxy_for_key_bound.
  - apply run_keeps_binding; [|done..]. by eapply get_proxy_for_key_binds.
  - specialize (Hkeeps (length os)). by rewrite take_ge in Hkeeps.
Qed.

Lemma proxy_for_key_sticky_witness :
  let hash := λ _ : string, 1 in
  let st := mkSettings 3 3 2 true in
  let pm := Proxy.init st ["p1"; "p2"; "p3"]%string in
  let os := [Proxy.OpRecordFailure "p1"%string; Proxy.OpRecordFailure "p1"%string;
             Proxy.OpDisable "p3"%string;
             Proxy.OpGetProxyForKey true 0 "other"%string] in
  let pm1 := (Proxy.get_proxy_for_key hash true 0 pm "k"%string).2 in
  (Proxy.get_proxy_for_key hash true 0 pm "k"%string).1 = Some "p2"%string
  ∧ Proxy.get_available_proxies (Proxy.run hash pm1 os) = ["p2"%string]
  ∧ (Proxy.get_proxy_for_key hash true 0 (Proxy.run hash pm1 os) "k"%string).1
    = Some "p2"%string.
Proof.
  intros hash st pm os pm1.
  assert (Hfirst : Proxy.get_proxy_for_key hash true 0 pm "k"%string
                   = (Some "p2"%string, pm1)) by (by vm_compute).
  assert (Hav : Proxy.available pm1 "p2"%string) by by_compute.
  assert (Hclear : Forall (λ o, ¬ Proxy.clears_binding "k"%string o) os).
  { repeat apply Forall_cons_2; [| | | |apply Forall_nil_2]; by intros [?|?]. }
  assert (Hkeeps : ∀ n : nat, Proxy.available (Proxy.run hash pm1 (take n os)) "p2"%string).
  { intros n. destruct (decide (n < 4)%nat) as [Hlt|Hge].
    - do 4 (destruct n as [|n]; [by_compute|]). lia.
    - rewrite take_ge by (simpl; lia). by_compute. }
  pose proof (proxy_for_key_sticky hash pm pm1 "k"%string "p2"%string 0%nat 0%nat os
                Hfirst Hav Hclear Hkeeps) as Hsticky.
  split_and!; [by vm_compute | by vm_compute | by rewrite Hsticky].
Defined.

(** * Facts about provider reload *)

Section ProviderFacts.

Variable st : Settings.

Implicit Types (config : Provider.ProviderConfig) (pkm : Provider.ProviderKeyManager).

Lemma restore_fold_lookup (old_counts c0 : gmap string Z) (keys : list string) key :
  foldl (λ c k, match old_counts !! k with
                | Some v => <[k := v]> c
                | None => c
                end) c0 keys !! key
  = if decide (key ∈ keys)
    then match old_counts !! key with
         | Some v => Some v
         | None => c0 !! key
         end
    else c0 !! key.
Proof.
  revert c0. induction keys as [|k keys IH]; intros c0.
  - by rewrite decide_False by set_solver.
  - cbn [foldl]. rewrite IH.
    destruct (decide (key = k)) as [->|Hne].
    + rewrite (decide_True (P := k ∈ k :: keys)) by set_solver.
      destruct (old_counts !! k) as [v|] eqn:Hold.
      * case_decide; [done|]. by rewrite lookup_insert_eq.
      * by case_decide.
    + destruct (decide (key ∈ keys)), (decide (key ∈ k :: keys)); try set_solver.
      * destruct (old_counts !! key); [done|].
        destruct (old_counts !! k); [by rewrite lookup_insert_ne | done].
      * destruct (old_counts !! k); [by rewrite lookup_insert_ne | done].
Qed.

(** The counts of a reloaded manager: for a key of the new configuration, the
    preserved count if the provider had one for it, zero otherwise; no entry
    for any other key. *)
Lemma reloaded_manager_lookup (preserved : gmap string (gmap string Z)) config key :
  Key.key_failure_counts (Provider.reloaded_manager st preserved config) !! key
  = if decide (key ∈ Provider.api_keys config)
    then Some (default 0 (preserved !! Provider.name config ≫= (.!! key)))
    else None.
Proof.
  unfold Provider.reloaded_manager.
  destruct (preserved !! Provider.name config) as [old_counts|]; simpl.
  - rewrite restore_fold_lookup. fold (Key.zero_counts (Provider.api_keys config)).
    rewrite zero_counts_lookup. case_decide; [|done].
    by destruct (old_counts !! key).
  - rewrite zero_counts_lookup. by case_decide.
Qed.

Lemma reloaded_manager_fields (preserved : gmap string (gmap string Z)) config :
  Key.api_keys (Provider.reloaded_manager st preserved config) = Provider.api_keys config
  ∧ Key.MAX_FAILURES (Provider.reloaded_manager st preserved config)
    = Provider.max_failures config
  ∧ Key.key_cycle (Provider.reloaded_manager st preserved config) = 0%nat.
Proof.
  unfold Provider.reloaded_manager. by destruct (preserved !! Provider.name config).
Qed.

Lemma reload_one_other (preserved : gmap string (gmap string Z)) pkm config n :
  Provider.name config ≠ n ∨ ¬ Provider.registrable config →
  Provider._managers (Provider.reload_one st preserved pkm config) !! n
  = Provider._managers pkm !! n.
Proof.
  intros Hother. unfold Provider.reload_one.
  destruct (Provider.enabled config) eqn:Hen; [|done]. simpl.
  destruct (Provider.api_keys config) as [|k keys] eqn:Hkeys; [done|]. simpl.
  destruct Hother as [Hne|Hnot].
  - by rewrite lookup_insert_ne.
  - destruct Hnot. split; [done|]. by rewrite Hkeys.
Qed.

Lemma foldl_reload_other (preserved : gmap string (gmap string Z)) pkm
    (configs : list Provider.ProviderConfig) n :
  (∀ config, config ∈ configs →
             Provider.name config ≠ n ∨ ¬ Provider.registrable config) →
  Provider._managers (foldl (Provider.reload_one st preserved) pkm configs) !! n
  = Provider._managers pkm !! n.
Proof.
  revert pkm. induction configs as [|c configs IH]; intros pkm Hall; [done|].
  cbn [foldl]. rewrite IH by (intros; apply Hall; set_solver).
  apply reload_one_other, Hall. set_solver.
Qed.

Lemma foldl_reload_hit (preserved : gmap string (gmap string Z)) pkm
    (configs : list Provider.ProviderConfig) config :
  NoDup (Provider.name <$> configs) →
  config ∈ configs → Provider.registrable config →
  Provider._managers (foldl (Provider.reload_one st preserved) pkm configs)
    !! Provider.name config
  = Some (Provider.reloaded_manager st preserved config).
Proof.
  revert pkm. induction configs as [|c configs IH]; intros pkm Hnodup Hin Hreg.
  { by apply elem_of_nil in Hin. }
  rewrite fmap_cons in Hnodup. apply NoDup_cons in Hnodup as [Hfresh Hnodup].
  cbn [foldl]. apply elem_of_cons in Hin as [->|Hin]; [|by apply IH].
  rewrite foldl_reload_other.
  - unfold Provider.reload_one. destruct Hreg as [-> Hkeys]. simpl.
    destruct (Provider.api_keys c); [done|]. simpl. by rewrite lookup_insert_eq.
  - intros c' Hc'. left. intros Heq. apply Hfresh. rewrite <- Heq.
    by apply list_elem_of_fmap_2.
Qed.

(** A provider absent from the new configuration, or present only in
    entries that are disabled or without keys, has no manager after reload:
    its counts are gone with it. *)
Lemma reload_providers_drops_provider pkm (configs : list Provider.ProviderConfig) n :
  (∀ config, config ∈ configs →
             Provider.name config ≠ n ∨ ¬ Provider.registrable config) →
  Provider.get_manager (Provider.reload_providers st pkm configs) n = None.
Proof.
  intros Hall. unfold Provider.get_manager, Provider.reload_providers.
  by rewrite foldl_reload_other.
Qed.

(** The inheritance step of the singleton [get_key_manager_instance] does the
    same: a key of the new pool takes its preserved count, or zero. *)
Lemma inherit_failure_counts_lookup (preserved : gmap string Z) (km : Key.KeyManager) key :
  preserved ≠ ∅ →
  Key.key_failure_counts (Provider.inherit_failure_counts preserved km) !! key
  = if decide (key ∈ Key.api_keys km)
    then Some (default 0 (preserved !! key))
    else None.
Proof.
  intros Hne. unfold Provider.inherit_failure_counts.
  rewrite bool_decide_eq_false_2 by done. simpl. clear Hne.
  induction preserved as [|k v m Hk Hfold IH] using map_first_key_ind.
  - rewrite map_fold_empty, zero_counts_lookup. by case_decide.
  - rewrite map_fold_insert_first_key by done.
    destruct (decide (key = k)) as [Heq|Hkey].
    + subst k. rewrite lookup_insert_eq. simpl. rewrite Hk in IH.
      destruct (decide (key ∈ Key.api_keys km)).
      * rewrite IH. by rewrite lookup_insert_eq.
      * by rewrite IH.
    + rewrite (lookup_insert_ne m) by done.
      destruct (map_fold _ _ m !! k) as [c|] eqn:Hcur; [|done].
      by rewrite lookup_insert_ne.
Qed.

(** [__init__] gives every key of the pool, and no other, a count. *)
Lemma init_counts_cover keys : Key.counts_cover (Key.init st keys).
Proof.
  intros key. simpl. rewrite zero_counts_lookup. case_decide; split; try done.
Qed.

Lemma reloaded_manager_counts_cover (preserved : gmap string (gmap string Z)) config :
  Key.counts_cover (Provider.reloaded_manager st preserved config).
Proof.
  intros key. rewrite reloaded_manager_lookup.
  destruct (reloaded_manager_fields preserved config) as (-> & _).
  case_decide; split; try done; by intros [? ?].
Qed.

End ProviderFacts.

(** What [reload_providers] carries over.  After the call, the manager of a
    provider of the new configuration holds, for each key of the new
    configuration: the failure count the provider's previous manager had for
    it, when the key was in the old pool as well; zero, when the provider is new or the key was not in
    its old pool.  Keys that are not in the new configuration have no entry
    any more. *)
Theorem reload_providers_carries_counts (st : Settings)
    (pkm : Provider.ProviderKeyManager) (configs : list Provider.ProviderConfig)
    (config : Provider.ProviderConfig) :
  NoDup (Provider.name <$> configs) →
  config ∈ configs →
  Provider.enabled config = true →
  Provider.api_keys config ≠ [] →
  ∃ km',
    Provider.get_manager (Provider.reload_providers st pkm configs) (Provider.name config)
      = Some km'
    ∧ Key.api_keys km' = Provider.api_keys config
    ∧ (∀ km key,
         Provider.get_manager pkm (Provider.name config) = Some km →
         key ∈ Key.api_keys km → key ∈ Provider.api_keys config →
         Key.get_fail_count km' key = Key.get_fail_count km key)
    ∧ (∀ key,
         key ∈ Provider.api_keys config →
         match Provider.get_manager pkm (Provider.name config) with
         | Some km => Key.counts_cover km ∧ key ∉ Key.api_keys km
         | None => True
         end →
         Key.key_failure_counts km' !! key = Some 0)
    ∧ (∀ key,
         key ∉ Provider.api_keys config →
         Key.key_failure_counts km' !! key = None).
Proof.
  intros Hnodup Hin Hen Hkeys.
  exists (Provider.reloaded_manager st (Key.key_failure_counts <$> Provider._managers pkm)
            config).
  split; [|split_and!].
  - unfold Provider.get_manager, Provider.reload_providers.
    by apply foldl_reload_hit.
  - apply reloaded_manager_fields.
  - intros km key Hold _ Hnew. unfold Key.get_fail_count at 1.
    rewrite reloaded_manager_lookup, decide_True by done.
    unfold Provider.get_manager in Hold. by rewrite lookup_fmap, Hold.
  - intros key Hnew Hold. rewrite reloaded_manager_lookup, decide_True by done.
    unfold Provider.get_manager in Hold. rewrite lookup_fmap.
    destruct (Provider._managers pkm !! Provider.name config) as [km|]; [|done].
    simpl. destruct Hold as [Hcover Hnot].
    destruct (Key.key_failure_counts km !! key) as [c|] eqn:Hc; [|done].
    destruct Hnot. apply Hcover. by rewrite Hc.
  - intros key Hgone. by rewrite reloaded_manager_lookup, decide_False.
Qed.

Lemma reload_providers_carries_counts_witness :
  let st := mkSettings 3 3 3 true in
  let provider keys :=
    Provider.mkProviderConfig "A" "a" "https://upstream.example/v1" keys
      "" ∅ 300 3 3 "gpt-4o-mini" true in
  let old_manager :=
    Key.run st (Provider.new_manager st (provider ["k1"; "k2"]%string))
            [Key.OpHandleApiFailure "k1"%string 1;
             Key.OpHandleApiFailure "k1"%string 2] in
  let pkm :=
    Provider.mkProviderKeyManager {["A"%string := old_manager]}
      {["A"%string := provider ["k1"; "k2"]%string]} in
  ∃ km',
    Provider.get_manager
      (Provider.reload_providers st pkm [provider ["k1"; "k3"]%string]) "A"%string
      = Some km'
    ∧ Key.get_fail_count km' "k1"%string = 2
    ∧ Key.key_failure_counts km' !! "k3"%string = Some 0
    ∧ Key.key_failure_counts km' !! "k2"%string = None.
Proof.
  intros st provider old_manager pkm.
  destruct (reload_providers_carries_counts st pkm [provider ["k1"; "k3"]%string]
              (provider ["k1"; "k3"]%string))
    as (km' & Hget & _ & Hboth & Hnew & Hgone).
  - simpl. apply NoDup_singleton.
  - apply list_elem_of_singleton. reflexivity.
  - reflexivity.
  - simpl. discriminate.
  - exists km'. split; [exact Hget|]. split_and!.
    + rewrite (Hboth old_manager "k1"%string).
      * by vm_compute.
      * by vm_compute.
      * by_compute.
      * by_compute.
    + apply Hnew; [by_compute|].
      replace (Provider.get_manager pkm (Provider.name (provider ["k1"; "k3"]%string)))
        with (Some old_manager) by (by vm_compute).
      split; [|by_compute].
      unfold old_manager, Key.run. cbn [foldl].
      do 2 apply step_counts_cover.
      exact (init_counts_cover st ["k1"; "k2"]%string).
    + apply Hgone. by_compute.
Defined.

(** C5.  The reload does not always keep the failure counts.  When
    [PROVIDERS_CONFIG] is empty the gateway runs on the provider ["default"]
    built from [settings.API_KEYS].  After [settings.API_KEYS] changes from
    [k1, k2] to [k1, k3], [reload_config] takes the branch that clears the
    key manager and registers the default provider anew: the key [k1], which
    is in the old and in the new configuration of the same provider and had
    two failures, comes out with none, where the docstring of [reload_config]
    says that the failure counts of the existing providers are kept. *)
Theorem reload_config_resets_default_provider_counts :
  let st := mkSettings 3 3 3 true in
  let env keys := Manager.mkEnv st "default" [] keys "https://api.openai.com/v1" ∅ 300 in
  let before := Manager.default_config (env ["k1"; "k2"]%string) in
  let initialized km :=
    {| Manager._services := [("default"%string, {| Manager.config := before |})];
       Manager._key_manager :=
         Some {| Provider._managers := {[ "default"%string := km ]};
                 Provider._configs := {[ "default"%string := before ]} |};
       Manager._default_provider := "default";
       Manager._initialized := true |} in
  let old_manager :=
    Key.run st (Provider.new_manager st before)
            [Key.OpHandleApiFailure "k1"%string 1;
             Key.OpHandleApiFailure "k1"%string 2] in
  let reloaded :=
    Manager.reload_config (env ["k1"; "k3"]%string) (initialized old_manager) in
  let new_manager :=
    Manager._key_manager reloaded.1
      ≫= λ pkm', Provider.get_manager pkm' "default"%string in
  Manager.initialize (env ["k1"; "k2"]%string) Provider.empty Manager.init
  = (initialized (Provider.new_manager st before), None)
  ∧ Key.get_fail_count old_manager "k1"%string = 2
  ∧ reloaded.2 = None
  ∧ Key.api_keys <$> new_manager = Some ["k1"; "k3"]%string
  ∧ (λ km', Key.get_fail_count km' "k1"%string) <$> new_manager = Some 0.
Proof. split_and!; by vm_compute. Qed.


(** * Facts about the streaming retry loop *)

Section StreamFacts.

Variable st : Settings.
Variable config : Provider.ProviderConfig.
Variable upstream : Z → string → Stream.Upstream.

Implicit Types (km : Key.KeyManager) (evs : list Stream.Event).

Lemma handle_api_failure_total km api_key (retries : Z) :
  ∃ new_api_key km',
    Key.handle_api_failure st km api_key retries = Some (new_api_key, km').
Proof.
  unfold Key.handle_api_failure. case_bool_decide; [|by eauto].
  destruct (get_next_working_key_total (Key.record_failure km api_key))
    as (key & km' & -> & _). eauto.
Qed.

Lemma yielded_app evs1 evs2 :
  Stream.yielded (evs1 ++ evs2) = Stream.yielded evs1 ++ Stream.yielded evs2.
Proof. apply omap_app. Qed.

Lemma requests_app evs1 evs2 :
  Stream.requests (evs1 ++ evs2) = Stream.requests evs1 ++ Stream.requests evs2.
Proof. apply omap_app. Qed.

Lemma yielded_Yield (cs : list string) : Stream.yielded (Stream.Yield <$> cs) = cs.
Proof. unfold Stream.yielded. induction cs as [|c cs IH]; [done|]. simpl. by f_equal. Qed.

Lemma requests_Yield (cs : list string) : Stream.requests (Stream.Yield <$> cs) = [].
Proof. unfold Stream.requests. induction cs as [|c cs IH]; [done|]. by simpl. Qed.

Lemma yielded_Request retries key evs :
  Stream.yielded (Stream.Request retries key :: evs) = Stream.yielded evs.
Proof. done. Qed.

Lemma requests_Request retries key evs :
  Stream.requests (Stream.Request retries key :: evs)
  = (retries, key) :: Stream.requests evs.
Proof. done. Qed.

Lemma failed_attempt_events_yielded retries key cs e :
  Stream.yielded (Stream.failed_attempt_events retries key cs e) = cs.
Proof.
  unfold Stream.failed_attempt_events.
  rewrite yielded_app, yielded_Request, yielded_Yield. simpl. apply app_nil_r.
Qed.

Lemma failed_attempt_events_requests retries key cs e :
  Stream.requests (Stream.failed_attempt_events retries key cs e) = [(retries, key)].
Proof.
  unfold Stream.failed_attempt_events.
  rewrite requests_app, requests_Request, requests_Yield. done.
Qed.

(** The chunks of a 200 response are its non-empty lines, a line feed
    appended to each; any other attempt contributes no chunk. *)
Lemma chunks_of_lines (rq : Z * string) :
  Stream.chunks_of upstream rq
  = match upstream rq.1 rq.2 with
    | Stream.Responds status_code _ lines _ =>
        if bool_decide (status_code = 200)
        then (λ line, line +:+ LF) <$> List.filter truthy lines
        else []
    | Stream.ConnectionFails _ => []
    end.
Proof.
  unfold Stream.chunks_of, Stream.attempt.
  destruct (upstream rq.1 rq.2) as [e|status_code body lines broken]; [done|].
  destruct (decide (status_code = 200)) as [->|Hcode].
  - done.
  - by rewrite bool_decide_eq_true_2, bool_decide_eq_false_2.
Qed.

(** The loop, one iteration unfolded, in terms of what the attempt did. *)
Lemma stream_loop_unfold (fuel : nat) (retries : Z) key km :
  retries < Provider.max_retries config →
  Stream.stream_loop st config upstream (S fuel) retries key km
  = match Stream.attempt (upstream retries key) with
    | (cs, None) =>
        {| Stream.events :=
             (Stream.Request retries key :: (Stream.Yield <$> cs))
               ++ [Stream.RequestLog key true (PInt 200)];
           Stream.outcome := Stream.Completed; Stream.final_km := km |}
    | (cs, Some e) =>
        match Key.handle_api_failure st km key (retries + 1) with
        | None =>
            {| Stream.events := Stream.failed_attempt_events retries key cs e;
               Stream.outcome := Stream.Stuck; Stream.final_km := km |}
        | Some (new_api_key, km') =>
            if negb (truthy new_api_key) then
              {| Stream.events := Stream.failed_attempt_events retries key cs e;
                 Stream.outcome := Stream.Raised e; Stream.final_km := km' |}
            else if bool_decide (retries + 1 >= Provider.max_retries config) then
              {| Stream.events := Stream.failed_attempt_events retries key cs e;
                 Stream.outcome := Stream.Raised e; Stream.final_km := km' |}
            else
              Stream.prepend (Stream.failed_attempt_events retries key cs e)
                (Stream.stream_loop st config upstream fuel (retries + 1)
                   (if bool_decide (new_api_key ≠ key) then new_api_key else key) km')
        end
    end.
Proof.
  intros Hlt. cbn [Stream.stream_loop]. rewrite bool_decide_eq_true_2 by done.
  destruct (Stream.attempt (upstream retries key)) as [cs [e|]]; [|done].
  unfold Stream.failed_attempt_events. rewrite <- !app_assoc.
  destruct (Key.handle_api_failure st km key (retries + 1)) as [[new_api_key km']|];
    [|done].
  destruct (negb (truthy new_api_key)); [done|].
  by case_bool_decide.
Qed.

Lemma stream_loop_done (fuel : nat) (retries : Z) key km :
  ¬ retries < Provider.max_retries config →
  Stream.stream_loop st config upstream fuel retries key km
  = {| Stream.events := []; Stream.outcome := Stream.Completed; Stream.final_km := km |}.
Proof.
  intros Hge. destruct fuel; cbn [Stream.stream_loop];
    by rewrite bool_decide_eq_false_2.
Qed.

(** The chunks delivered are those of the attempts made, attempt after
    attempt. *)
Lemma stream_loop_yielded (fuel : nat) (retries : Z) key km :
  let run := Stream.stream_loop st config upstream fuel retries key km in
  Stream.yielded (Stream.events run)
  = concat (Stream.chunks_of upstream <$> Stream.requests (Stream.events run)).
Proof.
  revert retries key km. induction fuel as [|fuel IH]; intros retries key km.
  { cbn [Stream.stream_loop]. by case_bool_decide. }
  destruct (decide (retries < Provider.max_retries config)) as [Hlt|Hge];
    [|by rewrite stream_loop_done].
  rewrite stream_loop_unfold by done.
  unfold Stream.chunks_of in *.
  destruct (Stream.attempt (upstream retries key)) as [cs [e|]] eqn:Hattempt.
  - assert (Hfailed :
      Stream.yielded (Stream.failed_attempt_events retries key cs e)
      = concat ((λ rq, (Stream.attempt (upstream rq.1 rq.2)).1)
                  <$> Stream.requests (Stream.failed_attempt_events retries key cs e))).
    { rewrite failed_attempt_events_yielded, failed_attempt_events_requests.
      simpl. by rewrite Hattempt, app_nil_r. }
    destruct (Key.handle_api_failure st km key (retries + 1)) as [[new_api_key km']|];
      [|done].
    destruct (negb (truthy new_api_key)); [done|].
    case_bool_decide; [done|].
    unfold Stream.prepend. cbn [Stream.events].
    rewrite yielded_app, requests_app, fmap_app, concat_app.
    by rewrite Hfailed, IH.
  - simpl. rewrite yielded_app, requests_app, yielded_Yield, requests_Yield. simpl.
    by rewrite Hattempt, !app_nil_r.
Qed.

(** With [max_retries - retries] units of fuel the loop never gets stuck. *)
Lemma stream_loop_not_stuck (fuel : nat) (retries : Z) key km :
  Provider.max_retries config - retries <= Z.of_nat fuel →
  Stream.outcome (Stream.stream_loop st config upstream fuel retries key km)
  ≠ Stream.Stuck.
Proof.
  revert retries key km. induction fuel as [|fuel IH]; intros retries key km Hfuel.
  { rewrite stream_loop_done by lia. done. }
  destruct (decide (retries < Provider.max_retries config)) as [Hlt|Hge];
    [|by rewrite stream_loop_done].
  rewrite stream_loop_unfold by done.
  destruct (Stream.attempt (upstream retries key)) as [cs [e|]]; [|done].
  destruct (handle_api_failure_total km key (retries + 1))
    as (new_api_key & km' & ->).
  destruct (negb (truthy new_api_key)); [done|].
  case_bool_decide; [done|]. simpl. apply IH. lia.
Qed.

(** The attempts are numbered [retries], [retries + 1], ... and there are at
    most [max_retries - retries] of them. *)
Lemma stream_loop_requests (fuel : nat) (retries : Z) key km :
  let rqs := Stream.requests
               (Stream.events (Stream.stream_loop st config upstream fuel retries key km)) in
  rqs.*1 = (λ i : nat, retries + Z.of_nat i) <$> seq 0 (length rqs)
  ∧ Z.of_nat (length rqs) <= Z.max 0 (Provider.max_retries config - retries).
Proof.
  revert retries key km. induction fuel as [|fuel IH]; intros retries key km.
  { cbn [Stream.stream_loop]. case_bool_decide; simpl; split; (done || lia). }
  destruct (decide (retries < Provider.max_retries config)) as [Hlt|Hge];
    [|rewrite stream_loop_done by done; simpl; split; (done || lia)].
  rewrite stream_loop_unfold by done.
  assert (Hone : ∀ evs, Stream.requests evs = [(retries, key)] →
    (Stream.requests evs).*1
      = (λ i : nat, retries + Z.of_nat i) <$> seq 0 (length (Stream.requests evs))
    ∧ Z.of_nat (length (Stream.requests evs))
      <= Z.max 0 (Provider.max_retries config - retries)).
  { intros evs ->. simpl. split; [f_equal; lia | lia]. }
  destruct (Stream.attempt (upstream retries key)) as [cs [e|]].
  - pose proof (failed_attempt_events_requests retries key cs e) as Hrq.
    destruct (Key.handle_api_failure st km key (retries + 1)) as [[new_api_key km']|];
      [|by apply Hone].
    destruct (negb (truthy new_api_key)); [by apply Hone|].
    case_bool_decide; [by apply Hone|].
    unfold Stream.prepend. cbn [Stream.events]. rewrite requests_app, Hrq.
    destruct (IH (retries + 1)
                 (if bool_decide (new_api_key ≠ key) then new_api_key else key) km')
      as [Hnum Hlen].
    simpl. split.
    + f_equal; [lia|]. rewrite Hnum at 1.
      rewrite <- fmap_S_seq, <- list_fmap_compose. apply list_fmap_ext.
      intros _ i _. simpl. lia.
    + lia.
  - apply Hone. simpl. rewrite requests_app, requests_Yield. done.
Qed.

(** A further attempt is made only after the previous one has raised. *)
Lemma stream_loop_retries_after_failure (fuel : nat) (retries : Z) key km :
  let rqs := Stream.requests
               (Stream.events (Stream.stream_loop st config upstream fuel retries key km)) in
  ∀ (i : nat) rq, (S i < length rqs)%nat → rqs !! i = Some rq →
                  Stream.failed upstream rq.
Proof.
  revert retries key km. induction fuel as [|fuel IH]; intros retries key km.
  { cbn [Stream.stream_loop]. case_bool_decide; simpl; intros; lia. }
  destruct (decide (retries < Provider.max_retries config)) as [Hlt|Hge];
    [|rewrite stream_loop_done by done; simpl; intros; lia].
  rewrite stream_loop_unfold by done.
  destruct (Stream.attempt (upstream retries key)) as [cs [e|]] eqn:Hattempt.
  - pose proof (failed_attempt_events_requests retries key cs e) as Hrq.
    destruct (Key.handle_api_failure st km key (retries + 1)) as [[new_api_key km']|];
      [|cbn [Stream.events]; rewrite Hrq; simpl; intros; lia].
    destruct (negb (truthy new_api_key));
      [cbn [Stream.events]; rewrite Hrq; simpl; intros; lia|].
    case_bool_decide; [cbn [Stream.events]; rewrite Hrq; simpl; intros; lia|].
    unfold Stream.prepend. cbn [Stream.events].
    rewrite requests_app, Hrq. simpl. intros [|i] rq Hi Hrqi.
    + injection Hrqi as <-. unfold Stream.failed. simpl. by rewrite Hattempt.
    + eapply IH; [|done]. lia.
  - simpl. rewrite requests_app, requests_Yield. simpl. intros; lia.
Qed.

End StreamFacts.

Section CompatFacts.

Variable st : Settings.
Variable upstream : Z → string → Stream.Upstream.

(** The loop of [OpenAICompatiableService] delivers, like the one of
    [ProviderService], the chunks of its attempts one attempt after another. *)
Lemma compat_stream_loop_yielded (fuel : nat) (retries : Z) (key : string)
    (key_manager : option Key.KeyManager) :
  let run := Stream.compat_stream_loop st upstream fuel retries key key_manager in
  Stream.yielded (Stream.compat_events run)
  = concat (Stream.compat_chunks_of upstream
              <$> Stream.requests (Stream.compat_events run)).
Proof.
  revert retries key key_manager.
  induction fuel as [|fuel IH]; intros retries key key_manager;
    cbn [Stream.compat_stream_loop]; (case_bool_decide; [|done]); [done|].
  unfold Stream.compat_chunks_of in *.
  destruct (Stream.compat_attempt (upstream retries key)) as [cs [e|]] eqn:Hattempt.
  - assert (Hleaf : ∀ k2 b2 c2,
      let evs := ((Stream.Request retries key :: (Stream.Yield <$> cs))
                    ++ [Stream.ErrorLog key (error_code_of e) (error_msg_of e)])
                   ++ [Stream.RequestLog k2 b2 c2] in
      Stream.yielded evs
      = concat ((λ rq, (Stream.compat_attempt (upstream rq.1 rq.2)).1)
                  <$> Stream.requests evs)).
    { intros k2 b2 c2 evs. subst evs.
      rewrite !yielded_app, !requests_app, yielded_Request, requests_Request,
        yielded_Yield, requests_Yield. simpl. by rewrite Hattempt, !app_nil_r. }
    destruct key_manager as [km|]; [|by apply Hleaf].
    destruct (Key.handle_api_failure st km key (retries + 1)) as [[new_api_key km']|];
      [|by apply Hleaf].
    destruct (truthy new_api_key); [|by apply Hleaf].
    case_bool_decide; [by apply Hleaf|].
    unfold Stream.compat_prepend. cbn [Stream.compat_events].
    rewrite yielded_app, requests_app, fmap_app, concat_app.
    by rewrite Hleaf, IH.
  - cbn [Stream.compat_events].
    rewrite yielded_app, requests_app, yielded_Request, requests_Request,
      yielded_Yield, requests_Yield. simpl. by rewrite Hattempt, !app_nil_r.
Qed.

End CompatFacts.

(** The retry after the first yield, seen on [OpenAICompatiableService]: a
    first attempt that breaks after [data: a] is followed by a second one, and
    [data: a] is delivered twice. *)
Example compat_stream_retries_after_first_yield :
  let st := mkSettings 3 3 3 true in
  let read_error := mkExc [PStr "peer closed connection"] "peer closed connection" in
  let upstream (retries : Z) (_ : string) :=
    if bool_decide (retries = 0)
    then Stream.Responds 200 "" ["data: a"%string] (Some read_error)
    else Stream.Responds 200 "" ["data: a"; ""; "data: b"]%string None in
  let run :=
    Stream.compat_handle_stream_completion st upstream
      (Some (Key.init st ["k1"%string])) "k1"%string in
  Stream.yielded (Stream.compat_events run)
  = ["data: a" +:+ LF +:+ LF; "data: a" +:+ LF +:+ LF; "data: b" +:+ LF +:+ LF]
  ∧ Stream.compat_outcome run = Stream.Completed.
Proof. by vm_compute. Qed.

(** C7, as claimed, fails: with [max_retries = 0] the loop condition is false
    at once, no request is sent, and the generator ends without an error
    even though the upstream would have failed. *)
Lemma stream_zero_retries_makes_no_attempt :
  let st := mkSettings 3 3 3 true in
  let config :=
    Provider.mkProviderConfig "A" "a" "https://upstream.example/v1" ["k1"%string]
      "" ∅ 300 3 0 "gpt-4o-mini" true in
  let upstream (_ : Z) (_ : string) := Stream.Responds 500 "boom" [] None in
  let run :=
    Stream._handle_stream_completion st config upstream
      (Key.init st ["k1"%string]) "k1"%string in
  Stream.requests (Stream.events run) = []
  ∧ Stream.outcome run = Stream.Completed
  ∧ Stream.failed upstream (0, "k1"%string).
Proof.
  intros st config upstream run. split_and!; [by vm_compute | by vm_compute |].
  unfold Stream.failed. vm_compute. by eexists.
Qed.

(** C7, amended.  [max_retries] is the number of attempts.  With
    [max_retries = 0] (or less) a streaming call sends no request, yields
    nothing and ends without an error.  With [max_retries = 1] it sends
    exactly one request, with the key it was given, and if that attempt
    fails its exception is the one the generator raises. *)
Theorem stream_attempts_bounded_by_max_retries (st : Settings)
    (config : Provider.ProviderConfig) (upstream : Z → string → Stream.Upstream)
    (km : Key.KeyManager) (api_key : string) :
  let run := Stream._handle_stream_completion st config upstream km api_key in
  (Provider.max_retries config <= 0 →
   Stream.events run = [] ∧ Stream.outcome run = Stream.Completed)
  ∧ (Provider.max_retries config = 1 →
     Stream.requests (Stream.events run) = [(0, api_key)]
     ∧ (∀ e, (Stream.attempt (upstream 0 api_key)).2 = Some e →
             Stream.outcome run = Stream.Raised e)
     ∧ ((Stream.attempt (upstream 0 api_key)).2 = None →
        Stream.outcome run = Stream.Completed)).
Proof.
  intros run. subst run. unfold Stream._handle_stream_completion. split.
  - intros Hzero. by rewrite stream_loop_done by lia.
  - intros Hone. rewrite Hone. change (Z.to_nat 1) with 1%nat.
    rewrite stream_loop_unfold by lia.
    destruct (Stream.attempt (upstream 0 api_key)) as [cs [e|]].
    + destruct (handle_api_failure_total st km api_key (0 + 1))
        as (new_api_key & km' & ->).
      pose proof (failed_attempt_events_requests 0 api_key cs e) as Hrq.
      destruct (negb (truthy new_api_key)).
      { split_and!; [done | by intros ? [= ->] | done]. }
      rewrite bool_decide_eq_true_2 by lia.
      split_and!; [done | by intros ? [= ->] | done].
    + cbn [Stream.events Stream.outcome].
      rewrite requests_app, requests_Request, requests_Yield.
      split_and!; done.
Qed.

Lemma stream_attempts_bounded_by_max_retries_witness :
  let st := mkSettings 3 3 3 true in
  let provider retries :=
    Provider.mkProviderConfig "A" "a" "https://upstream.example/v1" ["k1"%string]
      "" ∅ 300 3 retries "gpt-4o-mini" true in
  let upstream (_ : Z) (_ : string) := Stream.Responds 500 "boom" [] None in
  let km := Key.init st ["k1"%string] in
  Stream.events (Stream._handle_stream_completion st (provider 0) upstream km "k1"%string)
  = []
  ∧ Stream.outcome
      (Stream._handle_stream_completion st (provider 1) upstream km "k1"%string)
    = Stream.Raised (http_error 500 "boom").
Proof.
  intros st provider upstream km. split.
  - destruct (stream_attempts_bounded_by_max_retries st (provider 0) upstream km
                "k1"%string) as [Hzero _].
    apply Hzero. simpl. lia.
  - destruct (stream_attempts_bounded_by_max_retries st (provider 1) upstream km
                "k1"%string) as [_ Hone].
    destruct (Hone eq_refl) as (_ & Hraised & _).
    apply Hraised. by vm_compute.
Defined.

(** * Facts about the router's stream handler *)

Section RouterFacts.

Implicit Types (g : Router.Generator).

(** The stream raised before its first chunk, with an integer as first
    argument of the exception: a JSON error body with the raised code as HTTP
    status. *)
Lemma handle_stream_error g (e : PyException) (status_code : Z) :
  Router.chunks g = [] → Router.ending g = Stream.Raised e →
  error_code_of e = PInt status_code →
  Router.handle_stream g
  = Router.JSONResponse (PInt status_code) (error_msg_of e) status_code.
Proof. unfold Router.handle_stream. by intros -> -> ->. Qed.

(** The stream raised before its first chunk, with a string as first
    argument of the exception: no response is built. *)
Lemma handle_stream_error_not_int g (e : PyException) (msg : string) :
  Router.chunks g = [] → Router.ending g = Stream.Raised e →
  error_code_of e = PStr msg →
  Router.handle_stream g = Router.RaisesTypeError.
Proof. unfold Router.handle_stream. by intros -> -> ->. Qed.

(** The exception that the service raises on a response other than 200
    carries the status code of that response. *)
Lemma error_code_of_http_error (status_code : Z) (body : string) :
  error_code_of (http_error status_code body) = PInt status_code
  ∧ error_msg_of (http_error status_code body) = PStr body.
Proof. done. Qed.

(** The stream ended before its first chunk ([StopAsyncIteration]): an event
    stream with an empty body. *)
Lemma handle_stream_exhausted g :
  Router.chunks g = [] → Router.ending g = Stream.Completed →
  Router.handle_stream g = Router.StreamingResponse g "text/event-stream".
Proof. unfold Router.handle_stream. by intros -> ->. Qed.

(** The first chunk starts with [data:]: an event stream whose body is the
    first chunk followed by the rest of the generator. *)
Lemma handle_stream_sse g (first_chunk : string) (rest : list string) :
  Router.chunks g = first_chunk :: rest →
  startswith "data:" first_chunk = true →
  Router.handle_stream g
  = Router.StreamingResponse
      {| Router.chunks := first_chunk :: rest; Router.ending := Router.ending g |}
      "text/event-stream".
Proof. unfold Router.handle_stream. by intros -> ->. Qed.

(** Any other first chunk: the handler falls off the end of the function. *)
Lemma handle_stream_other g (first_chunk : string) (rest : list string) :
  Router.chunks g = first_chunk :: rest →
  startswith "data:" first_chunk = false →
  Router.handle_stream g = Router.ReturnsNone.
Proof. unfold Router.handle_stream. by intros -> ->. Qed.

End RouterFacts.

(** C6.  The first two cases of the claim hold ([handle_stream_error], for
    an exception that carries an integer status code, and
    [handle_stream_sse]); the third does not.  When the first line of the
    stream does not start with [data:], here the SSE comment line an
    upstream sends while the request is queued, the handler returns nothing:
    the first chunk is dropped and no response object is passed through. *)
Theorem handle_stream_returns_none_for_non_data_line :
  let st := mkSettings 3 3 3 true in
  let config :=
    Provider.mkProviderConfig "A" "a" "https://upstream.example/v1" ["k1"%string]
      "" ∅ 300 3 3 "gpt-4o-mini" true in
  let upstream (_ : Z) (_ : string) :=
    Stream.Responds 200 ""
      [": OPENROUTER PROCESSING"; ""; "data: hello"; ""; "data: [DONE]"]%string None in
  let run :=
    Stream._handle_stream_completion st config upstream
      (Key.init st ["k1"%string]) "k1"%string in
  Stream.outcome run = Stream.Completed
  ∧ Stream.yielded (Stream.events run)
    = [": OPENROUTER PROCESSING" +:+ LF; "data: hello" +:+ LF; "data: [DONE]" +:+ LF]
  ∧ Router._handle_chat_completion (Router.Streaming (Router.of_run run))
    = Router.ReturnsNone.
Proof. by vm_compute. Qed.

(** * Further facts about the key pool *)

Section KeyRotation.

Implicit Types (km : Key.KeyManager) (key : string).

Lemma same_pool_key_at km km' (c : nat) :
  Key.same_pool km km' → Key.key_at km' c = Key.key_at km c.
Proof. intros (Hk & _ & _). unfold Key.key_at. by rewrite Hk. Qed.

(** [m] successive draws yield the keys at the cursor positions
    [c], [c + 1], ..., [c + m - 1] of the ring. *)
Lemma get_next_keys_draws (m : nat) km :
  Key.api_keys km ≠ [] →
  ∃ ks km',
    Key.get_next_keys m km = Some (ks, km')
    ∧ length ks = m
    ∧ (∀ i : nat, (i < m)%nat → ks !! i = Key.key_at km (Key.key_cycle km + i))
    ∧ Key.same_pool km km'
    ∧ Key.key_cycle km' = (Key.key_cycle km + m)%nat.
Proof.
  revert km. induction m as [|m IH]; intros km Hne.
  { exists [], km. split_and!; [done | done | intros; lia | apply same_pool_refl | lia]. }
  cbn [Key.get_next_keys].
  destruct (get_next_key_nonempty km Hne) as (k & km1 & Hnext). rewrite Hnext.
  apply get_next_key_Some in Hnext as (Hat & Hsame & Hcur).
  pose proof Hsame as (Hkeys & _ & _).
  destruct (IH km1) as (ks & km' & -> & Hlen & Hks & Hsame' & Hcur'); [by rewrite Hkeys|].
  exists (k :: ks), km'. split_and!; [done | simpl; lia | | by eapply same_pool_trans | lia].
  intros [|i] Hi; simpl.
  - by rewrite Nat.add_0_r.
  - rewrite Hks by lia. rewrite (same_pool_key_at km km1) by done. f_equal. lia.
Qed.

Lemma key_at_rotate km (c i : nat) :
  (i < length (Key.api_keys km))%nat →
  Key.key_at km (c + i) = rotate c (Key.api_keys km) !! i.
Proof.
  intros Hi. rewrite lookup_rotate_r by done. unfold Key.key_at, rotate_nat_add.
  f_equal. rewrite <- Nat2Z.inj_add, <- Nat2Z.inj_mod. by rewrite Nat2Z.id.
Qed.

End KeyRotation.

(** X1.  Round robin: as many successive [get_next_key] calls as the pool
    has keys hand out the whole pool, in pool order starting at the cursor
    (the pool rotated by the cursor), and leave the rotation where it was:
    the call after them returns the same key as a call before them would
    have. *)
Theorem get_next_key_full_turn (km : Key.KeyManager) :
  Key.api_keys km ≠ [] →
  ∃ km',
    Key.get_next_keys (length (Key.api_keys km)) km
      = Some (rotate (Key.key_cycle km) (Key.api_keys km), km')
    ∧ Key.key_failure_counts km' = Key.key_failure_counts km
    ∧ fst <$> Key.get_next_key km' = fst <$> Key.get_next_key km.
Proof.
  intros Hne.
  destruct (get_next_keys_draws (length (Key.api_keys km)) km Hne)
    as (ks & km' & Hdraws & Hlen & Hks & Hsame & Hcur).
  exists km'. split_and!.
  - rewrite Hdraws. do 2 f_equal. apply list_eq. intros i.
    destruct (decide (i < length (Key.api_keys km))%nat) as [Hi|Hi].
    + rewrite Hks by done. by apply key_at_rotate.
    + rewrite !lookup_ge_None_2; [done | rewrite length_rotate; lia | lia].
  - by destruct Hsame as (_ & ? & _).
  - destruct (get_next_key_nonempty km Hne) as (k & km1 & Hk).
    assert (Hne' : Key.api_keys km' ≠ []) by (destruct Hsame as (-> & _); done).
    destruct (get_next_key_nonempty km' Hne') as (k' & km1' & Hk').
    rewrite Hk, Hk'. simpl. f_equal.
    apply get_next_key_Some in Hk as (Hat & _). apply get_next_key_Some in Hk' as (Hat' & _).
    rewrite (same_pool_key_at km km'), Hcur, key_at_ring in Hat' by done. congruence.
Qed.

Lemma get_next_key_full_turn_witness :
  let st := mkSettings 3 3 3 true in
  let km := Key.run st (Key.init st ["k1"; "k2"; "k3"]%string) [Key.OpGetNextKey] in
  fst <$> Key.get_next_keys 3 km = Some ["k2"; "k3"; "k1"]%string.
Proof.
  intros st km.
  assert (Hne : Key.api_keys km ≠ []) by (by vm_compute).
  destruct (get_next_key_full_turn km Hne) as (km' & Hturn & _).
  change 3%nat with (length (Key.api_keys km)). rewrite Hturn. by vm_compute.
Defined.

(** X2.  [get_next_working_key] always returns, after at most one draw per
    key of the pool beyond the first: the empty string, without touching the
    cursor, when the pool is empty, and a key of the pool otherwise.  It
    never changes a failure count or the pool. *)
Theorem get_next_working_key_always_returns (km : Key.KeyManager) :
  ∃ key km',
    Key.get_next_working_key km = Some (key, km')
    ∧ Key.api_keys km' = Key.api_keys km
    ∧ Key.key_failure_counts km' = Key.key_failure_counts km
    ∧ Key.MAX_FAILURES km' = Key.MAX_FAILURES km
    ∧ (Key.key_cycle km ≤ Key.key_cycle km'
       ≤ Key.key_cycle km + length (Key.api_keys km) + 1)%nat
    ∧ (Key.api_keys km = [] → key = ""%string ∧ km' = km)
    ∧ (Key.api_keys km ≠ [] → key ∈ Key.api_keys km).
Proof.
  destruct (get_next_working_key_total km)
    as (key & km' & Hret & (Hk & Hc & Hm) & Hrange & Hempty & Hpool).
  exists key, km'. split_and!; try done.
  - revert Hret. unfold Key.get_next_working_key.
    destruct (Key.api_keys km) as [|k0 keys] eqn:Hkeys; [by intros [= _ <-]|].
    assert (Hne : Key.api_keys km ≠ []) by by rewrite Hkeys.
    destruct (get_next_key_nonempty km Hne) as (initial & km1 & Hnext).
    rewrite Hnext. apply get_next_key_Some in Hnext as (_ & Hsame1 & Hcur).
    intros Hloop.
    assert (Hmono : ∀ fuel init cur kma key' kmb,
      Key.working_key_loop fuel init cur kma = Some (key', kmb) →
      (Key.key_cycle kma ≤ Key.key_cycle kmb)%nat).
    { clear. induction fuel as [|fuel IH]; intros init cur kma key' kmb; simpl.
      { destruct (Key.is_key_valid kma cur); [|done]. intros [= _ <-]. lia. }
      destruct (Key.is_key_valid kma cur); [intros [= _ <-]; lia|].
      destruct (Key.get_next_key kma) as [[nk kma']|] eqn:Hn; [|done].
      apply get_next_key_Some in Hn as (_ & _ & Hc).
      case_decide; [intros [= _ <-]; lia|]. intros Hl. apply IH in Hl. lia. }
    apply Hmono in Hloop. lia.
  - intros Hnil. split; [by apply Hempty|].
    revert Hret. unfold Key.get_next_working_key. rewrite Hnil. by intros [= _ <-].
  - intros Hne. by destruct (Hpool Hne).
Qed.

(** X3.  Over a pool without repeated keys in which some key is still below
    [MAX_FAILURES], [get_next_working_key] returns a valid key of the pool. *)
Theorem get_next_working_key_returns_valid (km : Key.KeyManager) (v : string) :
  NoDup (Key.api_keys km) →
  v ∈ Key.api_keys km →
  Key.get_fail_count km v < Key.MAX_FAILURES km →
  ∃ key km',
    Key.get_next_working_key km = Some (key, km')
    ∧ key ∈ Key.api_keys km
    ∧ Key.get_fail_count km key < Key.MAX_FAILURES km.
Proof.
  intros Hnodup Hin Hv.
  destruct (get_next_working_key_valid km Hnodup) as (key & km' & ? & ? & ? & _);
    [by eauto|]. by eauto.
Qed.

Lemma get_next_working_key_returns_valid_witness :
  let st := mkSettings 1 3 3 true in
  let km := Key.run st (Key.init st ["k1"; "k2"; "k3"]%string)
                    [Key.OpHandleApiFailure "k1"%string 3;
                     Key.OpHandleApiFailure "k2"%string 3] in
  fst <$> Key.get_next_working_key km = Some "k3"%string.
Proof.
  intros st km.
  assert (Hnodup : NoDup (Key.api_keys km)) by by_compute.
  assert (Hin : "k3"%string ∈ Key.api_keys km) by by_compute.
  assert (Hv : Key.get_fail_count km "k3"%string < Key.MAX_FAILURES km) by (by vm_compute).
  destruct (get_next_working_key_returns_valid km "k3"%string Hnodup Hin Hv)
    as (key & km' & Hret & _ & _).
  by vm_compute.
Defined.

(** X4.  No sequence of operations on a freshly built manager makes a failure
    count negative: counts start at zero and are only reset or incremented. *)
Theorem fail_count_never_negative (st : Settings) (keys : list string)
    (os : list Key.op) (key : string) :
  0 <= Key.get_fail_count (Key.run st (Key.init st keys) os) key.
Proof.
  unfold Key.get_fail_count.
  destruct (Key.key_failure_counts _ !! key) as [c|] eqn:Hc; [|done].
  simpl. by eapply run_counts_nonneg.
Qed.

(** X5.  [handle_api_failure] charges the failure to the key it is given: a
    key with a count gets exactly one more, a key without one (not of this
    pool) is ignored, and no other count changes.  It answers the empty
    string, without drawing a key, once [retries] has reached
    [settings.MAX_RETRIES]; below that it answers as [get_next_working_key]
    does, with a key of the pool when there is one. *)
Theorem handle_api_failure_charges_one_key (st : Settings) (km : Key.KeyManager)
    (api_key : string) (retries : Z) :
  ∃ new_api_key km',
    Key.handle_api_failure st km api_key retries = Some (new_api_key, km')
    ∧ Key.api_keys km' = Key.api_keys km
    ∧ Key.key_failure_counts km'
      = match Key.key_failure_counts km !! api_key with
        | Some c => <[api_key := c + 1]> (Key.key_failure_counts km)
        | None => Key.key_failure_counts km
        end
    ∧ (S_MAX_RETRIES st <= retries →
       new_api_key = ""%string ∧ Key.key_cycle km' = Key.key_cycle km)
    ∧ (retries < S_MAX_RETRIES st → Key.api_keys km ≠ [] →
       new_api_key ∈ Key.api_keys km).
Proof.
  assert (Hrec :
    Key.api_keys (Key.record_failure km api_key) = Key.api_keys km
    ∧ Key.key_cycle (Key.record_failure km api_key) = Key.key_cycle km
    ∧ Key.key_failure_counts (Key.record_failure km api_key)
      = match Key.key_failure_counts km !! api_key with
        | Some c => <[api_key := c + 1]> (Key.key_failure_counts km)
        | None => Key.key_failure_counts km
        end).
  { unfold Key.record_failure. by destruct (Key.key_failure_counts km !! api_key). }
  destruct Hrec as (Hkeys & Hcur & Hcounts).
  unfold Key.handle_api_failure. case_bool_decide as Hbudget.
  - destruct (get_next_working_key_total (Key.record_failure km api_key))
      as (key & km' & -> & (Hk & Hc & _) & _ & _ & Hpool).
    exists key, km'. split_and!; [done | congruence | congruence | lia |].
    intros _ Hne. rewrite <- Hkeys. apply Hpool. by rewrite Hkeys.
  - eexists _, _. split_and!; [done | done | done | done | lia].
Qed.

Section ProbeFacts.

Variable probe_ok : string → bool.

Implicit Types (km : Key.KeyManager) (key : string).

Lemma probe_fields km key :
  Key.api_keys (Key.probe_key probe_ok km key) = Key.api_keys km
  ∧ Key.MAX_FAILURES (Key.probe_key probe_ok km key) = Key.MAX_FAILURES km.
Proof.
  unfold Key.probe_key, Key.reset_key_failure_count, Key.check_failed_key_failure.
  destruct (probe_ok key), (Key.key_failure_counts km !! key); try done.
  by case_bool_decide.
Qed.

Lemma probe_lookup_other km key k :
  key ≠ k →
  Key.key_failure_counts (Key.probe_key probe_ok km key) !! k = Key.key_failure_counts km !! k.
Proof.
  intros Hne.
  unfold Key.probe_key, Key.reset_key_failure_count, Key.check_failed_key_failure.
  destruct (probe_ok key), (Key.key_failure_counts km !! key); try done; simpl.
  - by rewrite lookup_insert_ne.
  - case_bool_decide; [|done]. simpl. by rewrite lookup_insert_ne.
Qed.

Lemma probe_lookup_same km key (c : Z) :
  Key.key_failure_counts km !! key = Some c →
  Key.key_failure_counts (Key.probe_key probe_ok km key) !! key
  = Some (if probe_ok key then 0
          else if bool_decide (c < Key.MAX_FAILURES km) then c + 1 else c).
Proof.
  intros Hc.
  unfold Key.probe_key, Key.reset_key_failure_count, Key.check_failed_key_failure.
  rewrite Hc. destruct (probe_ok key); simpl.
  - by rewrite lookup_insert_eq.
  - case_bool_decide; [|done]. simpl. by rewrite lookup_insert_eq.
Qed.

Lemma foldl_probe_lookup (l : list string) km key :
  NoDup l →
  Key.MAX_FAILURES (foldl (Key.probe_key probe_ok) km l) = Key.MAX_FAILURES km
  ∧ Key.key_failure_counts (foldl (Key.probe_key probe_ok) km l) !! key
    = if decide (key ∈ l)
      then (λ c, if probe_ok key then 0
                 else if bool_decide (c < Key.MAX_FAILURES km) then c + 1 else c)
             <$> Key.key_failure_counts km !! key
      else Key.key_failure_counts km !! key.
Proof.
  revert km. induction l as [|k l IH]; intros km Hnodup.
  { split; [done|]. by rewrite decide_False by set_solver. }
  apply NoDup_cons in Hnodup as [Hk Hnodup]. cbn [foldl].
  destruct (IH (Key.probe_key probe_ok km k) Hnodup) as [Hmax Hlook].
  destruct (probe_fields km k) as [_ Hmax'].
  split; [congruence|]. rewrite Hlook, Hmax'.
  destruct (decide (key = k)) as [->|Hne].
  - rewrite (decide_False (P := k ∈ l)) by done.
    rewrite (decide_True (P := k ∈ k :: l)) by set_solver.
    destruct (Key.key_failure_counts km !! k) as [c|] eqn:Hc.
    + by rewrite (probe_lookup_same km k c).
    + unfold Key.probe_key, Key.reset_key_failure_count, Key.check_failed_key_failure.
      rewrite Hc. by destruct (probe_ok k).
  - rewrite probe_lookup_other by done.
    assert (Hiff : key ∈ k :: l ↔ key ∈ l) by (rewrite elem_of_cons; naive_solver).
    destruct (decide (key ∈ l)), (decide (key ∈ k :: l)); try done; tauto.
Qed.

Lemma check_failed_keys_lookup km key :
  Key.key_failure_counts (Key.check_failed_keys probe_ok km) !! key
  = (λ c, if bool_decide (c > 0)
          then if probe_ok key then 0
               else if bool_decide (c < Key.MAX_FAILURES km) then c + 1 else c
          else c)
      <$> Key.key_failure_counts km !! key.
Proof.
  unfold Key.check_failed_keys.
  set (m := filter (λ kv : string * Z, kv.2 > 0) (Key.key_failure_counts km)).
  destruct (foldl_probe_lookup (map_to_list m).*1 km key) as [_ Hlook].
  { apply NoDup_fst_map_to_list. }
  rewrite Hlook.
  destruct (Key.key_failure_counts km !! key) as [c|] eqn:Hc; cbn [fmap option_fmap option_map].
  - destruct (decide (c > 0)) as [Hpos|Hpos].
    + rewrite (bool_decide_eq_true_2 (c > 0)) by done.
      rewrite decide_True; [done|].
      apply list_elem_of_fmap. exists (key, c). split; [done|].
      apply elem_of_map_to_list. by apply map_lookup_filter_Some.
    + rewrite (bool_decide_eq_false_2 (c > 0)) by done.
      rewrite decide_False; [done|].
      intros Hin. apply list_elem_of_fmap in Hin as ([k c'] & -> & Hin).
      apply elem_of_map_to_list, map_lookup_filter_Some in Hin as [Hc' Hpos'].
      simpl in *. congruence.
  - by case_decide.
Qed.

End ProbeFacts.

(** X6.  The scheduled check probes exactly the keys whose count is above
    zero.  A key at zero is left alone; a probed key whose test request
    succeeds goes back to zero; one whose test fails gains one failure, unless
    it already stands at [MAX_FAILURES] or above, where it stays. *)
Theorem check_failed_keys_per_key (probe_ok : string → bool) (km : Key.KeyManager)
    (key : string) (c : Z) :
  Key.key_failure_counts km !! key = Some c →
  Key.key_failure_counts (Key.check_failed_keys probe_ok km) !! key
  = Some (if bool_decide (c <= 0) then c
          else if probe_ok key then 0
          else if bool_decide (c < Key.MAX_FAILURES km) then c + 1
          else c).
Proof.
  intros Hc. rewrite check_failed_keys_lookup, Hc. simpl. f_equal.
  repeat case_bool_decide; try done; lia.
Qed.

Lemma check_failed_keys_per_key_witness :
  let st := mkSettings 2 3 3 true in
  let km := Key.run st (Key.init st ["k1"; "k2"; "k3"]%string)
                    [Key.OpHandleApiFailure "k1"%string 3;
                     Key.OpHandleApiFailure "k2"%string 3;
                     Key.OpHandleApiFailure "k2"%string 3] in
  let km' := Key.check_failed_keys (λ key, bool_decide (key = "k1"%string)) km in
  Key.key_failure_counts km' !! "k2"%string = Some 2.
Proof.
  intros st km km'.
  assert (Hc : Key.key_failure_counts km !! "k2"%string = Some 2) by (by vm_compute).
  unfold km'.
  rewrite (check_failed_keys_per_key _ km "k2"%string 2 Hc). by vm_compute.
Defined.

(** X7.  After [reset_failure_counts], under a positive threshold, every key
    is valid again, the count dictionary has the keys it had, and
    [get_next_working_key] is plain round-robin: it returns the key under the
    cursor and advances by one, as [get_next_key] does. *)
Theorem reset_failure_counts_restores_round_robin (km : Key.KeyManager) :
  0 < Key.MAX_FAILURES km →
  Key.api_keys km ≠ [] →
  (∀ key, Key.is_key_valid (Key.reset_failure_counts km) key = true)
  ∧ dom (Key.key_failure_counts (Key.reset_failure_counts km))
    = dom (Key.key_failure_counts km)
  ∧ Key.get_next_working_key (Key.reset_failure_counts km)
    = Key.get_next_key (Key.reset_failure_counts km)
  ∧ is_Some (Key.get_next_key (Key.reset_failure_counts km)).
Proof.
  intros Hmax Hne.
  assert (Hvalid : ∀ cur key,
    Key.is_key_valid
      {| Key.api_keys := Key.api_keys km; Key.key_cycle := cur;
         Key.key_failure_counts := (λ _, 0) <$> Key.key_failure_counts km;
         Key.MAX_FAILURES := Key.MAX_FAILURES km |} key = true).
  { intros cur key. unfold Key.is_key_valid, Key.get_fail_count. cbn.
    rewrite lookup_fmap. apply bool_decide_eq_true_2.
    by destruct (Key.key_failure_counts km !! key). }
  split_and!.
  - intros key. apply (Hvalid (Key.key_cycle km)).
  - unfold Key.reset_failure_counts. cbn. by rewrite dom_fmap_L.
  - unfold Key.get_next_working_key, Key.reset_failure_counts, Key.set_counts. cbn.
    destruct (Key.api_keys km) as [|k0 keys] eqn:Hkeys; [done|].
    unfold Key.get_next_key. cbn [Key.api_keys Key.key_cycle Key.key_failure_counts Key.MAX_FAILURES].
    destruct ((k0 :: keys) !! (Key.key_cycle km mod length (k0 :: keys))%nat)
      as [k|] eqn:Hk; [|done].
    cbn [length Key.working_key_loop]. by rewrite Hvalid.
  - destruct (get_next_key_nonempty (Key.reset_failure_counts km)) as (k & km' & ->);
      [done | by eexists].
Qed.

Lemma reset_failure_counts_restores_round_robin_witness :
  let st := mkSettings 1 3 3 true in
  let km := Key.run st (Key.init st ["k1"; "k2"]%string)
                    [Key.OpHandleApiFailure "k1"%string 3;
                     Key.OpHandleApiFailure "k2"%string 3] in
  Key.is_key_valid km "k1"%string = false
  ∧ Key.get_next_working_key (Key.reset_failure_counts km)
    = Key.get_next_key (Key.reset_failure_counts km).
Proof.
  intros st km. split; [by vm_compute|].
  eapply (reset_failure_counts_restores_round_robin km); by vm_compute.
Defined.

Section StatusFacts.

Implicit Types (km : Key.KeyManager) (key : string).

Lemma foldl_insert_lookup (f : string → Z) (keys : list string) (m : gmap string Z) key :
  foldl (λ m k, <[k := f k]> m) m keys !! key
  = if decide (key ∈ keys) then Some (f key) else m !! key.
Proof.
  revert m. induction keys as [|k keys IH]; intros m; cbn [foldl].
  { by rewrite decide_False by set_solver. }
  rewrite IH. destruct (decide (key = k)) as [->|Hne].
  - rewrite lookup_insert_eq, (decide_True (P := k ∈ k :: keys)) by set_solver.
    by case_decide.
  - rewrite lookup_insert_ne by done.
    assert (Hiff : key ∈ k :: keys ↔ key ∈ keys) by (rewrite elem_of_cons; naive_solver).
    destruct (decide (key ∈ keys)), (decide (key ∈ k :: keys)); try done; tauto.
Qed.

Lemma all_keys_lookup km key :
  Key.all_keys (Key.get_all_keys_with_fail_count km) !! key
  = if decide (key ∈ Key.api_keys km) then Some (Key.get_fail_count km key) else None.
Proof.
  unfold Key.get_all_keys_with_fail_count. cbn [Key.all_keys].
  by rewrite (foldl_insert_lookup (Key.get_fail_count km)).
Qed.

Lemma get_keys_by_status_lookup km (keys : list string) (valid invalid : gmap string Z) key :
  let r := foldl (λ '(valid, invalid) k,
                    let fail_count := Key.get_fail_count km k in
                    if bool_decide (fail_count < Key.MAX_FAILURES km)
                    then (<[k := fail_count]> valid, invalid)
                    else (valid, <[k := fail_count]> invalid))
                 (valid, invalid) keys in
  r.1 !! key = (if decide (key ∈ keys ∧ Key.is_key_valid km key = true)
                then Some (Key.get_fail_count km key) else valid !! key)
  ∧ r.2 !! key = (if decide (key ∈ keys ∧ Key.is_key_valid km key = false)
                  then Some (Key.get_fail_count km key) else invalid !! key).
Proof.
  revert valid invalid. induction keys as [|k keys IH]; intros valid invalid; cbn [foldl].
  { split; rewrite decide_False; try done; set_solver. }
  cbn zeta in IH |- *. unfold Key.is_key_valid in *.
  destruct (bool_decide (Key.get_fail_count km k < Key.MAX_FAILURES km)) eqn:Hk.
  - destruct (IH (<[k := Key.get_fail_count km k]> valid) invalid) as [-> ->].
    split.
    + destruct (decide (key = k)) as [->|Hne].
      * rewrite lookup_insert_eq. rewrite (decide_True (P := k ∈ k :: keys ∧ _)).
        -- by destruct (decide (k ∈ keys ∧ _ = true)).
        -- split; [set_solver|done].
      * rewrite lookup_insert_ne by done.
        assert (Hiff : key ∈ k :: keys ↔ key ∈ keys) by (rewrite elem_of_cons; naive_solver).
        repeat case_decide; try done; tauto.
    + destruct (decide (key = k)) as [->|Hne].
      * rewrite !decide_False; [done| |]; intros [_ ?]; congruence.
      * assert (Hiff : key ∈ k :: keys ↔ key ∈ keys) by (rewrite elem_of_cons; naive_solver).
        repeat case_decide; try done; tauto.
  - destruct (IH valid (<[k := Key.get_fail_count km k]> invalid)) as [-> ->].
    split.
    + destruct (decide (key = k)) as [->|Hne].
      * rewrite !decide_False; [done| |]; intros [_ ?]; congruence.
      * assert (Hiff : key ∈ k :: keys ↔ key ∈ keys) by (rewrite elem_of_cons; naive_solver).
        repeat case_decide; try done; tauto.
    + destruct (decide (key = k)) as [->|Hne].
      * rewrite lookup_insert_eq. rewrite (decide_True (P := k ∈ k :: keys ∧ _)).
        -- by destruct (decide (k ∈ keys ∧ _ = false)).
        -- split; [set_solver|done].
      * rewrite lookup_insert_ne by done.
        assert (Hiff : key ∈ k :: keys ↔ key ∈ keys) by (rewrite elem_of_cons; naive_solver).
        repeat case_decide; try done; tauto.
Qed.

Lemma valid_keys_lookup km key :
  Key.valid_keys (Key.get_all_keys_with_fail_count km) !! key
  = if decide (key ∈ Key.api_keys km ∧ Key.is_key_valid km key = true)
    then Some (Key.get_fail_count km key) else None.
Proof.
  apply option_eq. intros c.
  change (Key.valid_keys (Key.get_all_keys_with_fail_count km))
    with (filter (λ kv : string * Z, kv.2 < Key.MAX_FAILURES km)
                 (Key.all_keys (Key.get_all_keys_with_fail_count km))).
  rewrite map_lookup_filter_Some, all_keys_lookup. cbn [snd].
  unfold Key.is_key_valid.
  destruct (decide (key ∈ Key.api_keys km)) as [Hin|Hin];
    destruct (decide (Key.get_fail_count km key < Key.MAX_FAILURES km)) as [Hlt|Hlt];
    rewrite ?(bool_decide_eq_true_2 _ Hlt), ?(bool_decide_eq_false_2 _ Hlt);
    case_decide; naive_solver lia.
Qed.

Lemma invalid_keys_lookup km key :
  Key.invalid_keys (Key.get_all_keys_with_fail_count km) !! key
  = if decide (key ∈ Key.api_keys km ∧ Key.is_key_valid km key = false)
    then Some (Key.get_fail_count km key) else None.
Proof.
  apply option_eq. intros c.
  change (Key.invalid_keys (Key.get_all_keys_with_fail_count km))
    with (filter (λ kv : string * Z, kv.2 >= Key.MAX_FAILURES km)
                 (Key.all_keys (Key.get_all_keys_with_fail_count km))).
  rewrite map_lookup_filter_Some, all_keys_lookup. cbn [snd].
  unfold Key.is_key_valid.
  destruct (decide (key ∈ Key.api_keys km)) as [Hin|Hin];
    destruct (decide (Key.get_fail_count km key < Key.MAX_FAILURES km)) as [Hlt|Hlt];
    rewrite ?(bool_decide_eq_true_2 _ Hlt), ?(bool_decide_eq_false_2 _ Hlt);
    case_decide; naive_solver lia.
Qed.

End StatusFacts.

(** X8.  The two status reports agree, and they partition the pool:
    [get_keys_by_status] returns the [valid_keys] and [invalid_keys] of
    [get_all_keys_with_fail_count]; a key is listed as valid exactly when it
    is in the pool and [is_key_valid] holds, as invalid exactly when it is in
    the pool and [is_key_valid] fails, each time with its failure count; and
    the total of the two (the [total] of [/v1/keys/list]) counts every
    distinct key of the pool once. *)
Theorem keys_status_partitions_pool (km : Key.KeyManager) :
  Key.get_keys_by_status km
    = (Key.valid_keys (Key.get_all_keys_with_fail_count km),
       Key.invalid_keys (Key.get_all_keys_with_fail_count km))
  ∧ (∀ key c,
       Key.valid_keys (Key.get_all_keys_with_fail_count km) !! key = Some c
       ↔ key ∈ Key.api_keys km ∧ Key.is_key_valid km key = true
         ∧ c = Key.get_fail_count km key)
  ∧ (∀ key c,
       Key.invalid_keys (Key.get_all_keys_with_fail_count km) !! key = Some c
       ↔ key ∈ Key.api_keys km ∧ Key.is_key_valid km key = false
         ∧ c = Key.get_fail_count km key)
  ∧ (size (Key.valid_keys (Key.get_all_keys_with_fail_count km))
     + size (Key.invalid_keys (Key.get_all_keys_with_fail_count km))
     = size (list_to_set (Key.api_keys km) : gset string))%nat.
Proof.
  split_and!.
  - destruct (Key.get_keys_by_status km) as [valid invalid] eqn:Hr.
    f_equal; apply map_eq; intros key.
    + rewrite valid_keys_lookup.
      destruct (get_keys_by_status_lookup km (Key.api_keys km) ∅ ∅ key) as [Hv _].
      cbn zeta in Hv. unfold Key.get_keys_by_status in Hr. rewrite Hr in Hv.
      by rewrite lookup_empty in Hv.
    + rewrite invalid_keys_lookup.
      destruct (get_keys_by_status_lookup km (Key.api_keys km) ∅ ∅ key) as [_ Hi].
      cbn zeta in Hi. unfold Key.get_keys_by_status in Hr. rewrite Hr in Hi.
      by rewrite lookup_empty in Hi.
  - intros key c. rewrite valid_keys_lookup. case_decide; naive_solver.
  - intros key c. rewrite invalid_keys_lookup. case_decide; naive_solver.
  - rewrite <- map_size_disj_union.
    + rewrite <- !size_dom. f_equal. apply set_eq. intros key.
      rewrite elem_of_dom, elem_of_list_to_set, lookup_union.
      rewrite valid_keys_lookup, invalid_keys_lookup.
      destruct (Key.is_key_valid km key) eqn:Hv.
      * rewrite (decide_False (P := _ ∧ true = false)) by naive_solver.
        case_decide as Hd; simpl.
        -- split; [naive_solver|by eexists].
        -- split; [by intros [? ?]|naive_solver].
      * rewrite (decide_False (P := _ ∧ false = true)) by naive_solver.
        case_decide as Hd; simpl.
        -- split; [naive_solver|by eexists].
        -- split; [by intros [? ?]|naive_solver].
    + apply map_disjoint_spec. intros key c c' Hvalid Hinvalid.
      rewrite valid_keys_lookup in Hvalid. rewrite invalid_keys_lookup in Hinvalid.
      repeat case_decide; try done. destruct_and!. congruence.
Qed.

(** X9.  [get_random_valid_key] never returns an exhausted key while a valid
    one exists: whatever [random.choice] draws, the result is a valid key of
    the pool, and every valid key can be drawn.  When no key is valid it
    answers as [get_first_valid_key] does, with the first key of the pool (the
    empty string for an empty pool). *)
Theorem get_random_valid_key_is_valid (km : Key.KeyManager) (choice : nat) :
  (∀ v, v ∈ Key.api_keys km → Key.is_key_valid km v = true →
        Key.get_random_valid_key km choice ∈ Key.api_keys km
        ∧ Key.is_key_valid km (Key.get_random_valid_key km choice) = true
        ∧ ∃ choice', Key.get_random_valid_key km choice' = v)
  ∧ ((∀ k, k ∈ Key.api_keys km → Key.is_key_valid km k = false) →
     Key.get_random_valid_key km choice = Key.get_first_valid_key km
     ∧ Key.get_random_valid_key km choice = default ""%string (head (Key.api_keys km))).
Proof.
  unfold Key.get_random_valid_key, Key.get_first_valid_key. split.
  - intros v Hin Hv.
    assert (Hvf : v ∈ List.filter (Key.is_key_valid km) (Key.api_keys km)).
    { apply list_elem_of_In, filter_In. split; [by apply list_elem_of_In|done]. }
    destruct (List.filter (Key.is_key_valid km) (Key.api_keys km)) as [|v0 vs] eqn:Hf.
    { by apply elem_of_nil in Hvf. }
    assert (Hnth : ∀ i, List.nth (i mod length (v0 :: vs)) (v0 :: vs) v0
                        ∈ List.filter (Key.is_key_valid km) (Key.api_keys km)).
    { intros i. rewrite Hf. apply list_elem_of_In, nth_In.
      apply Nat.mod_upper_bound. simpl. lia. }
    pose proof (Hnth choice) as Hc.
    apply list_elem_of_In, filter_In in Hc as [Hc1 Hc2].
    split_and!; [by apply list_elem_of_In | done |].
    apply list_elem_of_lookup in Hvf as [i Hi].
    exists i. pose proof (lookup_lt_Some _ _ _ Hi) as Hlt.
    rewrite Nat.mod_small by done.
    by apply nth_lookup_Some.
  - intros Hall.
    assert (Hf : List.filter (Key.is_key_valid km) (Key.api_keys km) = []).
    { destruct (List.filter _ _) as [|v0 vs] eqn:Hf; [done|].
      assert (Hin : In v0 (List.filter (Key.is_key_valid km) (Key.api_keys km)))
        by (rewrite Hf; by left).
      apply filter_In in Hin as [Hin Hv]. apply list_elem_of_In, Hall in Hin. congruence. }
    rewrite Hf.
    assert (Hfind : List.find (Key.is_key_valid km) (Key.api_keys km) = None).
    { destruct (List.find _ _) as [k|] eqn:Hk; [|done].
      apply find_some in Hk as [Hin Hv]. apply list_elem_of_In, Hall in Hin. congruence. }
    rewrite Hfind. by destruct (Key.api_keys km).
Qed.

(** * Facts about the KeyManager singleton *)
Section SingletonFacts.

Variable st : Settings.

Lemma index_Some_lookup (l : list string) x i :
  Singleton.index l x = Some i → l !! i = Some x.
Proof.
  revert i. induction l as [|y l IH]; intros i; cbn [Singleton.index]; [done|].
  case_decide as Hy.
  - intros [= <-]. by subst.
  - destruct (Singleton.index l x) as [j|]; [|done]. intros [= <-]. by apply IH.
Qed.

Lemma index_elem (l : list string) x :
  x ∈ l → is_Some (Singleton.index l x).
Proof.
  induction l as [|y l IH]; [by intros ?%elem_of_nil|].
  cbn [Singleton.index]. case_decide; [intros _; by eexists|].
  intros [?|Hin]%elem_of_cons; [congruence|].
  destruct (IH Hin) as [j ->]. by eexists.
Qed.

Lemma advance_fields (n : nat) km :
  Key.api_keys km ≠ [] →
  Key.same_pool km (Singleton.advance n km)
  ∧ Key.key_cycle (Singleton.advance n km) = (Key.key_cycle km + n)%nat.
Proof.
  intros Hne. unfold Singleton.advance.
  induction n as [|n IH]; simpl.
  { split; [apply same_pool_refl | lia]. }
  destruct IH as [Hpool Hcur].
  set (km1 := Nat.iter n _ km) in *.
  destruct (get_next_key_nonempty km1) as (k & km2 & Hnext).
  { destruct Hpool as (-> & _). done. }
  rewrite Hnext. cbn [from_option snd].
  apply get_next_key_Some in Hnext as (_ & Hpool' & Hcur').
  split; [by eapply same_pool_trans | lia].
Qed.

Lemma inherit_failure_counts_fields (preserved : gmap string Z) km :
  Key.api_keys (Provider.inherit_failure_counts preserved km) = Key.api_keys km
  ∧ Key.key_cycle (Provider.inherit_failure_counts preserved km) = Key.key_cycle km
  ∧ Key.MAX_FAILURES (Provider.inherit_failure_counts preserved km) = Key.MAX_FAILURES km.
Proof. unfold Provider.inherit_failure_counts. by case_bool_decide. Qed.

Lemma inherit_failure_counts_init (preserved : gmap string Z) (keys : list string) key :
  Key.key_failure_counts (Provider.inherit_failure_counts preserved (Key.init st keys)) !! key
  = if decide (key ∈ keys) then Some (default 0 (preserved !! key)) else None.
Proof.
  destruct (decide (preserved = ∅)) as [->|Hne].
  - unfold Provider.inherit_failure_counts. rewrite bool_decide_eq_true_2 by done.
    cbn [Key.init Key.key_failure_counts]. by rewrite zero_counts_lookup, lookup_empty.
  - by rewrite inherit_failure_counts_lookup.
Qed.

Lemma start_key_found (old_keys new_keys : list string) next_key :
  next_key ∈ old_keys → next_key ∈ new_keys →
  Singleton.start_key_for_new_cycle old_keys next_key new_keys = Some next_key.
Proof.
  intros Hold Hnew. unfold Singleton.start_key_for_new_cycle.
  destruct (index_elem old_keys next_key Hold) as [i Hi]. rewrite Hi.
  apply index_Some_lookup in Hi.
  pose proof (lookup_lt_Some _ _ _ Hi) as Hlt.
  destruct (length old_keys) as [|n] eqn:Hlen; [lia|].
  cbn [seq omap list_omap]. rewrite Nat.add_0_r, Nat.mod_small, Hi by lia.
  cbn [List.find]. by rewrite bool_decide_eq_true_2.
Qed.

Lemma start_key_none (old_keys new_keys : list string) next_key :
  (∀ key, key ∈ old_keys → key ∉ new_keys) →
  Singleton.start_key_for_new_cycle old_keys next_key new_keys = None.
Proof.
  intros Hnone. unfold Singleton.start_key_for_new_cycle.
  destruct (Singleton.index old_keys next_key) as [i|]; [|done].
  destruct (List.find _ _) as [c|] eqn:Hfind; [|done].
  apply find_some in Hfind as [Hin Hc].
  apply list_elem_of_In, list_elem_of_omap in Hin as (j & _ & Hj).
  apply list_elem_of_lookup_2, Hnone in Hj.
  by apply bool_decide_eq_true_1 in Hc.
Qed.

End SingletonFacts.

(** X10.  A reset of the singleton followed by its re-creation over a new key
    list keeps what the old instance knew: every key of the new list carries
    the failure count it had (zero when it is new), and the rotation resumes
    where it stood: the first key drawn is the key the old instance was about
    to draw, if the new list still has it.  When the new list shares no key
    with the old one, the rotation starts at the head of the new list.  The
    preserved state is consumed by the re-creation. *)
Theorem singleton_reset_keeps_counts_and_cursor (st : Settings) (s : Singleton.State)
    (km : Key.KeyManager) (keys : list string) (k : string) :
  Singleton._singleton_instance s = Some km →
  Key.key_at km (Key.key_cycle km) = Some k →
  k ≠ ""%string →
  ∃ km',
    Singleton.get_key_manager_instance st (Singleton.reset_key_manager_instance s) (Some keys)
      = ({| Singleton._singleton_instance := Some km';
            Singleton._preserved_failure_counts := None;
            Singleton._preserved_old_api_keys_for_reset := None;
            Singleton._preserved_next_key_in_cycle := None |}, inr km')
    ∧ Key.api_keys km' = keys
    ∧ Key.MAX_FAILURES km' = S_MAX_FAILURES st
    ∧ (∀ key, Key.key_failure_counts km' !! key
              = if decide (key ∈ keys)
                then Some (default 0 (Key.key_failure_counts km !! key))
                else None)
    ∧ (k ∈ keys → fst <$> Key.get_next_key km' = Some k)
    ∧ ((∀ key, key ∈ Key.api_keys km → key ∉ keys) →
       fst <$> Key.get_next_key km' = head keys).
Proof.
  intros Hinst Hk Hk_ne.
  assert (Hold : k ∈ Key.api_keys km) by (by eapply list_elem_of_lookup_2).
  unfold Singleton.reset_key_manager_instance. rewrite Hinst.
  unfold Singleton.get_key_manager_instance.
  cbn [Singleton._singleton_instance Singleton._preserved_failure_counts
       Singleton._preserved_old_api_keys_for_reset Singleton._preserved_next_key_in_cycle].
  set (km1 := Provider.inherit_failure_counts (Key.key_failure_counts km) (Key.init st keys)).
  assert (Hnext : fst <$> Key.get_next_key km = Some k).
  { unfold Key.get_next_key. unfold Key.key_at in Hk. by rewrite Hk. }
  destruct (inherit_failure_counts_fields (Key.key_failure_counts km) (Key.init st keys))
    as (Hkeys1 & Hcur1 & Hmax1).
  fold km1 in Hkeys1, Hcur1, Hmax1. cbn [Key.init Key.api_keys Key.key_cycle Key.MAX_FAILURES] in *.
  assert (Hcounts1 : ∀ key, Key.key_failure_counts km1 !! key
              = if decide (key ∈ keys)
                then Some (default 0 (Key.key_failure_counts km !! key))
                else None) by (intros key; apply inherit_failure_counts_init).
  assert (Hhead : fst <$> Key.get_next_key km1 = head keys).
  { unfold Key.get_next_key. rewrite Hkeys1, Hcur1.
    destruct keys as [|k0 keys']; [done|].
    by rewrite Nat.Div0.mod_0_l. }
  destruct (Key.api_keys km) as [|old_key old_keys] eqn:Hold_keys.
  { by apply elem_of_nil in Hold. }
  assert (Htruthy_k : truthy k = true) by (by apply bool_decide_eq_true_2).
  rewrite Hnext, Htruthy_k. cbn [andb].
  case_bool_decide as Hkeys_ne.
  - destruct (decide (k ∈ keys)) as [Hin|Hnotin].
    + rewrite start_key_found by done. rewrite !Htruthy_k. cbn [andb].
      destruct (index_elem keys k Hin) as [t Ht]. rewrite Ht.
      apply index_Some_lookup in Ht.
      destruct (advance_fields t km1) as ((Hkeys2 & Hcounts2 & Hmax2) & Hcur2).
      { by rewrite Hkeys1. }
      eexists. split_and!; [done | congruence | congruence | | |].
      * intros key. by rewrite Hcounts2.
      * intros _. unfold Key.get_next_key. rewrite Hkeys2, Hcur2, Hkeys1, Hcur1.
        pose proof (lookup_lt_Some _ _ _ Ht) as Hlt.
        cbn [Nat.add]. rewrite Nat.mod_small by done. by rewrite Ht.
      * intros Hnone. exfalso. by apply (Hnone k).
    + destruct (Singleton.start_key_for_new_cycle (old_key :: old_keys) k keys)
        as [key0|] eqn:Hstart.
      * (* the cycle is advanced to another surviving key *)
        destruct (truthy key0 && true) eqn:Htruthy.
        -- destruct (Singleton.index keys key0) as [t|] eqn:Ht.
           ++ destruct (advance_fields t km1) as ((Hkeys2 & Hcounts2 & Hmax2) & Hcur2).
              { by rewrite Hkeys1. }
              eexists. split_and!; [done | congruence | congruence | | done |].
              ** intros key. by rewrite Hcounts2.
              ** intros Hnone. by rewrite start_key_none in Hstart.
           ++ eexists. split_and!; [done | done | done | done | done |].
              intros Hnone. by rewrite start_key_none in Hstart.
        -- eexists. split_and!; [done | done | done | done | done | done].
      * eexists. split_and!; [done | done | done | done | done | done].
  - destruct keys as [|k0 keys']; [|done].
    eexists. split_and!; [done | done | done | done | by intros ?%elem_of_nil | done].
Qed.

Lemma singleton_reset_keeps_counts_and_cursor_witness :
  let st := mkSettings 3 3 3 true in
  let km := Key.run st (Key.init st ["k1"; "k2"; "k3"]%string)
                    [Key.OpGetNextKey; Key.OpHandleApiFailure "k2"%string 3] in
  let s := {| Singleton._singleton_instance := Some km;
              Singleton._preserved_failure_counts := None;
              Singleton._preserved_old_api_keys_for_reset := None;
              Singleton._preserved_next_key_in_cycle := None |} in
  ∃ km',
    (Singleton.get_key_manager_instance st (Singleton.reset_key_manager_instance s)
       (Some ["k0"; "k2"; "k3"]%string)).2 = inr km'
    ∧ Key.key_failure_counts km' !! "k2"%string = Some 1
    ∧ fst <$> Key.get_next_key km' = Some "k2"%string.
Proof.
  intros st km s.
  destruct (singleton_reset_keeps_counts_and_cursor st s km
              ["k0"; "k2"; "k3"]%string "k2"%string)
    as (km' & Hget & _ & _ & Hcounts & Hnext & _);
    [by vm_compute | by vm_compute | done |].
  exists km'. split_and!.
  - by rewrite Hget.
  - rewrite Hcounts. by vm_compute.
  - apply Hnext. by_compute.
Defined.

(** * Further facts about the proxy pool *)
Section ProxyState.

Variable hash : string → Z.

Implicit Types (pm : Proxy.ProxyManager) (proxy api_key : string).

Lemma foldl_add_proxy_counts pm (added : list string) proxy :
  Proxy.proxy_failure_counts (foldl Proxy.add_proxy pm added) !! proxy
  = if decide (proxy ∈ added) then Some 0 else Proxy.proxy_failure_counts pm !! proxy.
Proof.
  revert pm. induction added as [|a added IH]; intros pm; cbn [foldl].
  { by rewrite decide_False by (by intros ?%elem_of_nil). }
  rewrite IH. cbn [Proxy.add_proxy Proxy.proxy_failure_counts].
  destruct (decide (proxy = a)) as [->|Hne].
  - rewrite lookup_insert_eq, (decide_True (P := a ∈ a :: added)) by (by left).
    by destruct (decide (a ∈ added)).
  - rewrite lookup_insert_ne by done.
    assert (Hiff : proxy ∈ a :: added ↔ proxy ∈ added) by (rewrite elem_of_cons; naive_solver).
    destruct (decide (proxy ∈ added)), (decide (proxy ∈ a :: added)); try done; tauto.
Qed.

Lemma foldl_remove_proxy_counts pm (removed : list string) proxy :
  Proxy.proxy_failure_counts (foldl Proxy.remove_proxy pm removed) !! proxy
  = if decide (proxy ∈ removed) then None else Proxy.proxy_failure_counts pm !! proxy.
Proof.
  revert pm. induction removed as [|a removed IH]; intros pm; cbn [foldl].
  { by rewrite decide_False by (by intros ?%elem_of_nil). }
  rewrite IH. cbn [Proxy.remove_proxy Proxy.proxy_failure_counts].
  destruct (decide (proxy = a)) as [->|Hne].
  - rewrite lookup_delete_eq, (decide_True (P := a ∈ a :: removed)) by (by left).
    by destruct (decide (a ∈ removed)).
  - rewrite lookup_delete_ne by done.
    assert (Hiff : proxy ∈ a :: removed ↔ proxy ∈ removed)
      by (rewrite elem_of_cons; naive_solver).
    destruct (decide (proxy ∈ removed)), (decide (proxy ∈ a :: removed)); try done; tauto.
Qed.

Lemma elem_of_filter_bool (f : string → bool) (l : list string) x :
  x ∈ List.filter f l ↔ x ∈ l ∧ f x = true.
Proof. by rewrite !list_elem_of_In, filter_In. Qed.

(** The failure counts after a reload: a removed proxy loses its count, a new
    one starts at zero, a surviving one keeps its count. *)
Lemma reload_proxies_counts pm (new_proxies : list string) proxy :
  Proxy.proxy_failure_counts (Proxy.reload_proxies pm new_proxies) !! proxy
  = if decide (proxy ∈ Proxy.proxies pm ∧ proxy ∉ new_proxies) then None
    else if decide (proxy ∈ new_proxies ∧ proxy ∉ Proxy.proxies pm) then Some 0
    else Proxy.proxy_failure_counts pm !! proxy.
Proof.
  unfold Proxy.reload_proxies. cbn [Proxy.proxy_failure_counts].
  rewrite foldl_remove_proxy_counts, foldl_add_proxy_counts.
  assert (Hrem : proxy ∈ List.filter (λ p, bool_decide (p ∉ new_proxies)) (Proxy.proxies pm)
                 ↔ proxy ∈ Proxy.proxies pm ∧ proxy ∉ new_proxies).
  { by rewrite elem_of_filter_bool, bool_decide_eq_true. }
  assert (Hadd : proxy ∈ List.filter (λ p, bool_decide (p ∉ Proxy.proxies pm)) new_proxies
                 ↔ proxy ∈ new_proxies ∧ proxy ∉ Proxy.proxies pm).
  { by rewrite elem_of_filter_bool, bool_decide_eq_true. }
  repeat case_decide; try done; tauto.
Qed.

Lemma init_consistent st (ps : list string) : Proxy.consistent (Proxy.init st ps).
Proof.
  split_and!; cbn [Proxy.init Proxy.disabled_proxies Proxy.proxy_failure_counts
                   Proxy.key_proxy_bindings Proxy.proxies].
  - intros proxy Hin. by apply elem_of_empty in Hin.
  - intros proxy. unfold Proxy.zero_counts.
    rewrite (foldl_insert_lookup (λ _, 0)), lookup_empty.
    case_decide; split; try done; try (by intros [? ?]).
  - intros api_key proxy Hb. by rewrite lookup_empty in Hb.
Qed.

Lemma reload_proxies_consistent pm (new_proxies : list string) :
  Proxy.consistent pm → Proxy.consistent (Proxy.reload_proxies pm new_proxies).
Proof.
  intros (Hdis & Hcounts & Hbind). split_and!.
  - intros proxy [Hd Hkeep]%(reload_proxies_disabled hash). apply Hkeep. by apply Hdis.
  - intros proxy. rewrite reload_proxies_counts.
    change (Proxy.proxies (Proxy.reload_proxies pm new_proxies)) with new_proxies.
    specialize (Hcounts proxy).
    repeat case_decide; split; try done; try (by intros [? ?]); try (by eexists);
      destruct (decide (proxy ∈ Proxy.proxies pm)), (decide (proxy ∈ new_proxies)); tauto.
  - intros api_key proxy [Hb Hkeep]%(reload_proxies_bindings hash). apply Hkeep. by eapply Hbind.
Qed.

Lemma step_consistent pm (o : Proxy.op) :
  Proxy.consistent pm → Proxy.consistent (Proxy.step hash pm o).
Proof.
  intros Hc.
  destruct o as [new_proxies|st new_proxies|use_hash choice api_key|proxy|proxy|proxy|
                 |proxy|proxy|proxy now|api_key]; cbn [Proxy.step].
  - by apply reload_proxies_consistent.
  - by apply (reload_proxies_consistent pm new_proxies) in Hc.
  - destruct Hc as (Hdis & Hcounts & Hbind).
    destruct (get_proxy_for_key_fields hash use_hash choice pm api_key) as [Hps Hd].
    cbn zeta in Hps, Hd. 
    assert (Hcnt : Proxy.proxy_failure_counts
                     (Proxy.get_proxy_for_key hash use_hash choice pm api_key).2
                   = Proxy.proxy_failure_counts pm).
    { unfold Proxy.get_proxy_for_key.
      destruct (Proxy.proxies pm) as [|first ps]; [done|].
      destruct (Proxy.get_available_proxies pm) as [|a avail]; [done|].
      destruct use_hash; [|done].
      destruct (Proxy.key_proxy_bindings pm !! api_key) as [bound|].
      - case_bool_decide; [done|]. by destruct (Proxy.hash_slot hash api_key (a :: avail)).
      - by destruct (Proxy.hash_slot hash api_key (a :: avail)). }
    split_and!.
    + intros proxy. rewrite Hps, Hd. apply Hdis.
    + intros proxy. rewrite Hps, Hcnt. apply Hcounts.
    + intros k proxy Hb. rewrite Hps.
      destruct (decide (k = api_key)) as [->|Hne].
      * destruct (Proxy.get_proxy_for_key hash use_hash choice pm api_key) as [r pm1] eqn:Hget.
        cbn [snd] in *.
        destruct (decide (Proxy.key_proxy_bindings pm !! api_key = Some proxy)) as [Hold|Hnew];
          [by eapply Hbind|].
        revert Hget. unfold Proxy.get_proxy_for_key.
        destruct (Proxy.proxies pm) as [|first ps] eqn:Hlist; [intros [= <- <-]; done|].
        rewrite <- Hlist.
        destruct (Proxy.get_available_proxies pm) as [|a avail] eqn:Hav;
          [intros [= <- <-]; done|].
        destruct use_hash; [|intros [= <- <-]; done].
        assert (Hslot : ∀ p, Proxy.hash_slot hash api_key (a :: avail) = Some p →
                             p ∈ Proxy.proxies pm).
        { intros p Hp%hash_slot_elem_of. rewrite <- Hav in Hp.
          by apply get_available_proxies_elem_of in Hp as [? _]. }
        destruct (Proxy.key_proxy_bindings pm !! api_key) as [bound|] eqn:Hbound.
        -- case_bool_decide; [intros [= <- <-]; congruence|].
           destruct (Proxy.hash_slot hash api_key (a :: avail)) as [p|] eqn:Hp;
             intros [= <- <-]; cbn in Hb.
           ++ rewrite lookup_insert_eq in Hb. injection Hb as <-. by apply Hslot.
           ++ by rewrite lookup_delete_eq in Hb.
        -- destruct (Proxy.hash_slot hash api_key (a :: avail)) as [p|] eqn:Hp;
             intros [= <- <-]; cbn in Hb.
           ++ rewrite lookup_insert_eq in Hb. injection Hb as <-. by apply Hslot.
           ++ congruence.
      * rewrite (get_proxy_for_key_other_binding hash) in Hb by done. by eapply Hbind.
  - destruct Hc as (Hdis & Hcounts & Hbind). unfold Proxy.record_proxy_failure.
    destruct (truthy proxy); cbn [negb]; [|done].
    destruct (Proxy.proxy_failure_counts pm !! proxy) as [c|] eqn:Hcount; [|done].
    assert (Hin : proxy ∈ Proxy.proxies pm) by (apply Hcounts; by eexists).
    assert (Hcounts' : ∀ p, is_Some (<[proxy := c + 1]> (Proxy.proxy_failure_counts pm) !! p)
                            ↔ p ∈ Proxy.proxies pm).
    { intros p. destruct (decide (p = proxy)) as [->|Hne].
      - rewrite lookup_insert_eq. split; [done|by eexists].
      - rewrite lookup_insert_ne by done. apply Hcounts. }
    cbn zeta. case_bool_decide; cbn [snd]; split_and!;
      cbn [Proxy.disabled_proxies Proxy.proxy_failure_counts Proxy.key_proxy_bindings
           Proxy.proxies]; try done.
    + intros p [Hp| ->%elem_of_singleton]%elem_of_union; [by apply Hdis|done].
    + intros k p [Hb _]%unbind_proxy_lookup. by eapply Hbind.
  - destruct Hc as (Hdis & Hcounts & Hbind). unfold Proxy.record_proxy_success.
    destruct (truthy proxy); cbn [negb]; [|done].
    destruct (Proxy.proxy_failure_counts pm !! proxy) as [c|] eqn:Hcount; [|done].
    case_bool_decide; [|done]. split_and!; [done| |done].
    intros p. cbn. destruct (decide (p = proxy)) as [->|Hne].
    + rewrite lookup_insert_eq. split; [intros _; apply Hcounts; by eexists|by eexists].
    + rewrite lookup_insert_ne by done. apply Hcounts.
  - destruct Hc as (Hdis & Hcounts & Hbind). unfold Proxy.reset_proxy.
    split_and!.
    + intros p. cbn. intros [Hp _]%elem_of_difference.
      destruct (Proxy.proxy_failure_counts pm !! proxy); by apply Hdis.
    + intros p. cbn.
      destruct (Proxy.proxy_failure_counts pm !! proxy) as [c|] eqn:Hcount; [|apply Hcounts].
      cbn. destruct (decide (p = proxy)) as [->|Hne].
      * rewrite lookup_insert_eq. split; [intros _; apply Hcounts; by eexists|by eexists].
      * rewrite lookup_insert_ne by done. apply Hcounts.
    + intros k p. cbn. destruct (Proxy.proxy_failure_counts pm !! proxy); apply Hbind.
  - destruct Hc as (Hdis & Hcounts & Hbind). split_and!; cbn.
    + intros p Hp. by apply elem_of_empty in Hp.
    + intros p. rewrite (foldl_insert_lookup (λ _, 0)).
      case_decide; [split; [done|by eexists]|apply Hcounts].
    + intros k p Hb. by rewrite lookup_empty in Hb.
  - destruct Hc as (Hdis & Hcounts & Hbind). unfold Proxy.disable_proxy.
    case_bool_decide as Hin; [|done]. split_and!; cbn; [|done|].
    + intros p [Hp| ->%elem_of_singleton]%elem_of_union; [by apply Hdis|done].
    + intros k p [Hb _]%unbind_proxy_lookup. by eapply Hbind.
  - destruct Hc as (Hdis & Hcounts & Hbind). unfold Proxy.enable_proxy.
    case_bool_decide as Hin; [|done]. split_and!; cbn; [| |done].
    + intros p [Hp _]%elem_of_difference. by apply Hdis.
    + intros p. destruct (decide (p = proxy)) as [->|Hne].
      * rewrite lookup_insert_eq. split; [done|by eexists].
      * rewrite lookup_insert_ne by done. apply Hcounts.
  - done.
  - destruct Hc as (Hdis & Hcounts & Hbind). unfold Proxy.unbind_key_from_proxy.
    destruct (Proxy.key_proxy_bindings pm !! api_key) eqn:Hb; [|done].
    split_and!; cbn; [done|done|].
    intros k p Hk. apply lookup_delete_Some in Hk as [_ Hk]. by eapply Hbind.
Qed.

Lemma run_consistent pm (os : list Proxy.op) :
  Proxy.consistent pm → Proxy.consistent (Proxy.run hash pm os).
Proof.
  revert pm. induction os as [|o os IH]; intros pm Hc; [done|].
  apply IH. by apply step_consistent.
Qed.

(** Over a list without repetition, the listed members of a set [D] and the
    entries outside [D] make up the list. *)
Lemma length_filter_not_in (D : gset string) (l : list string) :
  NoDup l → (∀ x, x ∈ D → x ∈ l) →
  (length (List.filter (λ p, bool_decide (p ∉ D)) l) + size D = length l)%nat.
Proof.
  clear hash. revert D. induction l as [|p l IH]; intros D Hnodup Hsub.
  { assert (D = ∅) as -> by (apply set_eq; intros x; split;
      [intros ?%Hsub; by apply elem_of_nil in H | by intros ?%elem_of_empty]).
    by rewrite size_empty. }
  apply NoDup_cons in Hnodup as [Hp Hnodup]. cbn [List.filter length].
  destruct (decide (p ∈ D)) as [Hin|Hout].
  - rewrite bool_decide_eq_false_2 by (intros Hn; by apply Hn).
    assert (Hfilter : List.filter (λ q, bool_decide (q ∉ D)) l
                      = List.filter (λ q, bool_decide (q ∉ D ∖ {[p]})) l).
    { apply filter_ext_in. intros q Hq%list_elem_of_In.
      apply bool_decide_ext. rewrite elem_of_difference, elem_of_singleton.
      split; [tauto|]. intros Hn Hd. apply Hn. split; [done|]. by intros ->. }
    rewrite Hfilter.
    assert (Hsize : size D = S (size (D ∖ {[p]}))).
    { rewrite (union_difference_L {[p]} D) at 1 by (by apply singleton_subseteq_l).
      rewrite size_union by set_solver. by rewrite size_singleton. }
    rewrite Hsize, Nat.add_succ_r. f_equal. apply IH; [done|].
    intros x [Hx Hne]%elem_of_difference.
    apply Hsub, elem_of_cons in Hx as [->|Hx]; [|done].
    exfalso. apply Hne. by apply elem_of_singleton.
  - rewrite bool_decide_eq_true_2 by done. cbn [length]. rewrite Nat.add_succ_l.
    f_equal. apply IH; [done|].
    intros x Hx. pose proof (Hsub x Hx) as [->|Hl]%elem_of_cons; [done|done].
Qed.

End ProxyState.

(** X11.  The bookkeeping of a proxy manager never leaves its proxy list:
    after any sequence of operations on a fresh manager, only listed proxies
    are disabled, exactly the listed proxies have a failure count, and every
    key is bound to a listed proxy.  When the list has no repeated proxy, the
    [available] number of [get_proxy_status] is then the number of proxies
    that [get_available_proxies] returns, and [total = available + disabled]. *)
Theorem proxy_status_counts_available (hash : string → Z) (st : Settings)
    (ps : list string) (os : list Proxy.op) :
  NoDup (Proxy.proxies (Proxy.run hash (Proxy.init st ps) os)) →
  Proxy.consistent (Proxy.run hash (Proxy.init st ps) os)
  ∧ Proxy.status_available (Proxy.get_proxy_status (Proxy.run hash (Proxy.init st ps) os))
    = Z.of_nat (length (Proxy.get_available_proxies (Proxy.run hash (Proxy.init st ps) os)))
  ∧ Proxy.status_total (Proxy.get_proxy_status (Proxy.run hash (Proxy.init st ps) os))
    = Proxy.status_available (Proxy.get_proxy_status (Proxy.run hash (Proxy.init st ps) os))
      + Proxy.status_disabled (Proxy.get_proxy_status (Proxy.run hash (Proxy.init st ps) os)).
Proof.
  intros Hnodup.
  pose proof (run_consistent hash _ os (init_consistent st ps)) as Hc.
  split; [done|]. destruct Hc as (Hdis & _ & _).
  set (pm := Proxy.run hash (Proxy.init st ps) os) in *.
  pose proof (length_filter_not_in (Proxy.disabled_proxies pm) (Proxy.proxies pm)
                Hnodup Hdis) as Hlen.
  unfold Proxy.get_proxy_status, Proxy.get_available_proxies.
  cbn [Proxy.status_available Proxy.status_total Proxy.status_disabled].
  lia.
Qed.

Lemma proxy_status_counts_available_witness :
  let st := mkSettings 3 3 2 true in
  let pm := Proxy.run (λ _, 1) (Proxy.init st ["p1"; "p2"; "p3"]%string)
              [Proxy.OpRecordFailure "p2"%string; Proxy.OpRecordFailure "p2"%string;
               Proxy.OpReloadProxies ["p2"; "p3"; "p4"]%string] in
  Proxy.status_available (Proxy.get_proxy_status pm) = 2
  ∧ Proxy.get_available_proxies pm = ["p3"; "p4"]%string.
Proof.
  intros st pm. split; [|by vm_compute].
  destruct (proxy_status_counts_available (λ _, 1) st ["p1"; "p2"; "p3"]%string
              [Proxy.OpRecordFailure "p2"%string; Proxy.OpRecordFailure "p2"%string;
               Proxy.OpReloadProxies ["p2"; "p3"; "p4"]%string]) as (_ & Hav & _).
  { by_compute. }
  fold pm in Hav. rewrite Hav. by vm_compute.
Defined.

(** While some proxy is available, [get_proxy_for_key] answers with an
    available one. *)
Lemma get_proxy_for_key_available (hash : string → Z) (use_hash : bool)
    (choice : nat) (pm : Proxy.ProxyManager) (api_key : string) :
  Proxy.get_available_proxies pm ≠ [] →
  ∃ proxy pm',
    Proxy.get_proxy_for_key hash use_hash choice pm api_key = (Some proxy, pm')
    ∧ Proxy.available pm proxy
    ∧ Proxy.available pm' proxy
    ∧ (use_hash = false → pm' = pm)
    ∧ (use_hash = true → Proxy.key_proxy_bindings pm' !! api_key = Some proxy).
Proof.
  intros Hav.
  pose proof (get_proxy_for_key_fields hash use_hash choice pm api_key) as Hfields.
  cbn zeta in Hfields. destruct Hfields as [Hps Hdis].
  assert (Hsame : ∀ proxy, Proxy.available pm proxy →
            Proxy.available (Proxy.get_proxy_for_key hash use_hash choice pm api_key).2 proxy).
  { intros proxy. unfold Proxy.available. by rewrite Hps, Hdis. }
  revert Hsame. unfold Proxy.get_proxy_for_key.
  destruct (Proxy.proxies pm) as [|first ps] eqn:Hlist.
  { exfalso. apply Hav. unfold Proxy.get_available_proxies. by rewrite Hlist. }
  destruct (Proxy.get_available_proxies pm) as [|a avail] eqn:Havail; [done|].
  assert (Hmem : ∀ proxy, proxy ∈ a :: avail → Proxy.available pm proxy).
  { intros proxy. rewrite <- Havail. apply get_available_proxies_elem_of. }
  destruct use_hash.
  - destruct (hash_slot_is_Some hash api_key (a :: avail)) as [slot Hslot]; [done|].
    pose proof (Hmem slot (hash_slot_elem_of hash _ _ _ Hslot)) as Hslot_av.
    rewrite Hslot.
    destruct (Proxy.key_proxy_bindings pm !! api_key) as [bound|] eqn:Hbound.
    + case_bool_decide as Hbav.
      * intros Hsame. exists bound, pm. split_and!; auto.
      * intros Hsame. eexists slot, _. split_and!; [done|done|by apply Hsame|discriminate|].
        intros _. cbn. by rewrite lookup_insert_eq.
    + intros Hsame. eexists slot, _. split_and!; [done|done|by apply Hsame|discriminate|].
      intros _. cbn. by rewrite lookup_insert_eq.
  - intros Hsame.
    destruct ((a :: avail) !! (choice mod length (a :: avail))%nat) as [p|] eqn:Hp.
    + apply list_elem_of_lookup_2, Hmem in Hp.
      exists p, pm. split_and!; auto. discriminate.
    + apply lookup_ge_None in Hp.
      pose proof (Nat.mod_upper_bound choice (length (a :: avail))) as Hlt.
      cbn [length] in *. lia.
Qed.

(** X12.  [get_proxy_for_key] answers [None] only when no proxy is
    configured.  While some proxy is available it answers with an available
    one, recorded as the binding of the key in consistency-hash mode and
    without any change of state in random mode.  When every proxy is disabled
    it falls back to the first proxy of the list, disabled as it is, and
    records nothing. *)
Theorem get_proxy_for_key_prefers_available (hash : string → Z) (use_hash : bool)
    (choice : nat) (pm : Proxy.ProxyManager) (api_key : string) :
  (Proxy.proxies pm = [] →
   Proxy.get_proxy_for_key hash use_hash choice pm api_key = (None, pm))
  ∧ (Proxy.get_available_proxies pm = [] →
     Proxy.get_proxy_for_key hash use_hash choice pm api_key
       = (head (Proxy.proxies pm), pm))
  ∧ (Proxy.get_available_proxies pm ≠ [] →
     ∃ proxy pm',
       Proxy.get_proxy_for_key hash use_hash choice pm api_key = (Some proxy, pm')
       ∧ Proxy.available pm proxy
       ∧ Proxy.available pm' proxy
       ∧ (use_hash = false → pm' = pm)
       ∧ (use_hash = true → Proxy.key_proxy_bindings pm' !! api_key = Some proxy)).
Proof.
  split_and!.
  - intros Hnil. unfold Proxy.get_proxy_for_key. by rewrite Hnil.
  - intros Hnil. unfold Proxy.get_proxy_for_key. rewrite Hnil.
    by destruct (Proxy.proxies pm).
  - apply get_proxy_for_key_available.
Qed.

(** X13.  A success report never re-enables a proxy.  When the failure that
    reaches the threshold is followed by a success, the failure count is back
    at zero but the proxy is still disabled and out of the available list;
    [reset_proxy] puts it back. *)
Theorem record_proxy_success_never_enables (pm : Proxy.ProxyManager)
    (proxy : string) (c : Z) :
  proxy ≠ ""%string →
  Proxy.proxy_failure_counts pm !! proxy = Some c →
  0 < Proxy.MAX_FAILURES pm →
  Proxy.MAX_FAILURES pm <= c + 1 →
  Proxy.disabled_proxies (Proxy.record_proxy_success pm proxy) = Proxy.disabled_proxies pm
  ∧ Proxy.proxy_failure_counts
      (Proxy.record_proxy_success (Proxy.record_proxy_failure pm proxy).2 proxy) !! proxy
    = Some 0
  ∧ proxy ∈ Proxy.disabled_proxies
              (Proxy.record_proxy_success (Proxy.record_proxy_failure pm proxy).2 proxy)
  ∧ (proxy ∉ Proxy.get_available_proxies
               (Proxy.record_proxy_success (Proxy.record_proxy_failure pm proxy).2 proxy))
  ∧ (proxy ∈ Proxy.proxies pm →
     proxy ∈ Proxy.get_available_proxies
               (Proxy.reset_proxy
                  (Proxy.record_proxy_success (Proxy.record_proxy_failure pm proxy).2 proxy)
                  proxy)).
Proof.
  intros Hne Hc Hmax Hreach.
  assert (Hsucc : ∀ pm0, Proxy.disabled_proxies (Proxy.record_proxy_success pm0 proxy)
                         = Proxy.disabled_proxies pm0
                         ∧ Proxy.proxies (Proxy.record_proxy_success pm0 proxy)
                           = Proxy.proxies pm0).
  { intros pm0. unfold Proxy.record_proxy_success.
    destruct (negb (truthy proxy)); [done|].
    destruct (Proxy.proxy_failure_counts pm0 !! proxy); [|done]. by case_bool_decide. }
  destruct (record_proxy_failure_known pm proxy c Hne Hc)
    as (pm1 & Hfail & Hps1 & Hmax1 & Hcounts1 & Hdis1 & _).
  destruct (Hdis1 Hreach) as [Hdis1' _]. rewrite Hfail. cbn [snd].
  destruct (Hsucc pm1) as [Hdis2 Hps2].
  assert (Hin : proxy ∈ Proxy.disabled_proxies (Proxy.record_proxy_success pm1 proxy)).
  { rewrite Hdis2, Hdis1'. apply elem_of_union_r. by apply elem_of_singleton. }
  split_and!.
  - apply Hsucc.
  - unfold Proxy.record_proxy_success, truthy.
    rewrite (bool_decide_eq_true_2 (proxy ≠ ""%string) Hne). cbn [negb].
    rewrite Hcounts1, lookup_insert_eq.
    rewrite bool_decide_eq_true_2 by lia. cbn. by rewrite lookup_insert_eq.
  - done.
  - intros [_ Hnot]%get_available_proxies_elem_of. by apply Hnot.
  - intros Hlisted. apply get_available_proxies_elem_of. split.
    + unfold Proxy.reset_proxy. cbn zeta.
      destruct (Proxy.proxy_failure_counts (Proxy.record_proxy_success pm1 proxy) !! proxy);
        cbn [Proxy.proxies Proxy.set_disabled Proxy.set_counts]; by rewrite Hps2, Hps1.
    + unfold Proxy.reset_proxy. cbn zeta.
      cbn [Proxy.disabled_proxies Proxy.set_disabled]. intros [_ Hn]%elem_of_difference.
      apply Hn. by apply elem_of_singleton.
Qed.

Lemma record_proxy_success_never_enables_witness :
  let st := mkSettings 3 3 1 true in
  let pm := Proxy.init st ["p1"; "p2"]%string in
  let pm' := Proxy.record_proxy_success (Proxy.record_proxy_failure pm "p1"%string).2
               "p1"%string in
  Proxy.proxy_failure_counts pm' !! "p1"%string = Some 0
  ∧ Proxy.get_available_proxies pm' = ["p2"]%string.
Proof.
  intros st pm pm'.
  destruct (record_proxy_success_never_enables pm "p1"%string 0)
    as (_ & Hcount & _); [done | by vm_compute | by vm_compute | by vm_compute |].
  split; [exact Hcount | by vm_compute].
Defined.

(** X14.  [reload_proxies] installs the new list and keeps the state of
    every proxy that stays: its failure count, whether it is disabled, and
    the keys bound to it.  A proxy that was not listed before starts with a
    count of zero; a proxy that is no longer listed loses its count, its
    disabled mark and every binding.  Reloading the current list changes
    nothing. *)
Theorem reload_proxies_keeps_survivors (pm : Proxy.ProxyManager)
    (new_proxies : list string) :
  Proxy.proxies (Proxy.reload_proxies pm new_proxies) = new_proxies
  ∧ (∀ proxy, proxy ∈ Proxy.proxies pm → proxy ∈ new_proxies →
       Proxy.proxy_failure_counts (Proxy.reload_proxies pm new_proxies) !! proxy
         = Proxy.proxy_failure_counts pm !! proxy
       ∧ (proxy ∈ Proxy.disabled_proxies (Proxy.reload_proxies pm new_proxies)
          ↔ proxy ∈ Proxy.disabled_proxies pm)
       ∧ (∀ api_key,
            Proxy.key_proxy_bindings (Proxy.reload_proxies pm new_proxies) !! api_key
              = Some proxy
            ↔ Proxy.key_proxy_bindings pm !! api_key = Some proxy))
  ∧ (∀ proxy, proxy ∉ Proxy.proxies pm → proxy ∈ new_proxies →
       Proxy.proxy_failure_counts (Proxy.reload_proxies pm new_proxies) !! proxy = Some 0)
  ∧ (∀ proxy, proxy ∈ Proxy.proxies pm → proxy ∉ new_proxies →
       Proxy.proxy_failure_counts (Proxy.reload_proxies pm new_proxies) !! proxy = None
       ∧ (proxy ∉ Proxy.disabled_proxies (Proxy.reload_proxies pm new_proxies))
       ∧ (∀ api_key,
            Proxy.key_proxy_bindings (Proxy.reload_proxies pm new_proxies) !! api_key
              ≠ Some proxy))
  ∧ Proxy.reload_proxies pm (Proxy.proxies pm) = pm.
Proof.
  set (hash := λ _ : string, 0).
  split_and!.
  - done.
  - intros proxy Hold Hnew. split_and!.
    + rewrite (reload_proxies_counts hash).
      rewrite decide_False by tauto. by rewrite decide_False by tauto.
    + rewrite (reload_proxies_disabled hash). tauto.
    + intros api_key. rewrite (reload_proxies_bindings hash). tauto.
  - intros proxy Hold Hnew. rewrite (reload_proxies_counts hash).
    rewrite decide_False by tauto. by rewrite decide_True by tauto.
  - intros proxy Hold Hnew. split_and!.
    + rewrite (reload_proxies_counts hash). by rewrite decide_True by tauto.
    + rewrite (reload_proxies_disabled hash). tauto.
    + intros api_key. rewrite (reload_proxies_bindings hash). tauto.
  - unfold Proxy.reload_proxies.
    assert (Hnone : List.filter (λ p, bool_decide (p ∉ Proxy.proxies pm)) (Proxy.proxies pm)
                    = []).
    { destruct (List.filter _ (Proxy.proxies pm)) as [|x xs] eqn:Hf; [done|].
      assert (Hx : x ∈ List.filter (λ p, bool_decide (p ∉ Proxy.proxies pm)) (Proxy.proxies pm))
        by (rewrite Hf; by left).
      apply elem_of_filter_bool in Hx as [Hin Hx].
      by apply bool_decide_eq_true_1 in Hx. }
    rewrite Hnone. cbn [foldl]. by destruct pm.
Qed.

(** * Further facts about the streaming loop *)
Section StreamLogs.

Variable st : Settings.
Variable config : Provider.ProviderConfig.
Variable upstream : Z → string → Stream.Upstream.

Implicit Types (km : Key.KeyManager) (evs : list Stream.Event).

(** Reasoning along the iterations of the loop: a property of the runs holds
    when it holds for a loop that is not entered, for one cut short, for a
    successful attempt, for a failed attempt that raises, and is carried from
    the rest of the run over a failed attempt that is retried. *)
Lemma stream_loop_induction (P : Z → string → Key.KeyManager → Stream.Run → Prop) :
  (∀ retries key km, ¬ retries < Provider.max_retries config →
     P retries key km
       {| Stream.events := []; Stream.outcome := Stream.Completed; Stream.final_km := km |}) →
  (∀ retries key km, retries < Provider.max_retries config →
     P retries key km
       {| Stream.events := []; Stream.outcome := Stream.Stuck; Stream.final_km := km |}) →
  (∀ retries key km cs, retries < Provider.max_retries config →
     Stream.attempt (upstream retries key) = (cs, None) →
     P retries key km
       {| Stream.events :=
            (Stream.Request retries key :: (Stream.Yield <$> cs))
              ++ [Stream.RequestLog key true (PInt 200)];
          Stream.outcome := Stream.Completed; Stream.final_km := km |}) →
  (∀ retries key km cs e new_api_key km', retries < Provider.max_retries config →
     Stream.attempt (upstream retries key) = (cs, Some e) →
     Key.handle_api_failure st km key (retries + 1) = Some (new_api_key, km') →
     truthy new_api_key = false ∨ retries + 1 >= Provider.max_retries config →
     P retries key km
       {| Stream.events := Stream.failed_attempt_events retries key cs e;
          Stream.outcome := Stream.Raised e; Stream.final_km := km' |}) →
  (∀ retries key km cs e new_api_key km' rest,
     retries < Provider.max_retries config →
     Stream.attempt (upstream retries key) = (cs, Some e) →
     Key.handle_api_failure st km key (retries + 1) = Some (new_api_key, km') →
     truthy new_api_key = true →
     retries + 1 < Provider.max_retries config →
     P (retries + 1) (if bool_decide (new_api_key ≠ key) then new_api_key else key) km' rest →
     P retries key km (Stream.prepend (Stream.failed_attempt_events retries key cs e) rest)) →
  ∀ (fuel : nat) retries key km,
    P retries key km (Stream.stream_loop st config upstream fuel retries key km).
Proof.
  intros Hdone Hfuel Hok Hraise Hnext fuel.
  induction fuel as [|fuel IH]; intros retries key km.
  - destruct (decide (retries < Provider.max_retries config)) as [Hlt|Hge].
    + cbn [Stream.stream_loop]. rewrite bool_decide_eq_true_2 by done. by apply Hfuel.
    + rewrite stream_loop_done by done. by apply Hdone.
  - destruct (decide (retries < Provider.max_retries config)) as [Hlt|Hge].
    + rewrite stream_loop_unfold by done.
      destruct (Stream.attempt (upstream retries key)) as [cs [e|]] eqn:Hatt.
      * destruct (handle_api_failure_total st km key (retries + 1))
          as (new_api_key & km' & Hfail).
        rewrite Hfail. destruct (truthy new_api_key) eqn:Htruthy; cbn [negb].
        -- case_bool_decide as Hlast.
           ++ eapply Hraise; eauto.
           ++ eapply Hnext; eauto. lia.
        -- eapply Hraise; eauto.
      * by apply Hok.
    + rewrite stream_loop_done by done. by apply Hdone.
Qed.

Lemma request_logs_app evs1 evs2 :
  Stream.request_logs (evs1 ++ evs2) = Stream.request_logs evs1 ++ Stream.request_logs evs2.
Proof. apply omap_app. Qed.

Lemma error_logs_app evs1 evs2 :
  Stream.error_logs (evs1 ++ evs2) = Stream.error_logs evs1 ++ Stream.error_logs evs2.
Proof. apply omap_app. Qed.

Lemma request_logs_Yield (cs : list string) : Stream.request_logs (Stream.Yield <$> cs) = [].
Proof. unfold Stream.request_logs. by induction cs. Qed.

Lemma error_logs_Yield (cs : list string) : Stream.error_logs (Stream.Yield <$> cs) = [].
Proof. unfold Stream.error_logs. by induction cs. Qed.

Lemma failed_attempt_events_request_logs retries key cs e :
  Stream.request_logs (Stream.failed_attempt_events retries key cs e)
  = [(key, false, error_code_of e)].
Proof.
  unfold Stream.failed_attempt_events.
  change (Stream.Request retries key :: (Stream.Yield <$> cs))
    with ([Stream.Request retries key] ++ (Stream.Yield <$> cs)).
  by rewrite !request_logs_app, request_logs_Yield.
Qed.

Lemma failed_attempt_events_error_logs retries key cs e :
  Stream.error_logs (Stream.failed_attempt_events retries key cs e)
  = [(key, error_code_of e, error_msg_of e)].
Proof.
  unfold Stream.failed_attempt_events.
  change (Stream.Request retries key :: (Stream.Yield <$> cs))
    with ([Stream.Request retries key] ++ (Stream.Yield <$> cs)).
  by rewrite !error_logs_app, error_logs_Yield.
Qed.

Lemma success_events_requests retries key cs :
  Stream.requests ((Stream.Request retries key :: (Stream.Yield <$> cs))
                     ++ [Stream.RequestLog key true (PInt 200)])
  = [(retries, key)].
Proof.
  rewrite requests_app, requests_Request, requests_Yield. done.
Qed.

Lemma success_events_request_logs retries key cs :
  Stream.request_logs ((Stream.Request retries key :: (Stream.Yield <$> cs))
                         ++ [Stream.RequestLog key true (PInt 200)])
  = [(key, true, PInt 200)].
Proof.
  change (Stream.Request retries key :: (Stream.Yield <$> cs))
    with ([Stream.Request retries key] ++ (Stream.Yield <$> cs)).
  by rewrite !request_logs_app, request_logs_Yield.
Qed.

Lemma success_events_error_logs retries key cs :
  Stream.error_logs ((Stream.Request retries key :: (Stream.Yield <$> cs))
                       ++ [Stream.RequestLog key true (PInt 200)])
  = [].
Proof.
  change (Stream.Request retries key :: (Stream.Yield <$> cs))
    with ([Stream.Request retries key] ++ (Stream.Yield <$> cs)).
  by rewrite !error_logs_app, error_logs_Yield.
Qed.

Lemma failure_of_attempt retries key cs (failure : option PyException) :
  Stream.attempt (upstream retries key) = (cs, failure) →
  Stream.failure_of upstream (retries, key) = failure.
Proof. unfold Stream.failure_of. cbn [fst snd]. by intros ->. Qed.

(** The request log and the error log are determined by the requests made. *)
Lemma stream_loop_logs (fuel : nat) (retries : Z) key km :
  let evs := Stream.events (Stream.stream_loop st config upstream fuel retries key km) in
  Stream.request_logs evs
  = (λ rq, (rq.2,
            bool_decide (Stream.failure_of upstream rq = None),
            from_option error_code_of (PInt 200) (Stream.failure_of upstream rq)))
      <$> Stream.requests evs
  ∧ Stream.error_logs evs
    = omap (λ rq, (λ e, (rq.2, error_code_of e, error_msg_of e))
                    <$> Stream.failure_of upstream rq)
           (Stream.requests evs).
Proof.
  cbn zeta. revert fuel retries key km.
  apply (stream_loop_induction (λ _ _ _ run,
    Stream.request_logs (Stream.events run)
    = (λ rq, (rq.2,
              bool_decide (Stream.failure_of upstream rq = None),
              from_option error_code_of (PInt 200) (Stream.failure_of upstream rq)))
        <$> Stream.requests (Stream.events run)
    ∧ Stream.error_logs (Stream.events run)
      = omap (λ rq, (λ e, (rq.2, error_code_of e, error_msg_of e))
                      <$> Stream.failure_of upstream rq)
             (Stream.requests (Stream.events run)))).
  - done.
  - done.
  - intros retries key km cs Hlt Hatt. cbn [Stream.events].
    rewrite success_events_requests, success_events_request_logs, success_events_error_logs.
    cbn [fmap list_fmap omap list_omap snd].
    by rewrite (failure_of_attempt _ _ _ _ Hatt).
  - intros retries key km cs e new_api_key km' Hlt Hatt Hfail Hend. cbn [Stream.events].
    rewrite failed_attempt_events_requests, failed_attempt_events_request_logs,
      failed_attempt_events_error_logs.
    cbn [fmap list_fmap omap list_omap snd].
    by rewrite (failure_of_attempt _ _ _ _ Hatt).
  - intros retries key km cs e new_api_key km' rest Hlt Hatt Hfail Htruthy Hmore [IH1 IH2].
    unfold Stream.prepend. cbn [Stream.events].
    rewrite requests_app, request_logs_app, error_logs_app.
    rewrite failed_attempt_events_requests, failed_attempt_events_request_logs,
      failed_attempt_events_error_logs, IH1, IH2.
    cbn [app fmap list_fmap omap list_omap snd].
    by rewrite (failure_of_attempt _ _ _ _ Hatt).
Qed.

Lemma record_failure_counts_ext km1 km2 key :
  Key.key_failure_counts km1 = Key.key_failure_counts km2 →
  Key.key_failure_counts (Key.record_failure km1 key)
  = Key.key_failure_counts (Key.record_failure km2 key).
Proof.
  intros Heq. unfold Key.record_failure. rewrite Heq.
  destruct (Key.key_failure_counts km2 !! key); cbn; by rewrite ?Heq.
Qed.

Lemma foldl_record_failure_counts_ext (keys : list string) km1 km2 :
  Key.key_failure_counts km1 = Key.key_failure_counts km2 →
  Key.key_failure_counts (foldl Key.record_failure km1 keys)
  = Key.key_failure_counts (foldl Key.record_failure km2 keys).
Proof.
  revert km1 km2. induction keys as [|k keys IH]; intros km1 km2 Heq; [done|].
  cbn [foldl]. apply IH. by apply record_failure_counts_ext.
Qed.

Lemma handle_api_failure_counts km key (retries : Z) new_api_key km' :
  Key.handle_api_failure st km key retries = Some (new_api_key, km') →
  Key.key_failure_counts km' = Key.key_failure_counts (Key.record_failure km key)
  ∧ Key.api_keys km' = Key.api_keys km
  ∧ Key.MAX_FAILURES km' = Key.MAX_FAILURES km
  ∧ (truthy new_api_key = true → retries < S_MAX_RETRIES st).
Proof.
  assert (Hrec : Key.api_keys (Key.record_failure km key) = Key.api_keys km
                 ∧ Key.MAX_FAILURES (Key.record_failure km key) = Key.MAX_FAILURES km).
  { unfold Key.record_failure. by destruct (Key.key_failure_counts km !! key). }
  destruct Hrec as [Hkeys Hmax].
  unfold Key.handle_api_failure. case_bool_decide as Hlt.
  - intros Hnext.
    destruct (get_next_working_key_total (Key.record_failure km key))
      as (k & km1 & Hk & (Hk1 & Hc1 & Hm1) & _).
    rewrite Hnext in Hk. injection Hk as <- <-.
    split_and!; [done | congruence | congruence | done].
  - intros [= <- <-]. split_and!; [done | done | done | done].
Qed.

Lemma stream_loop_final_km (fuel : nat) (retries : Z) key km :
  let run := Stream.stream_loop st config upstream fuel retries key km in
  Key.key_failure_counts (Stream.final_km run)
  = Key.key_failure_counts
      (foldl Key.record_failure km (Stream.failed_keys upstream (Stream.requests (Stream.events run))))
  ∧ Key.api_keys (Stream.final_km run) = Key.api_keys km
  ∧ Key.MAX_FAILURES (Stream.final_km run) = Key.MAX_FAILURES km.
Proof.
  cbn zeta. revert fuel retries key km.
  apply (stream_loop_induction (λ _ _ km run,
    Key.key_failure_counts (Stream.final_km run)
    = Key.key_failure_counts
        (foldl Key.record_failure km (Stream.failed_keys upstream (Stream.requests (Stream.events run))))
    ∧ Key.api_keys (Stream.final_km run) = Key.api_keys km
    ∧ Key.MAX_FAILURES (Stream.final_km run) = Key.MAX_FAILURES km)).
  - done.
  - done.
  - intros retries key km cs Hlt Hatt. cbn [Stream.events Stream.final_km].
    rewrite success_events_requests. unfold Stream.failed_keys. cbn [List.filter].
    rewrite (failure_of_attempt _ _ _ _ Hatt).
    by rewrite bool_decide_eq_false_2 by (by intros [? ?]).
  - intros retries key km cs e new_api_key km' Hlt Hatt Hfail Hend.
    cbn [Stream.events Stream.final_km].
    rewrite failed_attempt_events_requests. unfold Stream.failed_keys. cbn [List.filter].
    rewrite (failure_of_attempt _ _ _ _ Hatt).
    rewrite bool_decide_eq_true_2 by (by eexists).
    apply handle_api_failure_counts in Hfail as (Hc & Hk & Hm & _).
    split_and!; done.
  - intros retries key km cs e new_api_key km' rest Hlt Hatt Hfail Htruthy Hmore
      (IHc & IHk & IHm).
    unfold Stream.prepend. cbn [Stream.events Stream.final_km].
    rewrite requests_app, failed_attempt_events_requests. unfold Stream.failed_keys in *.
    cbn [app List.filter].
    rewrite (failure_of_attempt _ _ _ _ Hatt).
    rewrite bool_decide_eq_true_2 by (by eexists).
    apply handle_api_failure_counts in Hfail as (Hc & Hk & Hm & _).
    split_and!; [|congruence|congruence].
    rewrite IHc. cbn [fmap list_fmap snd foldl].
    by apply foldl_record_failure_counts_ext.
Qed.

Lemma stream_loop_outcome (fuel : nat) (retries : Z) key km :
  let run := Stream.stream_loop st config upstream fuel retries key km in
  match Stream.outcome run with
  | Stream.Completed =>
      (Stream.requests (Stream.events run) = [] ∧ ¬ retries < Provider.max_retries config)
      ∨ ∃ rq, last (Stream.requests (Stream.events run)) = Some rq
              ∧ Stream.failure_of upstream rq = None
  | Stream.Raised e =>
      ∃ rq, last (Stream.requests (Stream.events run)) = Some rq
            ∧ Stream.failure_of upstream rq = Some e
  | Stream.Stuck => True
  end.
Proof.
  cbn zeta. revert fuel retries key km.
  apply (stream_loop_induction (λ retries _ _ run,
    match Stream.outcome run with
    | Stream.Completed =>
        (Stream.requests (Stream.events run) = [] ∧ ¬ retries < Provider.max_retries config)
        ∨ ∃ rq, last (Stream.requests (Stream.events run)) = Some rq
                ∧ Stream.failure_of upstream rq = None
    | Stream.Raised e =>
        ∃ rq, last (Stream.requests (Stream.events run)) = Some rq
              ∧ Stream.failure_of upstream rq = Some e
    | Stream.Stuck => True
    end)).
  - intros. by left.
  - done.
  - intros retries key km cs Hlt Hatt. cbn [Stream.events Stream.outcome].
    rewrite success_events_requests. right. exists (retries, key).
    split; [done|]. by apply (failure_of_attempt _ _ cs).
  - intros retries key km cs e new_api_key km' Hlt Hatt Hfail Hend.
    cbn [Stream.events Stream.outcome].
    rewrite failed_attempt_events_requests. exists (retries, key).
    split; [done|]. by apply (failure_of_attempt _ _ cs).
  - intros retries key km cs e new_api_key km' rest Hlt Hatt Hfail Htruthy Hmore IH.
    unfold Stream.prepend. cbn [Stream.events Stream.outcome].
    rewrite requests_app, failed_attempt_events_requests. cbn [app].
    destruct (Stream.outcome rest) as [|e'|]; [| |done].
    + destruct IH as [[_ Hnot]|(rq & Hlast & Hrq)]; [done|].
      right. exists rq. split; [|done].
      destruct (Stream.requests (Stream.events rest)); [done|]. done.
    + destruct IH as (rq & Hlast & Hrq). exists rq. split; [|done].
      destruct (Stream.requests (Stream.events rest)); [done|]. done.
Qed.



End StreamLogs.

Section StreamBudget.

Variable st : Settings.
Variable config : Provider.ProviderConfig.
Variable upstream : Z → string → Stream.Upstream.

(** A failed attempt is retried only while [handle_api_failure] hands out a
    key, which it stops doing once [retries] reaches [settings.MAX_RETRIES]. *)
Lemma stream_loop_global_budget (fuel : nat) (retries : Z) key (km : Key.KeyManager) :
  Z.of_nat (length (Stream.requests
                      (Stream.events (Stream.stream_loop st config upstream fuel retries key km))))
  <= Z.max 1 (S_MAX_RETRIES st - retries).
Proof.
  revert fuel retries key km.
  apply (stream_loop_induction st config upstream (λ retries _ _ run,
    Z.of_nat (length (Stream.requests (Stream.events run)))
    <= Z.max 1 (S_MAX_RETRIES st - retries))).
  - intros. cbn. lia.
  - intros. cbn. lia.
  - intros retries key km cs Hlt Hatt. cbn [Stream.events].
    rewrite success_events_requests. cbn. lia.
  - intros retries key km cs e new_api_key km' Hlt Hatt Hfail Hend. cbn [Stream.events].
    rewrite failed_attempt_events_requests. cbn. lia.
  - intros retries key km cs e new_api_key km' rest Hlt Hatt Hfail Htruthy Hmore IH.
    unfold Stream.prepend. cbn [Stream.events].
    rewrite requests_app, failed_attempt_events_requests. cbn [app length].
    apply handle_api_failure_counts in Hfail as (_ & _ & _ & Hbudget).
    specialize (Hbudget Htruthy). lia.
Qed.

End StreamBudget.




(** X15.  Every attempt of a streaming call is logged: the request log has
    one record per upstream request, in order, with the key of that request,
    the success flag of that attempt and its status (200, or the code of the
    exception); the error log has one record for each failed attempt, with
    the key that failed, the code and the message of the exception. *)
Theorem stream_logs_every_attempt (st : Settings) (config : Provider.ProviderConfig)
    (upstream : Z → string → Stream.Upstream) (km : Key.KeyManager) (api_key : string) :
  Stream.request_logs
    (Stream.events (Stream._handle_stream_completion st config upstream km api_key))
  = (λ rq, (rq.2,
            bool_decide (Stream.failure_of upstream rq = None),
            from_option error_code_of (PInt 200) (Stream.failure_of upstream rq)))
      <$> Stream.requests
            (Stream.events (Stream._handle_stream_completion st config upstream km api_key))
  ∧ Stream.error_logs
      (Stream.events (Stream._handle_stream_completion st config upstream km api_key))
    = omap (λ rq, (λ e, (rq.2, error_code_of e, error_msg_of e))
                    <$> Stream.failure_of upstream rq)
           (Stream.requests
              (Stream.events (Stream._handle_stream_completion st config upstream km api_key)))
  ∧ length (Stream.request_logs
              (Stream.events (Stream._handle_stream_completion st config upstream km api_key)))
    = length (Stream.requests
                (Stream.events (Stream._handle_stream_completion st config upstream km api_key))).
Proof.
  unfold Stream._handle_stream_completion.
  destruct (stream_loop_logs st config upstream
              (Z.to_nat (Provider.max_retries config)) 0 api_key km) as [Hreq Herr].
  cbn zeta in Hreq, Herr. split_and!; [done | done |].
  by rewrite Hreq, length_fmap.
Qed.

(** X16.  A streaming call charges each failed attempt to the key that made
    it, and nothing else: the failure counts it leaves are those obtained by
    adding one failure per failed request, in order, to the counts it
    started from; the pool and the threshold are unchanged. *)
Theorem stream_charges_each_failed_attempt (st : Settings)
    (config : Provider.ProviderConfig) (upstream : Z → string → Stream.Upstream)
    (km : Key.KeyManager) (api_key : string) :
  Key.key_failure_counts
    (Stream.final_km (Stream._handle_stream_completion st config upstream km api_key))
  = Key.key_failure_counts
      (foldl Key.record_failure km
         (Stream.failed_keys upstream
            (Stream.requests
               (Stream.events
                  (Stream._handle_stream_completion st config upstream km api_key)))))
  ∧ Key.api_keys
      (Stream.final_km (Stream._handle_stream_completion st config upstream km api_key))
    = Key.api_keys km
  ∧ Key.MAX_FAILURES
      (Stream.final_km (Stream._handle_stream_completion st config upstream km api_key))
    = Key.MAX_FAILURES km.
Proof.
  unfold Stream._handle_stream_completion.
  apply (stream_loop_final_km st config upstream).
Qed.

(** X17.  A streaming call raises the exception of its last attempt, and
    only that one: when the generator raises [e], the last request it sent
    failed with [e]; when it ends normally, either no request was sent
    (the budget [max_retries] is zero or less) or the last request
    succeeded.  It always ends in one of the two ways. *)
Theorem stream_raises_last_error (st : Settings) (config : Provider.ProviderConfig)
    (upstream : Z → string → Stream.Upstream) (km : Key.KeyManager) (api_key : string) :
  match Stream.outcome (Stream._handle_stream_completion st config upstream km api_key) with
  | Stream.Completed =>
      (Stream.requests
         (Stream.events (Stream._handle_stream_completion st config upstream km api_key)) = []
       ∧ Provider.max_retries config <= 0)
      ∨ ∃ rq,
          last (Stream.requests
                  (Stream.events
                     (Stream._handle_stream_completion st config upstream km api_key)))
            = Some rq
          ∧ Stream.failure_of upstream rq = None
  | Stream.Raised e =>
      ∃ rq,
        last (Stream.requests
                (Stream.events
                   (Stream._handle_stream_completion st config upstream km api_key)))
          = Some rq
        ∧ Stream.failure_of upstream rq = Some e
  | Stream.Stuck => False
  end.
Proof.
  unfold Stream._handle_stream_completion.
  pose proof (stream_loop_outcome st config upstream
                (Z.to_nat (Provider.max_retries config)) 0 api_key km) as Hout.
  pose proof (stream_loop_not_stuck st config upstream
                (Z.to_nat (Provider.max_retries config)) 0 api_key km) as Hstuck.
  cbn zeta in Hout.
  destruct (Stream.outcome _) as [|e|].
  - destruct Hout as [[Hnil Hbudget]|Hlast]; [left; split; [done|lia]|by right].
  - done.
  - apply Hstuck; [lia|done].
Qed.

(** X18.  The global [settings.MAX_RETRIES] also bounds a provider's
    streaming call, whatever the provider's own [max_retries]: the call sends
    at most [max(1, settings.MAX_RETRIES)] requests, and at most
    [max(0, max_retries)]; the requests are numbered 0, 1, 2, ... *)
Theorem stream_attempts_capped_by_global_max_retries (st : Settings)
    (config : Provider.ProviderConfig) (upstream : Z → string → Stream.Upstream)
    (km : Key.KeyManager) (api_key : string) :
  Z.of_nat (length (Stream.requests
                      (Stream.events
                         (Stream._handle_stream_completion st config upstream km api_key))))
  <= Z.min (Z.max 1 (S_MAX_RETRIES st)) (Z.max 0 (Provider.max_retries config))
  ∧ (Stream.requests
       (Stream.events (Stream._handle_stream_completion st config upstream km api_key))).*1
    = Z.of_nat
        <$> seq 0 (length (Stream.requests
                             (Stream.events
                                (Stream._handle_stream_completion st config upstream km api_key)))).
Proof.
  unfold Stream._handle_stream_completion.
  pose proof (stream_loop_global_budget st config upstream
                (Z.to_nat (Provider.max_retries config)) 0 api_key km) as Hglobal.
  destruct (stream_loop_requests st config upstream
              (Z.to_nat (Provider.max_retries config)) 0 api_key km) as [Hnum Hlocal].
  cbn zeta in Hnum, Hlocal. split; [lia|].
  rewrite Hnum. apply list_fmap_ext. intros i n _. lia.
Qed.

(** X19.  A non-stream chat completion never touches a failure count, even
    when the upstream call fails.  It raises [Exception(500, ...)] without
    sending anything when it is given no key and the manager hands out the
    empty string; otherwise it sends one request with a non-empty key,
    writes one request-log record, and writes an error-log record exactly
    when the call failed. *)
Theorem normal_completion_never_charges_key (st : Settings)
    (config : Provider.ProviderConfig) (upstream : Z → string → Stream.Upstream)
    (normal_upstream : string → Stream.NormalUpstream)
    (km : Key.KeyManager) (api_key : option string) :
  match Stream.create_chat_completion st config upstream normal_upstream km api_key false with
  | Stream.Normal evs result km' =>
      Key.key_failure_counts km' = Key.key_failure_counts km
      ∧ (∃ key, key ≠ ""%string
                ∧ Stream.requests evs = [(0, key)]
                ∧ (Stream.request_logs evs).*1 = [(key, if result is inr _ then true else false)]
                ∧ (Stream.error_logs evs).*1.*1 = (if result is inl _ then [key] else [])
                ∧ result = Stream.normal_attempt (normal_upstream key))
  | Stream.NoKey e km' =>
      Key.key_failure_counts km' = Key.key_failure_counts km
      ∧ default ""%string api_key = ""%string
      ∧ error_code_of e = PInt 500
  | Stream.StreamGenerator _ => False
  | Stream.KeyCycleExhausted => False
  end.
Proof.
  unfold Stream.create_chat_completion.
  assert (Hpick : ∃ key km1,
    (if truthy (default ""%string api_key) then Some (default ""%string api_key, km)
     else Key.get_next_working_key km) = Some (key, km1)
    ∧ Key.key_failure_counts km1 = Key.key_failure_counts km
    ∧ (truthy key = false → default ""%string api_key = ""%string)).
  { destruct (truthy (default ""%string api_key)) eqn:Hgiven.
    - eexists _, _. split_and!; [done | done |]. congruence.
    - destruct (get_next_working_key_total km) as (key & km1 & Hk & (_ & Hc & _) & _).
      exists key, km1. split_and!; [done | done |]. intros _.
      unfold truthy in Hgiven. apply bool_decide_eq_false_1 in Hgiven.
      by destruct (decide (default ""%string api_key = ""%string)). }
  destruct Hpick as (key & km1 & -> & Hcounts & Hempty).
  destruct (truthy key) eqn:Hkey; cbn [negb].
  - unfold Stream._handle_normal_completion.
    assert (Hne : key ≠ ""%string) by (by apply bool_decide_eq_true_1 in Hkey).
    destruct (Stream.normal_attempt (normal_upstream key)) as [e|body] eqn:Hres;
      (split; [done|]); exists key; split_and!; done.
  - split_and!; [done | by apply Hempty | done].
Qed.

(** X20.  When every upstream attempt of a streaming call fails before it
    delivers a line, the router answers from the exception of the last
    attempt made.  When the first argument of that exception is an integer,
    the answer is a JSON error with that integer as code and HTTP status and
    the exception's message; this is the case when the upstream answered with
    a status other than 200, and the JSON error then carries that status and
    the body of the upstream's answer.  When the first argument is a string,
    as for an exception of the HTTP client, the construction of the response
    raises [TypeError]. *)
Theorem router_reports_last_upstream_error (st : Settings)
    (config : Provider.ProviderConfig) (upstream : Z → string → Stream.Upstream)
    (km : Key.KeyManager) (api_key : string) :
  0 < Provider.max_retries config →
  (∀ rq, Stream.chunks_of upstream rq = [] ∧ is_Some (Stream.failure_of upstream rq)) →
  let run := Stream._handle_stream_completion st config upstream km api_key in
  let response := Router._handle_chat_completion (Router.Streaming (Router.of_run run)) in
  ∃ rq e,
    last (Stream.requests (Stream.events run)) = Some rq
    ∧ Stream.failure_of upstream rq = Some e
    ∧ response
      = match error_code_of e with
        | PInt status_code =>
            Router.JSONResponse (PInt status_code) (error_msg_of e) status_code
        | PStr _ => Router.RaisesTypeError
        end
    ∧ (∀ status_code body lines broken,
         upstream rq.1 rq.2 = Stream.Responds status_code body lines broken →
         status_code ≠ 200 →
         response = Router.JSONResponse (PInt status_code) (PStr body) status_code).
Proof.
  intros Hbudget Hfail run response.
  pose proof (stream_loop_outcome st config upstream
                (Z.to_nat (Provider.max_retries config)) 0 api_key km) as Hout.
  pose proof (stream_loop_not_stuck st config upstream
                (Z.to_nat (Provider.max_retries config)) 0 api_key km) as Hstuck.
  pose proof (stream_loop_yielded st config upstream
                (Z.to_nat (Provider.max_retries config)) 0 api_key km) as Hyield.
  cbn zeta in Hout, Hyield.
  fold (Stream._handle_stream_completion st config upstream km api_key) in *.
  fold run in Hout, Hstuck, Hyield.
  assert (Hconcat : ∀ rqs, concat (Stream.chunks_of upstream <$> rqs) = []).
  { induction rqs as [|rq rqs IH]; [done|].
    cbn [fmap list_fmap concat]. rewrite IH. by destruct (Hfail rq) as [-> _]. }
  assert (Hnone : Stream.yielded (Stream.events run) = []).
  { rewrite Hyield. apply Hconcat. }
  destruct (Stream.outcome run) as [|e|] eqn:Hrun.
  - destruct Hout as [[_ Hle]|(rq & _ & Hok)]; [lia|].
    destruct (Hfail rq) as [_ [e He]]. congruence.
  - destruct Hout as (rq & Hlast & Hrq).
    assert (Hresponse : response
              = match error_code_of e with
                | PInt status_code =>
                    Router.JSONResponse (PInt status_code) (error_msg_of e) status_code
                | PStr _ => Router.RaisesTypeError
                end).
    { subst response. cbn [Router._handle_chat_completion].
      destruct (error_code_of e) as [status_code|msg] eqn:Hcode.
      - by apply handle_stream_error.
      - by apply (handle_stream_error_not_int _ e msg). }
    exists rq, e. split_and!; [done | done | done |].
    intros status_code body lines broken Hup Hstatus. rewrite Hresponse.
    unfold Stream.failure_of, Stream.attempt in Hrq. rewrite Hup in Hrq.
    rewrite bool_decide_eq_true_2 in Hrq by done. cbn [snd] in Hrq.
    by injection Hrq as <-.
  - exfalso. apply Hstuck; [lia|done].
Qed.

Lemma router_reports_last_upstream_error_witness :
  let st := mkSettings 3 3 3 true in
  let config :=
    Provider.mkProviderConfig "openai" "openai" "https://api.openai.com/v1"
      ["k1"; "k2"]%string "" ∅ 300 3 2 "gpt-4o-mini" true in
  let refused := mkExc [PStr "All connection attempts failed"]
                       "All connection attempts failed" in
  let answers := λ (retries : Z) (_ : string),
    if bool_decide (retries = 0)
    then Stream.Responds 500 "first error" [] None
    else Stream.Responds 502 "second error" [] None in
  let unreachable := λ (_ : Z) (_ : string), Stream.ConnectionFails refused in
  let response upstream :=
    Router._handle_chat_completion
      (Router.Streaming
         (Router.of_run
            (Stream._handle_stream_completion st config upstream
               (Key.init st ["k1"; "k2"]%string) "k1"))) in
  response answers = Router.JSONResponse (PInt 502) (PStr "second error") 502
  ∧ response unreachable = Router.RaisesTypeError.
Proof.
  intros st config refused answers unreachable response. split.
  - destruct (router_reports_last_upstream_error st config answers
                (Key.init st ["k1"; "k2"]%string) "k1"%string)
      as (rq & e & Hlast & _ & _ & Hstatus).
    + done.
    + intros [retries key]. unfold Stream.chunks_of, Stream.failure_of, answers.
      cbn [fst snd]. case_bool_decide; (split; [done | by eexists]).
    + vm_compute in Hlast. injection Hlast as <-.
      by apply (Hstatus 502 "second error"%string [] None).
  - destruct (router_reports_last_upstream_error st config unreachable
                (Key.init st ["k1"; "k2"]%string) "k1"%string)
      as (rq & e & _ & He & Hresponse & _).
    + done.
    + intros [retries key]. split; [done | by eexists].
    + unfold response. rewrite Hresponse.
      unfold Stream.failure_of, unreachable in He. cbn in He.
      by injection He as <-.
Defined.

(** X21.  Without a key manager the loop of [OpenAICompatiableService] makes
    a single attempt and never raises: a failed attempt is logged and the
    generator then ends normally, so the caller sees a stream that stops, with
    the lines delivered before the failure, instead of an error. *)
Theorem compat_stream_without_key_manager (st : Settings)
    (upstream : Z → string → Stream.Upstream) (api_key : string) :
  Stream.compat_outcome (Stream.compat_handle_stream_completion st upstream None api_key)
    = Stream.Completed
  ∧ (S_MAX_RETRIES st <= 0 →
     Stream.compat_events (Stream.compat_handle_stream_completion st upstream None api_key)
       = [])
  ∧ (0 < S_MAX_RETRIES st →
     Stream.requests
       (Stream.compat_events (Stream.compat_handle_stream_completion st upstream None api_key))
       = [(0, api_key)]
     ∧ Stream.yielded
         (Stream.compat_events
            (Stream.compat_handle_stream_completion st upstream None api_key))
       = Stream.compat_chunks_of upstream (0, api_key)
     ∧ (Stream.request_logs
          (Stream.compat_events
             (Stream.compat_handle_stream_completion st upstream None api_key))).*1
       = [(api_key,
           bool_decide ((Stream.compat_attempt (upstream 0 api_key)).2 = None))]
     ∧ (Stream.error_logs
          (Stream.compat_events
             (Stream.compat_handle_stream_completion st upstream None api_key))).*1.*1
       = (if (Stream.compat_attempt (upstream 0 api_key)).2 is Some _
          then [api_key] else [])).
Proof.
  unfold Stream.compat_handle_stream_completion, Stream.compat_chunks_of. cbn [fst snd].
  destruct (decide (0 < S_MAX_RETRIES st)) as [Hpos|Hnone].
  - destruct (Z.to_nat (S_MAX_RETRIES st)) as [|fuel] eqn:Hfuel; [lia|].
    cbn [Stream.compat_stream_loop]. rewrite bool_decide_eq_true_2 by done.
    destruct (Stream.compat_attempt (upstream 0 api_key)) as [cs [e|]];
      cbn [Stream.compat_outcome Stream.compat_events snd].
    + split_and!; [done | lia |]. intros _.
      change (Stream.Request 0 api_key :: (Stream.Yield <$> cs))
        with ([Stream.Request 0 api_key] ++ (Stream.Yield <$> cs)).
      rewrite !requests_app, !yielded_app, !request_logs_app, !error_logs_app.
      rewrite requests_Yield, yielded_Yield, request_logs_Yield, error_logs_Yield.
      split_and!; [done | | done | done].
      unfold Stream.yielded. cbn [omap list_omap app fst]. by rewrite !app_nil_r.
    + split_and!; [done | lia |]. intros _.
      change (Stream.Request 0 api_key :: (Stream.Yield <$> cs))
        with ([Stream.Request 0 api_key] ++ (Stream.Yield <$> cs)).
      rewrite !requests_app, !yielded_app, !request_logs_app, !error_logs_app.
      rewrite requests_Yield, yielded_Yield, request_logs_Yield, error_logs_Yield.
      split_and!; [done | | done | done].
      unfold Stream.yielded. cbn [omap list_omap app fst]. by rewrite !app_nil_r.
  - assert (Hloop : ∀ fuel,
      Stream.compat_stream_loop st upstream fuel 0 api_key None
      = {| Stream.compat_events := []; Stream.compat_outcome := Stream.Completed;
           Stream.compat_key_manager := None |}).
    { intros [|fuel]; cbn [Stream.compat_stream_loop];
        by rewrite bool_decide_eq_false_2 by done. }
    rewrite Hloop. split_and!; [done | done | lia].
Qed.

(** * Facts about the pagination of the key listing *)
Section Pagination.

Context {A : Type}.

Implicit Types (l : list A) (page limit : Z).

(** For a positive page size, page [p + 1] is the [p]-th block of [limit]
    entries. *)
Lemma paginated_keys_list_block l (p : nat) limit :
  0 < limit →
  KeyRoutes.paginated_keys_list l (Z.of_nat p + 1) limit
  = take (Z.to_nat limit) (drop (p * Z.to_nat limit) l).
Proof.
  intros Hlimit. unfold KeyRoutes.paginated_keys_list, KeyRoutes.slice, KeyRoutes.slice_bound.
  cbn zeta. rewrite !bool_decide_eq_false_2 by nia.
  replace (Z.of_nat p + 1 - 1) with (Z.of_nat p) by lia.
  set (n := length l).
  destruct (decide (Z.of_nat p * limit <= Z.of_nat n)) as [Hin|Hout].
  - rewrite (Z.min_l (Z.of_nat p * limit)) by done.
    replace (Z.to_nat (Z.of_nat p * limit)) with (p * Z.to_nat limit)%nat by nia.
    destruct (decide (Z.of_nat p * limit + limit <= Z.of_nat n)) as [Hfull|Hpart].
    + rewrite Z.min_l by done. f_equal. lia.
    + rewrite Z.min_r by lia.
      rewrite !take_ge; [done | |]; rewrite length_drop; fold n; nia.
  - rewrite !Z.min_r by nia. rewrite Z.sub_diag. cbn [Z.to_nat take].
    rewrite (drop_ge l (p * Z.to_nat limit)) by (fold n; nia). by rewrite take_nil.
Qed.

Lemma concat_blocks l (size k : nat) :
  concat ((λ p : nat, take size (drop (p * size) l)) <$> seq 0 k) = take (k * size) l.
Proof.
  induction k as [|k IH]; [done|].
  rewrite seq_S, fmap_app, concat_app, IH. cbn [fmap list_fmap concat Nat.add].
  rewrite app_nil_r. replace (S k * size)%nat with (k * size + size)%nat by lia.
  by rewrite take_take_drop.
Qed.

End Pagination.

(** X22.  For a positive page size, the pages of the key listing partition
    the list: [total_pages] is defined and at least 1, the pages 1 to
    [total_pages] put one after another give back the whole list in order,
    every page has at most [limit] entries, all pages before the last are
    full, and every page after [total_pages] is empty. *)
Theorem pages_partition_key_list {A : Type} (keys_list : list A) (limit : Z) :
  0 < limit →
  ∃ pages : nat,
    KeyRoutes.total_pages (Z.of_nat (length keys_list)) limit = Some (Z.of_nat pages)
    ∧ (1 <= pages)%nat
    ∧ concat ((λ p : nat, KeyRoutes.paginated_keys_list keys_list (Z.of_nat p + 1) limit)
                <$> seq 0 pages)
      = keys_list
    ∧ (∀ p : nat,
         Z.of_nat (length (KeyRoutes.paginated_keys_list keys_list (Z.of_nat p + 1) limit))
         <= limit)
    ∧ (∀ p : nat, (S p < pages)%nat →
         Z.of_nat (length (KeyRoutes.paginated_keys_list keys_list (Z.of_nat p + 1) limit))
         = limit)
    ∧ (∀ p : nat, (pages <= p)%nat →
         KeyRoutes.paginated_keys_list keys_list (Z.of_nat p + 1) limit = []).
Proof.
  intros Hlimit. set (n := length keys_list). set (size := Z.to_nat limit).
  assert (Hsize : (0 < size)%nat) by lia.
  destruct (decide (n = 0)%nat) as [Hempty|Hnonempty].
  - exists 1%nat. unfold KeyRoutes.total_pages.
    rewrite bool_decide_eq_false_2 by lia.
    assert (keys_list = []) as -> by (by apply length_zero_iff_nil).
    split_and!; [done | done | | | lia |].
    + erewrite list_fmap_ext; [|intros i p _; by apply paginated_keys_list_block].
      by rewrite concat_blocks, take_nil.
    + intros p. rewrite paginated_keys_list_block by done.
      rewrite drop_nil, take_nil. cbn. lia.
    + intros p _. rewrite paginated_keys_list_block by done.
      by rewrite drop_nil, take_nil.
  - set (pages := ((n + size - 1) / size)%nat).
    assert (Hdiv : (Z.of_nat n + limit - 1) `div` limit = Z.of_nat pages).
    { unfold pages. rewrite Nat2Z.inj_div, Nat2Z.inj_sub, !Nat2Z.inj_add by lia.
      do 2 f_equal; lia. }
    assert (Hlow : (pages * size < n + size)%nat ∧ (n <= pages * size)%nat).
    { unfold pages.
      pose proof (Nat.div_mod_eq (n + size - 1) size) as Hdm.
      pose proof (Nat.mod_upper_bound (n + size - 1) size) as Hmod.
      nia. }
    destruct Hlow as [Hupper Hcover].
    exists pages. unfold KeyRoutes.total_pages.
    rewrite bool_decide_eq_true_2 by lia. rewrite bool_decide_eq_false_2 by lia.
    split_and!.
    + by rewrite Hdiv.
    + nia.
    + erewrite list_fmap_ext; [|intros i p _; by apply paginated_keys_list_block].
      rewrite concat_blocks. apply take_ge. fold n. lia.
    + intros p. rewrite paginated_keys_list_block by done.
      rewrite length_take. lia.
    + intros p Hp. rewrite paginated_keys_list_block by done.
      rewrite length_take, length_drop. fold n size. nia.
    + intros p Hp. rewrite paginated_keys_list_block by done.
      rewrite drop_ge; [by rewrite take_nil|]. fold n size. nia.
Qed.

Lemma pages_partition_key_list_witness :
  let keys_list := ["k1"; "k2"; "k3"; "k4"; "k5"]%string in
  ∃ pages : nat,
    pages = 3%nat
    ∧ KeyRoutes.total_pages (Z.of_nat (length keys_list)) 2 = Some (Z.of_nat pages)
    ∧ concat ((λ p : nat, KeyRoutes.paginated_keys_list keys_list (Z.of_nat p + 1) 2)
                <$> seq 0 pages)
      = keys_list.
Proof.
  intros keys_list.
  destruct (pages_partition_key_list keys_list 2) as (pages & Hpages & _ & Hconcat & _); [lia|].
  exists pages. split_and!; [|done|done].
  assert (Hval : KeyRoutes.total_pages (Z.of_nat (length keys_list)) 2 = Some 3)
    by (by vm_compute).
  rewrite Hval in Hpages. injection Hpages as Hpages. lia.
Defined.

(** * Facts about the scheduled proxy check *)
Section ProxyCheck.

Variable clock : nat → Z.

Implicit Types (pm : Proxy.ProxyManager) (proxy : string) (results : list (string * bool)).

(** A passing result re-enables the proxy and clears its count. *)
Lemma check_passed_effect pm proxy (now : Z) p :
  let pm' := Proxy.reset_proxy (Proxy.update_last_check_time pm proxy now) proxy in
  Proxy.proxies pm' = Proxy.proxies pm
  ∧ Proxy.MAX_FAILURES pm' = Proxy.MAX_FAILURES pm
  ∧ (p ≠ proxy →
     Proxy.proxy_failure_counts pm' !! p = Proxy.proxy_failure_counts pm !! p
     ∧ (p ∈ Proxy.disabled_proxies pm' ↔ p ∈ Proxy.disabled_proxies pm))
  ∧ (proxy ∉ Proxy.disabled_proxies pm')
  ∧ Proxy.proxy_failure_counts pm' !! proxy
    = (λ _, 0) <$> Proxy.proxy_failure_counts pm !! proxy.
Proof.
  clear clock. cbn zeta. unfold Proxy.reset_proxy, Proxy.update_last_check_time.
  cbn [Proxy.proxy_failure_counts].
  destruct (Proxy.proxy_failure_counts pm !! proxy) as [c|] eqn:Hc;
    cbn [Proxy.set_disabled Proxy.set_counts Proxy.proxies Proxy.MAX_FAILURES
         Proxy.proxy_failure_counts Proxy.disabled_proxies fmap option_fmap option_map].
  - split_and!; [done | done | | | by rewrite lookup_insert_eq].
    + intros Hne. rewrite lookup_insert_ne by done. split; [done|].
      rewrite elem_of_difference, elem_of_singleton. tauto.
    + rewrite elem_of_difference, elem_of_singleton. tauto.
  - split_and!; [done | done | | | done].
    + intros Hne. split; [done|].
      rewrite elem_of_difference, elem_of_singleton. tauto.
    + rewrite elem_of_difference, elem_of_singleton. tauto.
Qed.

(** A failing result is one [record_proxy_failure]. *)
Lemma check_failed_effect pm proxy (now : Z) p :
  let pm' := (Proxy.record_proxy_failure
                (Proxy.update_last_check_time pm proxy now) proxy).2 in
  Proxy.proxies pm' = Proxy.proxies pm
  ∧ Proxy.MAX_FAILURES pm' = Proxy.MAX_FAILURES pm
  ∧ (p ≠ proxy →
     Proxy.proxy_failure_counts pm' !! p = Proxy.proxy_failure_counts pm !! p
     ∧ (p ∈ Proxy.disabled_proxies pm' ↔ p ∈ Proxy.disabled_proxies pm))
  ∧ (∀ c, proxy ≠ ""%string → Proxy.proxy_failure_counts pm !! proxy = Some c →
          Proxy.proxy_failure_counts pm' !! proxy = Some (c + 1)
          ∧ (proxy ∈ Proxy.disabled_proxies pm'
             ↔ proxy ∈ Proxy.disabled_proxies pm ∨ Proxy.MAX_FAILURES pm <= c + 1)).
Proof.
  clear clock. cbn zeta. unfold Proxy.record_proxy_failure, Proxy.update_last_check_time.
  cbn [Proxy.proxy_failure_counts Proxy.MAX_FAILURES].
  destruct (truthy proxy) eqn:Htruthy; cbn [negb].
  - destruct (Proxy.proxy_failure_counts pm !! proxy) as [c|] eqn:Hc.
    + cbn zeta. case_bool_decide as Hmax;
        cbn [snd Proxy.proxies Proxy.MAX_FAILURES Proxy.proxy_failure_counts
             Proxy.disabled_proxies].
      * split_and!; [done | done | |].
        -- intros Hne. rewrite lookup_insert_ne by done. split; [done|].
           rewrite elem_of_union, elem_of_singleton. tauto.
        -- intros c' _ [= <-]. rewrite lookup_insert_eq. split; [done|].
           rewrite elem_of_union, elem_of_singleton. split; [intros [?|_]|]; auto.
           right. lia.
      * split_and!; [done | done | |].
        -- intros Hne. by rewrite lookup_insert_ne.
        -- intros c' _ [= <-]. rewrite lookup_insert_eq. split; [done|].
           split; [auto|]. intros [?|?]; [done|lia].
    + split_and!; [done | done | done |]. intros c _ [=].
  - split_and!; [done | done | done |]. intros c Hne.
    unfold truthy in Htruthy. by apply bool_decide_eq_false_1 in Htruthy.
Qed.

Lemma process_check_results_fields results (i : nat) pm (a d : Z) :
  Proxy.proxies (Proxy.process_check_results clock i results pm a d).1.1 = Proxy.proxies pm
  ∧ Proxy.MAX_FAILURES (Proxy.process_check_results clock i results pm a d).1.1
    = Proxy.MAX_FAILURES pm
  ∧ (Proxy.process_check_results clock i results pm a d).1.2
    = a + Z.of_nat (length (List.filter snd results)).
Proof.
  revert i pm a d. induction results as [|[q ok] results IH]; intros i pm a d.
  { cbn. split_and!; [done | done | lia]. }
  cbn [Proxy.process_check_results List.filter snd]. destruct ok.
  - destruct (check_passed_effect pm q (clock i) q) as (Hp & Hm & _).
    cbn zeta in Hp, Hm.
    destruct (IH (S i) (Proxy.reset_proxy (Proxy.update_last_check_time pm q (clock i)) q)
                 (a + 1) d) as (-> & -> & ->).
    split_and!; [done | done | cbn [length]; lia].
  - destruct (check_failed_effect pm q (clock i) q) as (Hp & Hm & _).
    cbn zeta in Hp, Hm.
    destruct (Proxy.record_proxy_failure (Proxy.update_last_check_time pm q (clock i)) q)
      as [was_disabled pm2]. cbn [snd] in Hp, Hm.
    destruct (IH (S i) pm2 a (if was_disabled then d + 1 else d)) as (-> & -> & ->).
    split_and!; done.
Qed.

Lemma process_check_results_other results (i : nat) pm (a d : Z) p :
  p ∉ results.*1 →
  Proxy.proxy_failure_counts (Proxy.process_check_results clock i results pm a d).1.1 !! p
  = Proxy.proxy_failure_counts pm !! p
  ∧ (p ∈ Proxy.disabled_proxies (Proxy.process_check_results clock i results pm a d).1.1
     ↔ p ∈ Proxy.disabled_proxies pm).
Proof.
  revert i pm a d. induction results as [|[q ok] results IH]; intros i pm a d Hp; [done|].
  cbn [fmap list_fmap fst] in Hp. apply not_elem_of_cons in Hp as [Hne Hp].
  cbn [Proxy.process_check_results]. destruct ok.
  - destruct (check_passed_effect pm q (clock i) p) as (_ & _ & Hother & _).
    cbn zeta in Hother. destruct (Hother Hne) as [Hc Hd].
    destruct (IH (S i) (Proxy.reset_proxy (Proxy.update_last_check_time pm q (clock i)) q)
                 (a + 1) d Hp) as [-> ->].
    done.
  - destruct (check_failed_effect pm q (clock i) p) as (_ & _ & Hother & _).
    cbn zeta in Hother. destruct (Hother Hne) as [Hc Hd].
    destruct (Proxy.record_proxy_failure (Proxy.update_last_check_time pm q (clock i)) q)
      as [was_disabled pm2]. cbn [snd] in Hc, Hd.
    destruct (IH (S i) pm2 a (if was_disabled then d + 1 else d) Hp) as [-> ->].
    done.
Qed.

Lemma process_check_results_passed results (i : nat) pm (a d : Z) proxy :
  NoDup results.*1 → (proxy, true) ∈ results →
  (proxy ∉ Proxy.disabled_proxies (Proxy.process_check_results clock i results pm a d).1.1)
  ∧ Proxy.proxy_failure_counts (Proxy.process_check_results clock i results pm a d).1.1 !! proxy
    = (λ _, 0) <$> Proxy.proxy_failure_counts pm !! proxy.
Proof.
  revert i pm a d. induction results as [|[q ok] results IH]; intros i pm a d Hnodup Hin.
  { by apply elem_of_nil in Hin. }
  cbn [fmap list_fmap fst] in Hnodup. apply NoDup_cons in Hnodup as [Hq Hnodup].
  apply elem_of_cons in Hin as [[= <- <-]|Hin].
  - cbn [Proxy.process_check_results].
    destruct (process_check_results_other results (S i)
                (Proxy.reset_proxy (Proxy.update_last_check_time pm proxy (clock i)) proxy)
                (a + 1) d proxy Hq) as [-> ->].
    destruct (check_passed_effect pm proxy (clock i) proxy) as (_ & _ & _ & Hd & Hc).
    done.
  - assert (Hne : proxy ≠ q).
    { intros ->. apply Hq. apply list_elem_of_fmap. by exists (q, true). }
    cbn [Proxy.process_check_results]. destruct ok.
    + destruct (check_passed_effect pm q (clock i) proxy) as (_ & _ & Hother & _).
      cbn zeta in Hother. destruct (Hother Hne) as [Hc Hd].
      destruct (IH (S i) (Proxy.reset_proxy (Proxy.update_last_check_time pm q (clock i)) q)
                   (a + 1) d Hnodup Hin) as [Hres1 Hres2].
      split; [done|]. by rewrite Hres2, Hc.
    + destruct (check_failed_effect pm q (clock i) proxy) as (_ & _ & Hother & _).
      cbn zeta in Hother. destruct (Hother Hne) as [Hc Hd].
      destruct (Proxy.record_proxy_failure (Proxy.update_last_check_time pm q (clock i)) q)
        as [was_disabled pm2]. cbn [snd] in Hc, Hd.
      destruct (IH (S i) pm2 a (if was_disabled then d + 1 else d) Hnodup Hin)
        as [Hres1 Hres2].
      split; [done|]. by rewrite Hres2, Hc.
Qed.

Lemma process_check_results_failed results (i : nat) pm (a d : Z) proxy (c : Z) :
  NoDup results.*1 → (proxy, false) ∈ results →
  proxy ≠ ""%string →
  Proxy.proxy_failure_counts pm !! proxy = Some c →
  Proxy.proxy_failure_counts (Proxy.process_check_results clock i results pm a d).1.1 !! proxy
  = Some (c + 1)
  ∧ (proxy ∈ Proxy.disabled_proxies (Proxy.process_check_results clock i results pm a d).1.1
     ↔ proxy ∈ Proxy.disabled_proxies pm ∨ Proxy.MAX_FAILURES pm <= c + 1).
Proof.
  revert i pm a d.
  induction results as [|[q ok] results IH]; intros i pm a d Hnodup Hin Hproxy Hcount.
  { by apply elem_of_nil in Hin. }
  cbn [fmap list_fmap fst] in Hnodup. apply NoDup_cons in Hnodup as [Hq Hnodup].
  apply elem_of_cons in Hin as [[= <- <-]|Hin].
  - cbn [Proxy.process_check_results].
    destruct (check_failed_effect pm proxy (clock i) proxy) as (_ & _ & _ & Hself).
    cbn zeta in Hself. destruct (Hself c Hproxy Hcount) as [Hc Hd].
    destruct (Proxy.record_proxy_failure
                (Proxy.update_last_check_time pm proxy (clock i)) proxy)
      as [was_disabled pm2]. cbn [snd] in Hc, Hd.
    destruct (process_check_results_other results (S i) pm2 a
                (if was_disabled then d + 1 else d) proxy Hq) as [-> ->].
    done.
  - assert (Hne : proxy ≠ q).
    { intros ->. apply Hq. apply list_elem_of_fmap. by exists (q, false). }
    cbn [Proxy.process_check_results]. destruct ok.
    + destruct (check_passed_effect pm q (clock i) proxy) as (_ & Hm & Hother & _).
      cbn zeta in Hm, Hother. destruct (Hother Hne) as [Hc Hd].
      destruct (IH (S i) (Proxy.reset_proxy (Proxy.update_last_check_time pm q (clock i)) q)
                   (a + 1) d Hnodup Hin Hproxy) as [Hres1 Hres2]; [by rewrite Hc|].
      split; [done|]. by rewrite Hres2, Hd, Hm.
    + destruct (check_failed_effect pm q (clock i) proxy) as (_ & Hm & Hother & _).
      cbn zeta in Hm, Hother. destruct (Hother Hne) as [Hc Hd].
      destruct (Proxy.record_proxy_failure (Proxy.update_last_check_time pm q (clock i)) q)
        as [was_disabled pm2]. cbn [snd] in Hc, Hd, Hm.
      destruct (IH (S i) pm2 a (if was_disabled then d + 1 else d) Hnodup Hin Hproxy)
        as [Hres1 Hres2]; [by rewrite Hc|].
      split; [done|]. by rewrite Hres2, Hd, Hm.
Qed.

End ProxyCheck.

(** X23.  The scheduled proxy check treats each proxy by its own result.
    A proxy that passes is enabled again and its failure count cleared, even
    if it was disabled before; a proxy that fails gets one more failure and is
    disabled exactly when it already was or the count reaches
    [MAX_FAILURES]; a proxy without a result keeps its count and its status.
    The proxy list is unchanged and [available_count] is the number of
    passing results. *)
Theorem check_proxies_per_proxy (clock : nat → Z) (PROXIES : list string)
    (results : list (string * bool)) (pm : Proxy.ProxyManager) :
  PROXIES ≠ [] →
  NoDup results.*1 →
  Proxy.proxies (Proxy.check_proxies true PROXIES clock results pm).1.1 = Proxy.proxies pm
  ∧ (Proxy.check_proxies true PROXIES clock results pm).1.2
    = Z.of_nat (length (List.filter snd results))
  ∧ (∀ proxy, (proxy, true) ∈ results →
       (proxy ∉ Proxy.disabled_proxies (Proxy.check_proxies true PROXIES clock results pm).1.1)
       ∧ Proxy.proxy_failure_counts
           (Proxy.check_proxies true PROXIES clock results pm).1.1 !! proxy
         = (λ _, 0) <$> Proxy.proxy_failure_counts pm !! proxy)
  ∧ (∀ proxy c, (proxy, false) ∈ results →
       proxy ≠ ""%string →
       Proxy.proxy_failure_counts pm !! proxy = Some c →
       Proxy.proxy_failure_counts
         (Proxy.check_proxies true PROXIES clock results pm).1.1 !! proxy
       = Some (c + 1)
       ∧ (proxy ∈ Proxy.disabled_proxies
                    (Proxy.check_proxies true PROXIES clock results pm).1.1
          ↔ proxy ∈ Proxy.disabled_proxies pm ∨ Proxy.MAX_FAILURES pm <= c + 1))
  ∧ (∀ proxy, proxy ∉ results.*1 →
       Proxy.proxy_failure_counts
         (Proxy.check_proxies true PROXIES clock results pm).1.1 !! proxy
       = Proxy.proxy_failure_counts pm !! proxy
       ∧ (proxy ∈ Proxy.disabled_proxies
                    (Proxy.check_proxies true PROXIES clock results pm).1.1
          ↔ proxy ∈ Proxy.disabled_proxies pm)).
Proof.
  intros Hproxies Hnodup. unfold Proxy.check_proxies. cbn [negb].
  destruct PROXIES as [|first rest]; [done|].
  destruct (process_check_results_fields clock results 0 pm 0 0) as (Hp & _ & Ha).
  split_and!.
  - done.
  - rewrite Ha. lia.
  - intros proxy Hin. by apply process_check_results_passed.
  - intros proxy c Hin Hne Hc. by apply process_check_results_failed.
  - intros proxy Hout. by apply process_check_results_other.
Qed.

Lemma check_proxies_per_proxy_witness :
  let st := mkSettings 3 3 2 true in
  let pm := Proxy.run (λ _, 0) (Proxy.init st ["p1"; "p2"; "p3"]%string)
              [Proxy.OpDisable "p1"%string; Proxy.OpRecordFailure "p2"%string] in
  let pm' := (Proxy.check_proxies true ["p1"; "p2"; "p3"]%string (λ i, Z.of_nat i)
                [("p1", true); ("p2", false); ("p3", true)]%string pm).1.1 in
  Proxy.get_available_proxies pm = ["p2"; "p3"]%string
  ∧ ("p1"%string ∉ Proxy.disabled_proxies pm')
  ∧ Proxy.proxy_failure_counts pm' !! "p2"%string = Some 2.
Proof.
  intros st pm pm'.
  destruct (check_proxies_per_proxy (λ i, Z.of_nat i) ["p1"; "p2"; "p3"]%string
              [("p1", true); ("p2", false); ("p3", true)]%string pm)
    as (_ & _ & Hpass & Hfail & _); [done | by_compute |].
  split_and!.
  - by vm_compute.
  - apply Hpass. by_compute.
  - apply (Hfail "p2"%string 1); [by_compute | done | by vm_compute].
Defined.

(** * Facts about the provider manager *)
Section ManagerFacts.

Variable env : Manager.Env.

Implicit Types (m : Manager.ProviderManager) (pkm : Provider.ProviderKeyManager)
  (cfg : Provider.ProviderConfig) (configs : list Provider.ProviderConfig).

Lemma is_registrable_spec cfg :
  Provider.is_registrable cfg = true ↔ Provider.registrable cfg.
Proof.
  unfold Provider.is_registrable, Provider.registrable.
  rewrite andb_true_iff, bool_decide_eq_true. done.
Qed.

Lemma dict_set_fresh {V} (d : list (string * V)) k (v : V) :
  k ∉ d.*1 → Manager.dict_set d k v = d ++ [(k, v)].
Proof. intros Hk. unfold Manager.dict_set. by rewrite bool_decide_eq_false_2. Qed.

Lemma dict_get_app {V} (d1 d2 : list (string * V)) k :
  Manager.dict_get (d1 ++ d2) k
  = match Manager.dict_get d1 k with
    | Some v => Some v
    | None => Manager.dict_get d2 k
    end.
Proof.
  unfold Manager.dict_get. induction d1 as [|[k1 v1] d1 IH]; [done|].
  cbn [app List.find fst]. by case_bool_decide.
Qed.

Lemma dict_get_None {V} (d : list (string * V)) k :
  Manager.dict_get d k = None ↔ k ∉ d.*1.
Proof.
  unfold Manager.dict_get. induction d as [|[k1 v1] d IH].
  { split; [intros _ Hin; by apply elem_of_nil in Hin|done]. }
  cbn [List.find fst fmap list_fmap]. rewrite not_elem_of_cons. case_bool_decide as Hk.
  - cbn. split; [done|]. intros [Hne _]. by subst.
  - rewrite IH. split; [intros ?; split; [by intros ->|done]|by intros [_ ?]].
Qed.

Lemma services_of_keys configs :
  (Manager.services_of configs).*1 = Provider.name <$> List.filter Provider.is_registrable configs.
Proof.
  unfold Manager.services_of. rewrite <- list_fmap_compose. by apply list_fmap_ext.
Qed.

Lemma services_of_cons cfg configs :
  Manager.services_of (cfg :: configs)
  = (if Provider.is_registrable cfg
     then [(Provider.name cfg, {| Manager.config := cfg |})] else [])
    ++ Manager.services_of configs.
Proof.
  unfold Manager.services_of. cbn [List.filter]. by destruct (Provider.is_registrable cfg).
Qed.

Lemma filter_names_subset configs n :
  n ∈ Provider.name <$> List.filter Provider.is_registrable configs →
  n ∈ Provider.name <$> configs.
Proof.
  intros (cfg & -> & Hin)%list_elem_of_fmap.
  apply list_elem_of_In, filter_In in Hin as [Hin%list_elem_of_In _].
  apply list_elem_of_fmap. by exists cfg.
Qed.

(** The service of a registrable configuration is found under its name. *)
Lemma dict_get_services_of configs cfg :
  NoDup (Provider.name <$> configs) →
  cfg ∈ configs → Provider.is_registrable cfg = true →
  Manager.dict_get (Manager.services_of configs) (Provider.name cfg)
  = Some {| Manager.config := cfg |}.
Proof.
  induction configs as [|c configs IH]; intros Hnodup Hin Hreg.
  { by apply elem_of_nil in Hin. }
  cbn [fmap list_fmap] in Hnodup. apply NoDup_cons in Hnodup as [Hc Hnodup].
  rewrite services_of_cons, dict_get_app.
  apply elem_of_cons in Hin as [->|Hin].
  - rewrite Hreg. unfold Manager.dict_get at 1. cbn [List.find fst].
    by rewrite bool_decide_eq_true_2.
  - assert (Hne : Provider.name c ≠ Provider.name cfg).
    { intros Heq. apply Hc. rewrite Heq. apply list_elem_of_fmap. by exists cfg. }
    destruct (Provider.is_registrable c).
    + unfold Manager.dict_get at 1. cbn [List.find fst].
      rewrite bool_decide_eq_false_2 by done. cbn. by apply IH.
    + cbn. by apply IH.
Qed.

Lemma _register_provider_registrable m pkm cfg :
  Manager._key_manager m = Some pkm →
  Provider.is_registrable cfg = true →
  Manager._register_provider env m cfg
  = ({| Manager._services :=
          Manager.dict_set (Manager._services m) (Provider.name cfg)
                           {| Manager.config := cfg |};
        Manager._key_manager :=
          Some (Provider.register_provider (Manager.settings env) pkm cfg).2;
        Manager._default_provider := Manager._default_provider m;
        Manager._initialized := Manager._initialized m |}, inr true).
Proof.
  intros Hkm [Hen Hkeys%bool_decide_eq_true_1]%andb_true_iff.
  unfold Manager._register_provider. rewrite Hen, Hkm. cbn [negb].
  unfold Provider.register_provider, Provider.get_manager. rewrite Hen. cbn [negb].
  destruct (Provider.api_keys cfg) as [|k keys] eqn:Hk; [done|].
  cbn [snd Provider._managers]. by rewrite lookup_insert_eq.
Qed.

Lemma _register_provider_skipped m cfg :
  Provider.is_registrable cfg = false →
  Manager._register_provider env m cfg = (m, inr false).
Proof.
  unfold Provider.is_registrable, Manager._register_provider.
  destruct (Provider.enabled cfg); cbn [negb andb]; [|done].
  intros Hkeys%bool_decide_eq_false_1.
  destruct (Provider.api_keys cfg); [done|]. exfalso. by apply Hkeys.
Qed.

Lemma register_provider_skipped pkm cfg :
  Provider.is_registrable cfg = false →
  (Provider.register_provider (Manager.settings env) pkm cfg).2 = pkm.
Proof.
  unfold Provider.is_registrable, Provider.register_provider.
  destruct (Provider.enabled cfg); cbn [negb andb]; [|done].
  intros Hkeys%bool_decide_eq_false_1.
  destruct (Provider.api_keys cfg); [done|]. exfalso. by apply Hkeys.
Qed.

(** Registering configurations with distinct, new names appends their
    services in order. *)
Lemma register_all_fresh configs m pkm :
  Manager._key_manager m = Some pkm →
  NoDup (Provider.name <$> configs) →
  (∀ n, n ∈ Provider.name <$> configs → n ∉ (Manager._services m).*1) →
  Manager.register_all env m configs
  = ({| Manager._services := Manager._services m ++ Manager.services_of configs;
        Manager._key_manager :=
          Some (foldl (λ pkm cfg, (Provider.register_provider (Manager.settings env) pkm cfg).2)
                      pkm configs);
        Manager._default_provider := Manager._default_provider m;
        Manager._initialized := Manager._initialized m |}, None).
Proof.
  revert m pkm. induction configs as [|cfg configs IH]; intros m pkm Hkm Hnodup Hfresh.
  { cbn [Manager.register_all foldl]. unfold Manager.services_of. cbn.
    rewrite app_nil_r, <- Hkm. by destruct m. }
  cbn [fmap list_fmap] in Hnodup, Hfresh. apply NoDup_cons in Hnodup as [Hcfg Hnodup].
  cbn [Manager.register_all foldl]. rewrite services_of_cons.
  destruct (Provider.is_registrable cfg) eqn:Hreg.
  - rewrite (_register_provider_registrable m pkm cfg Hkm Hreg).
    rewrite dict_set_fresh by (apply Hfresh; by left).
    rewrite (IH _ (Provider.register_provider (Manager.settings env) pkm cfg).2); [|done|done|].
    + cbn [Manager._services Manager._default_provider Manager._initialized].
      by rewrite <- app_assoc.
    + intros n Hn. cbn [Manager._services]. rewrite fmap_app, elem_of_app.
      intros [Hin|Hin%list_elem_of_singleton].
      * by apply (Hfresh n); [right|].
      * cbn in Hin. by subst.
  - rewrite (_register_provider_skipped m cfg Hreg).
    rewrite (register_provider_skipped pkm cfg Hreg).
    rewrite (IH m pkm); [done|done|done|].
    intros n Hn. apply Hfresh. by right.
Qed.

Lemma foldl_register_other configs pkm n :
  (∀ cfg, cfg ∈ configs → Provider.name cfg ≠ n ∨ Provider.is_registrable cfg = false) →
  Provider._managers
    (foldl (λ pkm cfg, (Provider.register_provider (Manager.settings env) pkm cfg).2)
           pkm configs) !! n
  = Provider._managers pkm !! n.
Proof.
  revert pkm. induction configs as [|cfg configs IH]; intros pkm Hother; [done|].
  cbn [foldl]. rewrite IH by (intros c Hc; apply Hother; by right).
  destruct (Hother cfg) as [Hne|Hreg]; [by left| |].
  - unfold Provider.register_provider. destruct (negb (Provider.enabled cfg)); [done|].
    destruct (Provider.api_keys cfg); [done|]. cbn. by rewrite lookup_insert_ne.
  - by rewrite register_provider_skipped.
Qed.

Lemma foldl_register_hit configs pkm cfg :
  NoDup (Provider.name <$> configs) →
  cfg ∈ configs → Provider.is_registrable cfg = true →
  Provider._managers
    (foldl (λ pkm cfg, (Provider.register_provider (Manager.settings env) pkm cfg).2)
           pkm configs) !! Provider.name cfg
  = Some (Provider.new_manager (Manager.settings env) cfg).
Proof.
  revert pkm. induction configs as [|c configs IH]; intros pkm Hnodup Hin Hreg.
  { by apply elem_of_nil in Hin. }
  cbn [fmap list_fmap] in Hnodup. apply NoDup_cons in Hnodup as [Hc Hnodup].
  cbn [foldl]. apply elem_of_cons in Hin as [->|Hin].
  - rewrite foldl_register_other.
    + apply andb_true_iff in Hreg as [Hen Hkeys%bool_decide_eq_true_1].
      unfold Provider.register_provider. rewrite Hen. cbn [negb].
      destruct (Provider.api_keys c) eqn:Hk; [done|]. cbn. by rewrite lookup_insert_eq.
    + intros c' Hc'. left. intros Heq. apply Hc. rewrite <- Heq.
      apply list_elem_of_fmap. by exists c'.
  - by apply IH.
Qed.

(** The service loop of [reload_config], over a key manager that holds a
    manager exactly for the registrable configurations. *)
Lemma recreate_services_fresh configs m pkm :
  Manager._key_manager m = Some pkm →
  NoDup (Provider.name <$> configs) →
  (∀ n, n ∈ Provider.name <$> configs → n ∉ (Manager._services m).*1) →
  (∀ cfg, cfg ∈ configs → Provider.enabled cfg = true →
          (is_Some (Provider.get_manager pkm (Provider.name cfg))
           ↔ Provider.is_registrable cfg = true)) →
  Manager.recreate_services m configs
  = (Manager.set_services m (Manager._services m ++ Manager.services_of configs), None).
Proof.
  revert m. induction configs as [|cfg configs IH]; intros m Hkm Hnodup Hfresh Hman.
  { cbn [Manager.recreate_services]. unfold Manager.services_of. cbn.
    rewrite app_nil_r. by destruct m. }
  cbn [fmap list_fmap] in Hnodup, Hfresh. apply NoDup_cons in Hnodup as [Hcfg Hnodup].
  assert (Hrest : ∀ c, c ∈ configs → Provider.enabled c = true →
            (is_Some (Provider.get_manager pkm (Provider.name c))
             ↔ Provider.is_registrable c = true)).
  { intros c Hc. apply Hman. by right. }
  cbn [Manager.recreate_services]. rewrite services_of_cons.
  destruct (Provider.enabled cfg) eqn:Hen; cbn [negb].
  - rewrite Hkm. pose proof (Hman cfg (list_elem_of_here _ _) Hen) as Hhere.
    destruct (Provider.get_manager pkm (Provider.name cfg)) as [km|] eqn:Hget.
    + rewrite (proj1 Hhere) by (by eexists).
      rewrite dict_set_fresh by (apply Hfresh; by left).
      rewrite IH; [|done|done| |done].
      * unfold Manager.set_services. cbn. by rewrite <- app_assoc.
      * intros n Hn. cbn [Manager.set_services Manager._services].
        rewrite fmap_app, elem_of_app.
        intros [Hin|Hin%list_elem_of_singleton].
        -- by apply (Hfresh n); [right|].
        -- cbn in Hin. by subst.
    + destruct (Provider.is_registrable cfg) eqn:Hreg.
      { by destruct (proj2 Hhere eq_refl) as [? ?]. }
      rewrite IH; [done|done|done| |done].
      intros n Hn. apply Hfresh. by right.
  - assert (Hreg : Provider.is_registrable cfg = false).
    { unfold Provider.is_registrable. by rewrite Hen. }
    rewrite Hreg. rewrite IH; [done|done|done| |done].
    intros n Hn. apply Hfresh. by right.
Qed.

Lemma names_inj configs cfg cfg' :
  NoDup (Provider.name <$> configs) →
  cfg ∈ configs → cfg' ∈ configs → Provider.name cfg = Provider.name cfg' → cfg = cfg'.
Proof.
  induction configs as [|c configs IH]; intros Hnodup Hin Hin' Heq.
  { by apply elem_of_nil in Hin. }
  cbn [fmap list_fmap] in Hnodup. apply NoDup_cons in Hnodup as [Hc Hnodup].
  apply elem_of_cons in Hin as [->|Hin]; apply elem_of_cons in Hin' as [->|Hin'].
  - done.
  - exfalso. apply Hc. rewrite Heq. apply list_elem_of_fmap. by exists cfg'.
  - exfalso. apply Hc. rewrite <- Heq. apply list_elem_of_fmap. by exists cfg.
  - by apply IH.
Qed.

Lemma elem_of_services_of configs n service :
  (n, service) ∈ Manager.services_of configs
  ↔ ∃ cfg, cfg ∈ configs ∧ Provider.is_registrable cfg = true
           ∧ n = Provider.name cfg ∧ service = {| Manager.config := cfg |}.
Proof.
  unfold Manager.services_of. rewrite list_elem_of_fmap. split.
  - intros (cfg & [= -> ->] & Hin). apply list_elem_of_In, filter_In in Hin as [Hin Hreg].
    exists cfg. by rewrite list_elem_of_In.
  - intros (cfg & Hin & Hreg & -> & ->). exists cfg. split; [done|].
    apply list_elem_of_In, filter_In. by rewrite <- list_elem_of_In.
Qed.

(** A configuration that is not registrable has no service. *)
Lemma dict_get_services_of_None configs n :
  (∀ cfg, cfg ∈ configs → Provider.is_registrable cfg = true → Provider.name cfg ≠ n) →
  Manager.dict_get (Manager.services_of configs) n = None.
Proof.
  intros Hnone. apply dict_get_None. intros ([n' service] & -> & Hin)%list_elem_of_fmap.
  apply elem_of_services_of in Hin as (cfg & Hin & Hreg & -> & _). by eapply Hnone.
Qed.

(** The first initialisation of a manager over a non-empty provider
    configuration with distinct names. *)
Lemma initialize_fresh pkm :
  Manager.providers_config env ≠ [] →
  NoDup (Provider.name <$> Manager.providers_config env) →
  Manager.initialize env pkm Manager.init
  = ({| Manager._services := Manager.services_of (Manager.providers_config env);
        Manager._key_manager :=
          Some (foldl (λ pkm cfg, (Provider.register_provider (Manager.settings env) pkm cfg).2)
                      pkm (Manager.providers_config env));
        Manager._default_provider :=
          if bool_decide (Manager.DEFAULT_PROVIDER env = "default"%string)
          then default "default"%string
                       (head (Manager.services_of (Manager.providers_config env)).*1)
          else Manager.DEFAULT_PROVIDER env;
        Manager._initialized := true |}, None).
Proof.
  intros Hne Hnodup. unfold Manager.initialize. cbn [Manager.init Manager._initialized].
  destruct (Manager.providers_config env) as [|cfg0 configs] eqn:Hconfigs; [done|].
  rewrite (register_all_fresh _ _ pkm); [|done|done|].
  - unfold Manager.pick_first_provider, Manager.set_initialized, Manager.set_default_provider.
    cbn [Manager._default_provider Manager._services Manager._key_manager
         Manager._initialized Manager.set_key_manager app].
    case_bool_decide as Hdefault; [|done].
    destruct (Manager.services_of (cfg0 :: configs)) as [|[first service] rest]; [|done].
    cbn. by rewrite Hdefault.
  - intros n _. cbn. by intros ?%elem_of_nil.
Qed.

(** The resolution of a provider against the services of a configuration. *)
Lemma resolve_by_name m configs cfg :
  Manager._services m = Manager.services_of configs →
  NoDup (Provider.name <$> configs) →
  cfg ∈ configs → Provider.is_registrable cfg = true →
  Manager.get_service m (Provider.name cfg) = Some {| Manager.config := cfg |}.
Proof.
  intros Hservices Hnodup Hin Hreg. unfold Manager.get_service. rewrite Hservices.
  by apply dict_get_services_of.
Qed.

Lemma find_path_unique (services : list (string * Manager.ProviderService)) p n service :
  (n, service) ∈ services →
  Provider.path (Manager.config service) = p →
  (∀ n' service', (n', service') ∈ services →
                  Provider.path (Manager.config service') = p → service' = service) →
  snd <$> List.find (λ kv, bool_decide (Provider.path (Manager.config kv.2) = p)) services
  = Some service.
Proof.
  intros Hin Hpath Hunique.
  destruct (List.find _ services) as [[n' service']|] eqn:Hfind.
  - apply find_some in Hfind as [Hin' Hp%bool_decide_eq_true_1]. cbn in *.
    f_equal. eapply Hunique; [by apply list_elem_of_In|done].
  - exfalso. apply list_elem_of_In in Hin.
    pose proof (find_none _ _ Hfind _ Hin) as Hno. cbn in Hno.
    by rewrite bool_decide_eq_true_2 in Hno.
Qed.

End ManagerFacts.

(** X24.  The first [initialize] over a non-empty provider configuration
    with distinct names registers exactly the enabled providers that have
    keys, in configuration order: each of them gets a service under its name
    and a fresh key manager over its keys with its own [max_failures]; a
    disabled or keyless provider gets no service.  The default provider is
    [settings.DEFAULT_PROVIDER], except that the value ["default"] stands for
    the first registered provider. *)
Theorem initialize_registers_enabled_providers (env : Manager.Env)
    (pkm : Provider.ProviderKeyManager) :
  Manager.providers_config env ≠ [] →
  NoDup (Provider.name <$> Manager.providers_config env) →
  ∃ m' pkm',
    Manager.initialize env pkm Manager.init = (m', None)
    ∧ Manager._initialized m' = true
    ∧ Manager._key_manager m' = Some pkm'
    ∧ (Manager._services m').*1
      = Provider.name <$> List.filter Provider.is_registrable (Manager.providers_config env)
    ∧ Manager._default_provider m'
      = (if bool_decide (Manager.DEFAULT_PROVIDER env = "default"%string)
         then default "default"%string
                (head (Provider.name
                         <$> List.filter Provider.is_registrable (Manager.providers_config env)))
         else Manager.DEFAULT_PROVIDER env)
    ∧ (∀ cfg, cfg ∈ Manager.providers_config env → Provider.registrable cfg →
         Manager.get_service m' (Provider.name cfg) = Some {| Manager.config := cfg |}
         ∧ Provider.get_manager pkm' (Provider.name cfg)
           = Some (Provider.new_manager (Manager.settings env) cfg))
    ∧ (∀ cfg, cfg ∈ Manager.providers_config env → ¬ Provider.registrable cfg →
         Manager.get_service m' (Provider.name cfg) = None).
Proof.
  intros Hne Hnodup. eexists _, _. rewrite (initialize_fresh env pkm Hne Hnodup).
  split_and!; [done | done | done | | | |].
  - cbn [Manager._services]. apply services_of_keys.
  - cbn [Manager._default_provider]. by rewrite services_of_keys.
  - intros cfg Hin Hreg%is_registrable_spec. split.
    + by apply (resolve_by_name _ (Manager.providers_config env)).
    + unfold Provider.get_manager. by apply foldl_register_hit.
  - intros cfg Hin Hreg. unfold Manager.get_service. cbn [Manager._services].
    apply dict_get_services_of_None. intros cfg' Hin' Hreg' Heq.
    apply Hreg. apply is_registrable_spec.
    by rewrite <- (names_inj _ _ _ Hnodup Hin' Hin Heq).
Qed.

Lemma initialize_registers_enabled_providers_witness :
  let st := mkSettings 3 3 3 true in
  let openai :=
    Provider.mkProviderConfig "openai" "oa" "https://api.openai.com/v1"
      ["k1"; "k2"]%string "" ∅ 300 2 3 "" true in
  let off :=
    Provider.mkProviderConfig "deepseek" "ds" "https://api.deepseek.com/v1"
      ["k3"]%string "" ∅ 300 3 3 "" false in
  let env := Manager.mkEnv st "default" [off; openai] [] "" ∅ 300 in
  ∃ m', (Manager.initialize env Provider.empty Manager.init).1 = m'
        ∧ Manager._default_provider m' = "openai"%string
        ∧ Manager.get_service m' "deepseek" = None.
Proof.
  intros st openai off env.
  destruct (initialize_registers_enabled_providers env Provider.empty)
    as (m' & pkm' & Hinit & _ & _ & _ & Hdefault & _ & Hoff); [done | by_compute |].
  exists m'. split_and!.
  - by rewrite Hinit.
  - rewrite Hdefault. by vm_compute.
  - apply (Hoff off); [by apply list_elem_of_here|]. intros [Hen _]. done.
Defined.

(** X25.  On the first request the router initialises the manager and then
    resolves the provider: an enabled provider with keys is found under its
    name; it is found under its path too, when no registered provider bears
    that path as its name and no other registered provider has the same path;
    a name that matches no registered provider's name or path gives 404.
    Without a provider name the answer depends on [settings.DEFAULT_PROVIDER]:
    when it is ["default"], the first registered provider answers, whatever
    the providers are named; otherwise the registered provider of that name
    answers, and the answer is 503 when no registered provider has that
    name. *)
Theorem get_provider_service_finds_enabled_providers (env : Manager.Env)
    (pkm : Provider.ProviderKeyManager) (cfg : Provider.ProviderConfig) :
  NoDup (Provider.name <$> Manager.providers_config env) →
  cfg ∈ Manager.providers_config env →
  Provider.registrable cfg →
  (Provider.name cfg ≠ ""%string →
   (Manager.get_provider_service env pkm Manager.init (Some (Provider.name cfg))).2
   = Manager.Service {| Manager.config := cfg |})
  ∧ (Provider.path cfg ≠ ""%string →
     (∀ c, c ∈ Manager.providers_config env → Provider.registrable c →
           Provider.name c ≠ Provider.path cfg
           ∧ (Provider.path c = Provider.path cfg → c = cfg)) →
     (Manager.get_provider_service env pkm Manager.init (Some (Provider.path cfg))).2
     = Manager.Service {| Manager.config := cfg |})
  ∧ (∀ p, p ≠ ""%string →
       (∀ c, c ∈ Manager.providers_config env → Provider.registrable c →
             Provider.name c ≠ p ∧ Provider.path c ≠ p) →
       (Manager.get_provider_service env pkm Manager.init (Some p)).2
       = Manager.HTTPException 404 ("Provider '" +:+ p +:+ "' not found"))
  ∧ (Manager.DEFAULT_PROVIDER env = "default"%string →
     head (List.filter Provider.is_registrable (Manager.providers_config env)) = Some cfg →
     (Manager.get_provider_service env pkm Manager.init None).2
     = Manager.Service {| Manager.config := cfg |})
  ∧ (Manager.DEFAULT_PROVIDER env ≠ "default"%string →
     Manager.DEFAULT_PROVIDER env = Provider.name cfg →
     (Manager.get_provider_service env pkm Manager.init None).2
     = Manager.Service {| Manager.config := cfg |})
  ∧ (Manager.DEFAULT_PROVIDER env ≠ "default"%string →
     (∀ c, c ∈ Manager.providers_config env → Provider.registrable c →
           Provider.name c ≠ Manager.DEFAULT_PROVIDER env) →
     (Manager.get_provider_service env pkm Manager.init None).2
     = Manager.HTTPException 503 "Default provider not available").
Proof.
  intros Hnodup Hin Hreg%is_registrable_spec.
  assert (Hne : Manager.providers_config env ≠ []).
  { intros Hnil. rewrite Hnil in Hin. by apply elem_of_nil in Hin. }
  unfold Manager.get_provider_service. cbn [Manager.init Manager._initialized].
  rewrite (initialize_fresh env pkm Hne Hnodup).
  set (m' := {| Manager._services := Manager.services_of (Manager.providers_config env);
                Manager._key_manager := _; Manager._default_provider := _;
                Manager._initialized := true |}).
  assert (Hservices : Manager._services m' = Manager.services_of (Manager.providers_config env))
    by done.
  assert (Htruthy : ∀ p, p ≠ ""%string → truthy (default ""%string (Some p)) = true).
  { intros p Hp. by apply bool_decide_eq_true_2. }
  split_and!.
  - intros Hname. rewrite (Htruthy _ Hname). cbn [negb default from_option id].
    by rewrite (resolve_by_name m' _ cfg Hservices Hnodup Hin Hreg).
  - intros Hpath Hothers. rewrite (Htruthy _ Hpath). cbn [negb default from_option id].
    unfold Manager.get_service. rewrite Hservices.
    rewrite dict_get_services_of_None.
    2:{ intros c Hc Hcreg%is_registrable_spec. by apply Hothers. }
    unfold Manager.get_service_by_path. rewrite Hservices.
    rewrite (find_path_unique _ (Provider.path cfg) (Provider.name cfg)
               {| Manager.config := cfg |}); [done| |done|].
    + apply elem_of_services_of. by exists cfg.
    + intros n' service' (c & Hc & Hcreg%is_registrable_spec & -> & ->)%elem_of_services_of Hp.
      cbn in Hp. f_equal. by apply Hothers.
  - intros p Hp Hnone. rewrite (Htruthy _ Hp). cbn [negb default from_option id].
    unfold Manager.get_service. rewrite Hservices.
    rewrite dict_get_services_of_None.
    2:{ intros c Hc Hcreg%is_registrable_spec. by apply Hnone. }
    unfold Manager.get_service_by_path. rewrite Hservices.
    destruct (List.find _ _) as [[n service]|] eqn:Hfind; [|done].
    apply find_some in Hfind as [Hfound Hpath%bool_decide_eq_true_1].
    apply list_elem_of_In, elem_of_services_of in Hfound
      as (c & Hc & Hcreg%is_registrable_spec & -> & ->).
    cbn in Hpath. by destruct (Hnone c Hc Hcreg).
  - intros Hdefault Hfirst. cbn [default from_option id].
    change (truthy ""%string) with false. cbn [negb].
    unfold Manager.get_default_service. subst m'. cbn [Manager._default_provider].
    rewrite bool_decide_eq_true_2 by done.
    assert (Hhead : head (Manager.services_of (Manager.providers_config env)).*1
                    = Some (Provider.name cfg)).
    { unfold Manager.services_of.
      destruct (List.filter _ _) as [|c cs]; [done|]. by injection Hfirst as ->. }
    rewrite !Hhead. cbn [default from_option id].
    by erewrite (resolve_by_name _ (Manager.providers_config env) cfg).
  - intros Hnot Hdefault. cbn [default from_option id].
    change (truthy ""%string) with false. cbn [negb].
    unfold Manager.get_default_service. subst m'. cbn [Manager._default_provider].
    rewrite bool_decide_eq_false_2 by done. rewrite Hdefault.
    by erewrite (resolve_by_name _ (Manager.providers_config env) cfg).
  - intros Hnot Hnone. cbn [default from_option id].
    change (truthy ""%string) with false. cbn [negb].
    unfold Manager.get_default_service, Manager.get_service. subst m'.
    cbn [Manager._default_provider Manager._services].
    rewrite bool_decide_eq_false_2 by done.
    rewrite dict_get_services_of_None; [done|].
    intros c Hc Hcreg%is_registrable_spec. by apply Hnone.
Qed.

Lemma get_provider_service_finds_enabled_providers_witness :
  let st := mkSettings 3 3 3 true in
  let openai :=
    Provider.mkProviderConfig "openai" "oa" "https://api.openai.com/v1"
      ["k1"; "k2"]%string "" ∅ 300 2 3 "" true in
  let off :=
    Provider.mkProviderConfig "deepseek" "ds" "https://api.deepseek.com/v1"
      ["k3"]%string "" ∅ 300 3 3 "" false in
  let fallback :=
    Provider.mkProviderConfig "default" "df" "https://api.example.com/v1"
      ["k4"]%string "" ∅ 300 3 3 "" true in
  let env default_provider :=
    Manager.mkEnv st default_provider [off; openai; fallback] [] "" ∅ 300 in
  let resolve default_provider provider :=
    (Manager.get_provider_service (env default_provider) Provider.empty Manager.init
       provider).2 in
  resolve "default"%string (Some "oa"%string) = Manager.Service {| Manager.config := openai |}
  ∧ resolve "default"%string (Some "deepseek"%string)
    = Manager.HTTPException 404 "Provider 'deepseek' not found"
  ∧ resolve "default"%string None = Manager.Service {| Manager.config := openai |}
  ∧ resolve "openai"%string None = Manager.Service {| Manager.config := openai |}
  ∧ resolve "deepseek"%string None
    = Manager.HTTPException 503 "Default provider not available".
Proof.
  intros st openai off fallback env resolve.
  assert (Hcases : ∀ c default_provider,
            c ∈ Manager.providers_config (env default_provider) →
            c = off ∨ c = openai ∨ c = fallback).
  { intros c default_provider Hc. cbn in Hc.
    apply elem_of_cons in Hc as [->|Hc]; [by left|].
    apply elem_of_cons in Hc as [->|Hc]; [right; by left|].
    apply list_elem_of_singleton in Hc as ->. right; by right. }
  split_and!.
  - destruct (get_provider_service_finds_enabled_providers (env "default"%string)
                Provider.empty openai) as (_ & Hpath & _);
      [by_compute | apply list_elem_of_further, list_elem_of_here | by split |].
    apply Hpath; [done|]. intros c Hc.
    destruct (Hcases c _ Hc) as [->|[->| ->]];
      [by intros [? _] | by intros _ | by intros _].
  - destruct (get_provider_service_finds_enabled_providers (env "default"%string)
                Provider.empty openai) as (_ & _ & Hmissing & _);
      [by_compute | apply list_elem_of_further, list_elem_of_here | by split |].
    apply (Hmissing "deepseek"%string); [done|]. intros c Hc.
    destruct (Hcases c _ Hc) as [->|[->| ->]];
      [by intros [? _] | by intros _ | by intros _].
  - destruct (get_provider_service_finds_enabled_providers (env "default"%string)
                Provider.empty openai) as (_ & _ & _ & Hfirst & _);
      [by_compute | apply list_elem_of_further, list_elem_of_here | by split |].
    by apply Hfirst.
  - destruct (get_provider_service_finds_enabled_providers (env "openai"%string)
                Provider.empty openai) as (_ & _ & _ & _ & Hnamed & _);
      [by_compute | apply list_elem_of_further, list_elem_of_here | by split |].
    by apply Hnamed.
  - destruct (get_provider_service_finds_enabled_providers (env "deepseek"%string)
                Provider.empty openai) as (_ & _ & _ & _ & _ & Hnone);
      [by_compute | apply list_elem_of_further, list_elem_of_here | by split |].
    apply Hnone; [done|]. intros c Hc.
    destruct (Hcases c _ Hc) as [->|[->| ->]];
      [by intros [? _] | by intros _ | by intros _].
Defined.

(** X26.  [reload_config] over a non-empty provider configuration with
    distinct names, on a manager that has its key manager, rebuilds the
    services of exactly the enabled providers that have keys, in
    configuration order, and keeps what was known about their keys: the new
    key manager of a provider gives every key of its new list the failure
    count it had in the provider's previous manager, and zero to a key that is
    new or whose provider is new. *)
Theorem reload_config_keeps_failure_counts (env : Manager.Env)
    (m : Manager.ProviderManager) (pkm : Provider.ProviderKeyManager) :
  Manager._key_manager m = Some pkm →
  Manager.providers_config env ≠ [] →
  NoDup (Provider.name <$> Manager.providers_config env) →
  ∃ m' pkm',
    Manager.reload_config env m = (m', None)
    ∧ Manager._key_manager m' = Some pkm'
    ∧ Manager._initialized m' = Manager._initialized m
    ∧ (Manager._services m').*1
      = Provider.name <$> List.filter Provider.is_registrable (Manager.providers_config env)
    ∧ (∀ cfg, cfg ∈ Manager.providers_config env → Provider.registrable cfg →
         Manager.get_service m' (Provider.name cfg) = Some {| Manager.config := cfg |}
         ∧ ∃ km',
             Provider.get_manager pkm' (Provider.name cfg) = Some km'
             ∧ Key.api_keys km' = Provider.api_keys cfg
             ∧ Key.MAX_FAILURES km' = Provider.max_failures cfg
             ∧ (∀ key, key ∈ Provider.api_keys cfg →
                  Key.key_failure_counts km' !! key
                  = Some (default 0
                            (Provider.get_manager pkm (Provider.name cfg)
                               ≫= λ km, Key.key_failure_counts km !! key))))
    ∧ (∀ cfg, cfg ∈ Manager.providers_config env → ¬ Provider.registrable cfg →
         Manager.get_service m' (Provider.name cfg) = None
         ∧ Provider.get_manager pkm' (Provider.name cfg) = None).
Proof.
  intros Hkm Hne Hnodup. unfold Manager.reload_config.
  destruct (Manager.providers_config env) as [|cfg0 configs] eqn:Hconfigs; [done|].
  rewrite <- Hconfigs in *.
  cbn [Manager.set_default_provider Manager._key_manager]. rewrite Hkm.
  cbn [fmap option_fmap option_map].
  set (st := Manager.settings env).
  set (pkm' := Provider.reload_providers st pkm (Manager.providers_config env)).
  assert (Hhit : ∀ cfg, cfg ∈ Manager.providers_config env → Provider.registrable cfg →
            Provider.get_manager pkm' (Provider.name cfg)
            = Some (Provider.reloaded_manager st
                      (Key.key_failure_counts <$> Provider._managers pkm) cfg)).
  { intros cfg Hin Hreg. unfold Provider.get_manager, pkm', Provider.reload_providers.
    by apply foldl_reload_hit. }
  assert (Hmiss : ∀ cfg, cfg ∈ Manager.providers_config env → ¬ Provider.registrable cfg →
            Provider.get_manager pkm' (Provider.name cfg) = None).
  { intros cfg Hin Hreg. apply reload_providers_drops_provider.
    intros c Hc. destruct (decide (Provider.name c = Provider.name cfg)) as [Heq|Hneq].
    - right. by rewrite (names_inj _ _ _ Hnodup Hc Hin Heq).
    - by left. }
  rewrite (recreate_services_fresh _ _ pkm'); [|done|done| |].
  - unfold Manager.pick_first_provider, Manager.set_services, Manager.set_key_manager.
    cbn [Manager._default_provider Manager._services Manager._key_manager
         Manager._initialized app].
    assert (Hfinal : ∀ m0,
      Manager._services m0 = Manager.services_of (Manager.providers_config env) →
      Manager._key_manager m0 = Some pkm' →
      Manager._initialized m0 = Manager._initialized m →
      Manager._key_manager m0 = Some pkm'
      ∧ Manager._initialized m0 = Manager._initialized m
      ∧ (Manager._services m0).*1
        = Provider.name <$> List.filter Provider.is_registrable (Manager.providers_config env)
      ∧ (∀ cfg, cfg ∈ Manager.providers_config env → Provider.registrable cfg →
           Manager.get_service m0 (Provider.name cfg) = Some {| Manager.config := cfg |}
           ∧ ∃ km',
               Provider.get_manager pkm' (Provider.name cfg) = Some km'
               ∧ Key.api_keys km' = Provider.api_keys cfg
               ∧ Key.MAX_FAILURES km' = Provider.max_failures cfg
               ∧ (∀ key, key ∈ Provider.api_keys cfg →
                    Key.key_failure_counts km' !! key
                    = Some (default 0
                              (Provider.get_manager pkm (Provider.name cfg)
                                 ≫= λ km, Key.key_failure_counts km !! key))))
      ∧ (∀ cfg, cfg ∈ Manager.providers_config env → ¬ Provider.registrable cfg →
           Manager.get_service m0 (Provider.name cfg) = None
           ∧ Provider.get_manager pkm' (Provider.name cfg) = None)).
    { intros m0 Hs Hk Hi. split_and!; [done | done | | |].
      - rewrite Hs. apply services_of_keys.
      - intros cfg Hin Hreg. split.
        + apply (resolve_by_name m0 (Manager.providers_config env)); [done..|].
          by apply is_registrable_spec.
        + eexists. split; [by apply Hhit|].
          destruct (reloaded_manager_fields st
                      (Key.key_failure_counts <$> Provider._managers pkm) cfg)
            as (Hkeys & Hmax & _).
          split_and!; [done | done |]. intros key Hkey.
          rewrite reloaded_manager_lookup, decide_True by done.
          do 2 f_equal. unfold Provider.get_manager. rewrite lookup_fmap.
          by destruct (Provider._managers pkm !! Provider.name cfg).
      - intros cfg Hin Hreg. split; [|by apply Hmiss].
        unfold Manager.get_service. rewrite Hs.
        apply dict_get_services_of_None. intros cfg' Hin' Hreg' Heq.
        apply Hreg. apply is_registrable_spec.
        by rewrite <- (names_inj _ _ _ Hnodup Hin' Hin Heq). }
    case_bool_decide as Hdefault.
    + destruct (Manager.services_of (Manager.providers_config env))
        as [|[first service] rest] eqn:Hservices.
      * eexists _, pkm'. split; [done|]. apply Hfinal; done.
      * eexists _, pkm'. split; [done|]. apply Hfinal; done.
    + eexists _, pkm'. split; [done|]. apply Hfinal; done.
  - intros n _. cbn. by intros ?%elem_of_nil.
  - intros cfg Hin Hen. split.
    + intros [km Hget]. apply is_registrable_spec.
      destruct (decide (Provider.registrable cfg)) as [Hreg|Hreg]; [done|].
      rewrite (Hmiss cfg Hin Hreg) in Hget. done.
    + intros Hreg%is_registrable_spec. rewrite (Hhit cfg Hin Hreg). by eexists.
Qed.

Lemma reload_config_keeps_failure_counts_witness :
  let st := mkSettings 3 3 3 true in
  let before :=
    Provider.mkProviderConfig "openai" "oa" "https://api.openai.com/v1"
      ["k1"; "k2"]%string "" ∅ 300 2 3 "" true in
  let after :=
    Provider.mkProviderConfig "openai" "oa" "https://api.openai.com/v1"
      ["k1"; "k3"]%string "" ∅ 300 2 3 "" true in
  let pkm :=
    {| Provider._managers :=
         {[ "openai"%string :=
              Key.run st (Provider.new_manager st before)
                      [Key.OpHandleApiFailure "k1"%string 3] ]};
       Provider._configs := {[ "openai"%string := before ]} |} in
  let m :=
    {| Manager._services := [("openai"%string, {| Manager.config := before |})];
       Manager._key_manager := Some pkm;
       Manager._default_provider := "openai";
       Manager._initialized := true |} in
  let env := Manager.mkEnv st "openai" [after] [] "" ∅ 300 in
  ∃ pkm' km',
    (Manager._key_manager (Manager.reload_config env m).1) = Some pkm'
    ∧ Provider.get_manager pkm' "openai" = Some km'
    ∧ Key.key_failure_counts km' !! "k1"%string = Some 1
    ∧ Key.key_failure_counts km' !! "k3"%string = Some 0.
Proof.
  intros st before after pkm m env.
  destruct (reload_config_keeps_failure_counts env m pkm)
    as (m' & pkm' & Hreload & Hkm & _ & _ & Hkept & _); [done | done | by_compute |].
  destruct (Hkept after) as (_ & km' & Hget & _ & _ & Hcounts);
    [apply list_elem_of_here | by split |].
  exists pkm', km'. rewrite Hreload. split_and!; [done | done | |].
  - rewrite Hcounts by (by left). by vm_compute.
  - rewrite Hcounts by (right; by left). by vm_compute.
Defined.

(** * Facts about the API client *)
Section ClientFacts.

Variable env : Client.Env.
Variable hash : string → Z.

Implicit Types (pm : Proxy.ProxyManager) (instance : option Proxy.ProxyManager).

Lemma _record_proxy_result_failure pm p (c : Z) :
  Client.PROXY_AUTO_CHECK_ENABLED env = true →
  p ≠ ""%string →
  Proxy.proxy_failure_counts pm !! p = Some c →
  ∃ pm',
    Client._record_proxy_result env (Some pm) (Some p) false = Some pm'
    ∧ Proxy.proxy_failure_counts pm' !! p = Some (c + 1)
    ∧ Proxy.MAX_FAILURES pm' = Proxy.MAX_FAILURES pm
    ∧ (p ∈ Proxy.disabled_proxies pm'
       ↔ p ∈ Proxy.disabled_proxies pm ∨ Proxy.MAX_FAILURES pm <= c + 1).
Proof.
  clear hash. intros Hauto Hp Hc. unfold Client._record_proxy_result.
  rewrite Hauto. cbn [default from_option id]. unfold truthy at 1.
  rewrite bool_decide_eq_true_2 by done. cbn [negb orb Client.get_proxy_manager].
  destruct (record_proxy_failure_known pm p c Hp Hc)
    as (pm' & Hfail & _ & Hmax & Hcounts & Hreach & Hbelow).
  exists pm'. rewrite Hfail. split_and!; [done | | done |].
  - by rewrite Hcounts, lookup_insert_eq.
  - destruct (decide (Proxy.MAX_FAILURES pm <= c + 1)) as [Hge|Hlt].
    + destruct (Hreach Hge) as [-> _]. rewrite elem_of_union, elem_of_singleton. tauto.
    + destruct (Hbelow ltac:(lia)) as [-> _]. split; [tauto|]. intros [?|?]; [done|lia].
Qed.

Lemma _record_proxy_result_success pm p (c : Z) :
  Client.PROXY_AUTO_CHECK_ENABLED env = true →
  p ≠ ""%string →
  Proxy.proxy_failure_counts pm !! p = Some c →
  ∃ pm',
    Client._record_proxy_result env (Some pm) (Some p) true = Some pm'
    ∧ Proxy.proxy_failure_counts pm' !! p = Some (if bool_decide (c > 0) then 0 else c)
    ∧ Proxy.MAX_FAILURES pm' = Proxy.MAX_FAILURES pm
    ∧ Proxy.disabled_proxies pm' = Proxy.disabled_proxies pm.
Proof.
  clear hash. intros Hauto Hp Hc. unfold Client._record_proxy_result.
  rewrite Hauto. cbn [default from_option id]. unfold truthy at 1.
  rewrite bool_decide_eq_true_2 by done. cbn [negb orb Client.get_proxy_manager].
  eexists. split; [done|]. unfold Proxy.record_proxy_success, truthy.
  rewrite bool_decide_eq_true_2 by done. cbn [negb]. rewrite Hc.
  case_bool_decide; [|done]. cbn. by rewrite lookup_insert_eq.
Qed.

End ClientFacts.

(** X27.  With the automatic proxy check enabled, [generate_content] reports
    the outcome of its call to the proxy manager, for the proxy it used: a
    connection error adds one failure to the proxy, a response other than 200
    adds two (it is reported before the exception is raised and again when the
    exception passes the [except] clause), and a 200 response clears the
    count.  The value returned or the exception raised is that of the upstream
    call. *)
Theorem generate_content_reports_proxy_result (env : Client.Env) (hash : string → Z)
    (manager_choice choice : nat) (instance : option Proxy.ProxyManager)
    (u : Stream.NormalUpstream) (api_key p : string) (pm1 : Proxy.ProxyManager) (c : Z) :
  Client.PROXY_AUTO_CHECK_ENABLED env = true →
  Client._get_proxy env hash manager_choice choice instance api_key = (Some p, Some pm1) →
  p ≠ ""%string →
  Proxy.proxy_failure_counts pm1 !! p = Some c →
  ∃ pm',
    Client.generate_content env hash manager_choice choice instance u api_key
      = (Stream.normal_attempt u, Some pm')
    ∧ Proxy.proxy_failure_counts pm' !! p
      = Some match u with
             | Stream.NormalConnectionFails _ => c + 1
             | Stream.NormalResponds status_code _ json =>
                 if bool_decide (status_code ≠ 200) then c + 2
                 else if json is inr _ then (if bool_decide (c > 0) then 0 else c)
                 else (if bool_decide (c > 0) then 0 else c) + 1
             end.
Proof.
  intros Hauto Hget Hp Hc. unfold Client.generate_content. rewrite Hget.
  destruct u as [e|status_code text json]; cbn [Stream.normal_attempt].
  - destruct (_record_proxy_result_failure env pm1 p c Hauto Hp Hc) as (pm' & -> & Hc' & _).
    by exists pm'.
  - case_bool_decide as Hstatus.
    + destruct (_record_proxy_result_failure env pm1 p c Hauto Hp Hc)
        as (pm2 & -> & Hc2 & _).
      destruct (_record_proxy_result_failure env pm2 p (c + 1) Hauto Hp Hc2)
        as (pm' & -> & Hc' & _).
      exists pm'. split; [done|]. rewrite Hc'. f_equal. lia.
    + destruct (_record_proxy_result_success env pm1 p c Hauto Hp Hc)
        as (pm2 & -> & Hc2 & _).
      destruct json as [e|body].
      * destruct (_record_proxy_result_failure env pm2 p _ Hauto Hp Hc2)
          as (pm' & -> & Hc' & _).
        by exists pm'.
      * by exists pm2.
Qed.

Lemma generate_content_reports_proxy_result_witness :
  let st := mkSettings 3 3 2 true in
  let env := Client.mkEnv st ["p1"; "p2"]%string true in
  let hash := λ _ : string, 0 in
  ∃ pm',
    (Client.generate_content env hash 0 0 None
       (Stream.NormalResponds 429 "rate limited" (inr ""%string)) "k1").2 = Some pm'
    ∧ Proxy.proxy_failure_counts pm' !! "p1"%string = Some 2
    ∧ Proxy.get_available_proxies pm' = ["p2"]%string.
Proof.
  intros st env hash.
  destruct (generate_content_reports_proxy_result env hash 0 0 None
              (Stream.NormalResponds 429 "rate limited" (inr ""%string))
              "k1"%string "p1"%string
              (Proxy.get_proxy_for_key hash true 0 (Proxy.init st ["p1"; "p2"]%string)
                 "k1"%string).2 0)
    as (pm' & Hgen & Hcount); [done | by vm_compute | done | by vm_compute |].
  exists pm'. rewrite Hgen. split_and!; [done | exact Hcount |].
  vm_compute in Hgen. injection Hgen as <-. by vm_compute.
Defined.

(** X28.  With the automatic proxy check enabled, the client takes its
    proxy from the proxy manager: as long as the manager has an available
    proxy (and no proxy is the empty string), [_get_proxy] answers with an
    available one, never with a disabled one.  With the check disabled the
    choice is made on [settings.PROXIES] alone and the manager is neither
    consulted nor changed. *)
Theorem client_proxy_follows_manager (env : Client.Env) (hash : string → Z)
    (manager_choice choice : nat) (instance : option Proxy.ProxyManager)
    (api_key : string) :
  Client.PROXIES env ≠ [] →
  (Client.PROXY_AUTO_CHECK_ENABLED env = true →
   Proxy.get_available_proxies (Client.get_proxy_manager env instance) ≠ [] →
   ""%string ∉ Proxy.proxies (Client.get_proxy_manager env instance) →
   ∃ proxy pm',
     Client._get_proxy env hash manager_choice choice instance api_key
       = (Some proxy, Some pm')
     ∧ Proxy.available pm' proxy
     ∧ Proxy.available (Client.get_proxy_manager env instance) proxy)
  ∧ (Client.PROXY_AUTO_CHECK_ENABLED env = false →
     Client._get_proxy env hash manager_choice choice instance api_key
       = (Client.static_proxy env hash choice api_key, instance)
     ∧ is_Some (Client.static_proxy env hash choice api_key)
     ∧ ∀ proxy, Client.static_proxy env hash choice api_key = Some proxy →
                proxy ∈ Client.PROXIES env).
Proof.
  intros Hproxies. unfold Client._get_proxy.
  destruct (Client.PROXIES env) as [|p0 ps] eqn:Hlist; [done|]. rewrite <- Hlist.
  split.
  - intros -> Hav Hnonempty.
    destruct (get_proxy_for_key_available hash
                (S_PROXIES_USE_CONSISTENCY_HASH_BY_API_KEY (Client.settings env))
                manager_choice (Client.get_proxy_manager env instance) api_key Hav)
      as (proxy & pm' & -> & Havail & Havail' & _).
    assert (Hne : proxy ≠ ""%string).
    { intros ->. apply Hnonempty. by destruct Havail. }
    cbn [default from_option id]. unfold truthy.
    rewrite bool_decide_eq_true_2 by done. by exists proxy, pm'.
  - intros ->. split; [done|].
    assert (Hlen : (0 < length (Client.PROXIES env))%nat) by (rewrite Hlist; cbn; lia).
    unfold Client.static_proxy.
    destruct (S_PROXIES_USE_CONSISTENCY_HASH_BY_API_KEY (Client.settings env)).
    + split.
      * apply hash_slot_is_Some. by rewrite Hlist.
      * intros proxy. apply hash_slot_elem_of.
    + split.
      * apply lookup_lt_is_Some_2. by apply Nat.mod_upper_bound; lia.
      * intros proxy. apply list_elem_of_lookup_2.
Qed.

Lemma client_proxy_follows_manager_witness :
  let st := mkSettings 3 3 1 true in
  let env := Client.mkEnv st ["p1"; "p2"]%string true in
  let hash := λ _ : string, 0 in
  let pm := Proxy.run hash (Proxy.init st ["p1"; "p2"]%string)
              [Proxy.OpRecordFailure "p1"%string] in
  Client.static_proxy env hash 0 "k1" = Some "p1"%string
  ∧ (Client._get_proxy env hash 0 0 (Some pm) "k1").1 = Some "p2"%string.
Proof.
  intros st env hash pm. split; [by vm_compute|].
  destruct (client_proxy_follows_manager env hash 0 0 (Some pm) "k1"%string)
    as [Hauto _]; [done|].
  destruct Hauto as (proxy & pm' & Hget & Hav & _); [done | by_compute | by_compute |].
  rewrite Hget. vm_compute in Hget. by injection Hget as <- _.
Defined.

(** * Facts about the provider registry *)
Section RegistryFacts.

Variable st : Settings.

Implicit Types (pkm : Provider.ProviderKeyManager) (config : Provider.ProviderConfig).

(** No [KeyManager] operation changes the pool or the threshold. *)
Lemma key_step_fields (km : Key.KeyManager) (o : Key.op) :
  Key.api_keys (Key.step st km o) = Key.api_keys km
  ∧ Key.MAX_FAILURES (Key.step st km o) = Key.MAX_FAILURES km.
Proof.
  assert (Hrecord : ∀ key, Key.api_keys (Key.record_failure km key) = Key.api_keys km
                           ∧ Key.MAX_FAILURES (Key.record_failure km key)
                             = Key.MAX_FAILURES km).
  { intros key. unfold Key.record_failure. by destruct (Key.key_failure_counts km !! key). }
  destruct o as [| |api_key retries| |key|key]; cbn [Key.step].
  - destruct (Key.get_next_key km) as [[k km']|] eqn:Hnext; [|done].
    apply get_next_key_Some in Hnext as (_ & (Hk & _ & Hm) & _). done.
  - destruct (get_next_working_key_total km) as (k & km' & -> & (Hk & _ & Hm) & _). done.
  - destruct (Hrecord api_key) as [Hk Hm].
    unfold Key.handle_api_failure. case_bool_decide; cbn; [|done].
    destruct (get_next_working_key_total (Key.record_failure km api_key))
      as (k & km' & -> & (Hk' & _ & Hm') & _).
    cbn. split; congruence.
  - done.
  - unfold Key.reset_key_failure_count. by destruct (Key.key_failure_counts km !! key).
  - unfold Key.check_failed_key_failure.
    destruct (Key.key_failure_counts km !! key); [|done]. by case_bool_decide.
Qed.

Lemma empty_well_formed : Provider.well_formed Provider.empty.
Proof. intros n. cbn. by rewrite !lookup_empty. Qed.

Lemma insert_well_formed pkm config (km : Key.KeyManager) :
  Provider.well_formed pkm →
  Provider.registrable config →
  Key.api_keys km = Provider.api_keys config →
  Key.MAX_FAILURES km = Provider.max_failures config →
  Provider.well_formed
    {| Provider._managers := <[Provider.name config := km]> (Provider._managers pkm);
       Provider._configs := <[Provider.name config := config]> (Provider._configs pkm) |}.
Proof.
  intros Hwf Hreg Hkeys Hmax n. cbn.
  destruct (decide (Provider.name config = n)) as [<-|Hne].
  - by rewrite !lookup_insert_eq.
  - rewrite !lookup_insert_ne by done. apply Hwf.
Qed.

Lemma register_provider_well_formed pkm config :
  Provider.well_formed pkm →
  Provider.well_formed (Provider.register_provider st pkm config).2.
Proof.
  intros Hwf. unfold Provider.register_provider.
  destruct (Provider.enabled config) eqn:Hen; cbn [negb]; [|done].
  destruct (Provider.api_keys config) as [|k keys] eqn:Hkeys; [done|]. cbn [snd].
  apply insert_well_formed; [done | | |].
  - split; [done|]. by rewrite Hkeys.
  - done.
  - done.
Qed.

Lemma reload_one_well_formed (preserved : gmap string (gmap string Z)) pkm config :
  Provider.well_formed pkm →
  Provider.well_formed (Provider.reload_one st preserved pkm config).
Proof.
  intros Hwf. unfold Provider.reload_one.
  destruct (Provider.enabled config) eqn:Hen; cbn [negb]; [|done].
  destruct (Provider.api_keys config) as [|k keys] eqn:Hkeys; [done|].
  destruct (reloaded_manager_fields st preserved config) as (Hk & Hm & _).
  apply insert_well_formed; [done | | done | done].
  split; [done|]. by rewrite Hkeys.
Qed.

Lemma reload_providers_well_formed pkm (configs : list Provider.ProviderConfig) :
  Provider.well_formed (Provider.reload_providers st pkm configs).
Proof.
  unfold Provider.reload_providers. cbn zeta.
  generalize (Key.key_failure_counts <$> Provider._managers pkm). intros preserved.
  assert (Hgen : ∀ pkm0, Provider.well_formed pkm0 →
            Provider.well_formed (foldl (Provider.reload_one st preserved) pkm0 configs)).
  { induction configs as [|config configs IH]; intros pkm0 Hwf; [done|].
    cbn [foldl]. apply IH. by apply reload_one_well_formed. }
  apply Hgen, empty_well_formed.
Qed.

Lemma unregister_provider_well_formed pkm n :
  Provider.well_formed pkm →
  ∃ pkm',
    Provider.unregister_provider pkm n
      = (pkm', inr (bool_decide (is_Some (Provider.get_manager pkm n))))
    ∧ Provider.well_formed pkm'
    ∧ Provider.get_manager pkm' n = None
    ∧ Provider.get_config pkm' n = None
    ∧ (∀ n', n' ≠ n →
         Provider.get_manager pkm' n' = Provider.get_manager pkm n'
         ∧ Provider.get_config pkm' n' = Provider.get_config pkm n').
Proof.
  intros Hwf. pose proof (Hwf n) as Hn.
  unfold Provider.unregister_provider, Provider.get_manager, Provider.get_config.
  destruct (Provider._managers pkm !! n) as [km|] eqn:Hkm;
    destruct (Provider._configs pkm !! n) as [config|] eqn:Hcfg; try done.
  - eexists. rewrite bool_decide_eq_true_2 by (by eexists). split; [done|].
    cbn [Provider._managers Provider._configs]. split_and!.
    + intros n'. cbn. destruct (decide (n' = n)) as [->|Hne].
      * by rewrite !lookup_delete_eq.
      * rewrite !lookup_delete_ne by done. apply Hwf.
    + by rewrite lookup_delete_eq.
    + by rewrite lookup_delete_eq.
    + intros n' Hne. by rewrite !lookup_delete_ne.
  - exists pkm. rewrite bool_decide_eq_false_2 by (by intros [? ?]).
    split_and!; done.
Qed.

Lemma step_well_formed pkm (o : Provider.op) :
  Provider.well_formed pkm → Provider.well_formed (Provider.step st pkm o).
Proof.
  intros Hwf. destruct o as [config|n|configs| |n o]; cbn [Provider.step].
  - by apply register_provider_well_formed.
  - destruct (unregister_provider_well_formed pkm n Hwf) as (pkm' & -> & Hwf' & _). done.
  - apply reload_providers_well_formed.
  - apply empty_well_formed.
  - destruct (Provider._managers pkm !! n) as [km|] eqn:Hkm; [|done].
    intros n'. cbn. pose proof (Hwf n') as Hn'.
    destruct (decide (n = n')) as [<-|Hne].
    + rewrite lookup_insert_eq. rewrite Hkm in Hn'.
      destruct (Provider._configs pkm !! n) as [config|]; [|done].
      destruct (key_step_fields km o) as [-> ->]. done.
    + by rewrite lookup_insert_ne.
Qed.

Lemma run_well_formed pkm (os : list Provider.op) :
  Provider.well_formed pkm → Provider.well_formed (Provider.run st pkm os).
Proof.
  revert pkm. induction os as [|o os IH]; intros pkm Hwf; [done|].
  apply IH. by apply step_well_formed.
Qed.

End RegistryFacts.

(** X29.  The two dictionaries of a [ProviderKeyManager] never disagree:
    after any sequence of registrations, unregistrations, reloads, clearings
    and key operations, a provider has a key manager exactly when it has a
    configuration, the configuration is enabled and has keys, and the manager
    runs over these keys with the provider's [max_failures].  So
    [unregister_provider] never fails on its second [del]: it answers whether
    the provider was registered, removes it from both dictionaries and leaves
    every other provider alone; and the key that [get_first_valid_key] picks
    for a registered provider is one of its configured keys. *)
Theorem provider_registry_stays_consistent (st : Settings) (os : list Provider.op)
    (n : string) :
  Provider.well_formed (Provider.run st Provider.empty os)
  ∧ (∃ pkm',
       Provider.unregister_provider (Provider.run st Provider.empty os) n
         = (pkm',
            inr (bool_decide
                   (is_Some (Provider.get_manager (Provider.run st Provider.empty os) n))))
       ∧ Provider.get_manager pkm' n = None
       ∧ Provider.get_config pkm' n = None
       ∧ (∀ n', n' ≠ n →
            Provider.get_manager pkm' n'
              = Provider.get_manager (Provider.run st Provider.empty os) n'
            ∧ Provider.get_config pkm' n'
              = Provider.get_config (Provider.run st Provider.empty os) n'))
  ∧ (∀ km, Provider.get_manager (Provider.run st Provider.empty os) n = Some km →
       ∃ config,
         Provider.get_config (Provider.run st Provider.empty os) n = Some config
         ∧ Provider.name config = n
         ∧ Key.api_keys km = Provider.api_keys config
         ∧ Key.get_first_valid_key km ∈ Provider.api_keys config).
Proof.
  pose proof (run_well_formed st Provider.empty os (empty_well_formed)) as Hwf.
  split_and!.
  - done.
  - destruct (unregister_provider_well_formed _ n Hwf) as (pkm' & Hun & _ & Hm & Hc & Hother).
    by exists pkm'.
  - intros km Hkm. pose proof (Hwf n) as Hn.
    unfold Provider.get_manager, Provider.get_config in *. rewrite Hkm in Hn.
    destruct (Provider._configs (Provider.run st Provider.empty os) !! n) as [config|];
      [|done].
    destruct Hn as (Hname & [_ Hkeys] & Hpool & _).
    exists config. split_and!; [done | done | done |].
    rewrite <- Hpool. apply get_first_valid_key_elem_of. by rewrite Hpool.
Qed.
